(** * MiniAxiom: the symbolic core, embedded and verified

    A shallow embedding of the formal data model ([src/formal/expressions.py]),
    the pattern matcher and rule applicator ([src/reasoning/pattern_matching.py]),
    the rule catalog's activation control ([src/reasoning/rules.py]) and the
    forward chainer ([src/reasoning/proof_engine.py]).

    Conventions of the embedding:
    - a Python [Fraction]/[int] held by [Number] is a canonical rational [Qc]:
      Python compares the two numerically, and [Qc] identifies exactly the
      numerically equal ones;
    - a Python [dict] (the mappings of a [Substitution]) is an association
      list with unique keys, in insertion order;
    - a Python [set] of facts is the duplicate-free list of its elements;
      [add] appends and set difference filters. In [Matching] and [Engine]
      the list is iterated as it stands, in insertion order: what is stated
      of them is read of the facts a set holds, not of the order a Python
      set gives them in. In [Ordered] the order in which a set is iterated
      is a parameter, and what depends on that order is stated there;
    - the case test of a variable name is modelled on ASCII letters; what
      depends on it is stated for names of ASCII characters;
    - an exception is a value of an error type, and a loop that can [return]
      from its middle yields a [Flow].

    The definitions come first, module by module in the order of the
    pipeline; the lemmas and theorems follow in the same order. *)

From Stdlib Require Import QArith Qcanon DecimalString.
From stdpp Require Import base decidable option list strings numbers gmap.

Close Scope Qc_scope.
Close Scope Q_scope.
Local Open Scope string_scope.
Local Open Scope nat_scope.
Local Open Scope list_scope.

(** ** Expressions, facts and rules *)

Module Expressions.

Inductive Expression : Type :=
  | Number (value : Qc)
  | Variable_ (name : string)
  | Operation (left : Expression) (operator : string) (right : Expression).

#[global] Instance Expression_eq_dec : EqDecision Expression.
Proof. solve_decision. Defined.

Record Fact : Type := MkFact {
  predicate : string;
  arguments : list Expression
}.

#[global] Instance Fact_eq_dec : EqDecision Fact.
Proof. solve_decision. Defined.

Record Rule : Type := MkRule {
  premises : list Fact;
  conclusion : Fact;
  name : string
}.

#[global] Instance Rule_eq_dec : EqDecision Rule.
Proof. solve_decision. Defined.

(** The [ValueError]s of the constructors, by cause. *)
Inductive ValueError : Type :=
  | InvalidOperator (operator : string)
  | InvalidPredicate (predicate : string)
  | WrongArgumentCount (predicate : string) (expected got : nat)
  | UnknownRule (name : string).

Inductive Result (A : Type) : Type :=
  | Ok (a : A)
  | Raise (e : ValueError).
Arguments Ok {A} a.
Arguments Raise {A} e.

(** [Operation.VALID_OPERATORS] *)
Definition VALID_OPERATORS : list string := ["+"; "-"; "*"; "/"; "^"; "**"].

(** [Fact.VALID_PREDICATES] *)
Definition VALID_PREDICATES : list string :=
  ["eq"; "gt"; "lt"; "gte"; "lte";
   "even"; "odd"; "prime"; "positive"; "negative";
   "divides"; "multiple"].

(** [Operation.__init__]: the operands are [Expression]s by typing, so only
    the operator test remains. *)
Definition new_Operation (left : Expression) (operator : string)
    (right : Expression) : Result Expression :=
  if bool_decide (operator ∈ VALID_OPERATORS)
  then Ok (Operation left operator right)
  else Raise (InvalidOperator operator).

(** [Fact._get_expected_arg_count]; [None] is its unreachable final [raise]. *)
Definition _get_expected_arg_count (predicate : string) : option nat :=
  if bool_decide (predicate ∈ ["eq"; "gt"; "lt"; "gte"; "lte"; "divides"; "multiple"])
  then Some 2
  else if bool_decide (predicate ∈ ["even"; "odd"; "prime"; "positive"; "negative"])
  then Some 1
  else None.

(** [Fact.__init__] *)
Definition new_Fact (predicate : string) (arguments : list Expression)
    : Result Fact :=
  if bool_decide (predicate ∈ VALID_PREDICATES) then
    match _get_expected_arg_count predicate with
    | Some expected_args =>
        if bool_decide (length arguments ≠ expected_args)
        then Raise (WrongArgumentCount predicate expected_args (length arguments))
        else Ok (MkFact predicate arguments)
    | None => Raise (InvalidPredicate predicate)
    end
  else Raise (InvalidPredicate predicate).

(** Expressions and facts that pass the tests of [Operation.__init__] and
    [Fact.__init__], as every constructed one does. *)
Fixpoint wf_expression (e : Expression) : Prop :=
  match e with
  | Number _ | Variable_ _ => True
  | Operation l op r => op ∈ VALID_OPERATORS ∧ wf_expression l ∧ wf_expression r
  end.

Definition wf_fact (f : Fact) : Prop :=
  predicate f ∈ VALID_PREDICATES
  ∧ _get_expected_arg_count (predicate f) = Some (length (arguments f))
  ∧ Forall wf_expression (arguments f).

(** Integer literals, for the examples. *)
Definition num (z : Z) : Expression := Number (Q2Qc (inject_Z z)).

End Expressions.
Export Expressions.

(** ** Substitutions and the pattern matcher *)

Module Matching.

(** [Substitution.mappings]: a dict from variable names to expressions. *)
Abbreviation Substitution := (list (string * Expression)).

(** [self.mappings.get(variable)] *)
Fixpoint get_mapping (variable : string) (mappings : Substitution)
    : option Expression :=
  match mappings with
  | [] => None
  | (v, e) :: rest =>
      if decide (v = variable) then Some e else get_mapping variable rest
  end.

(** [Substitution.add_mapping]: [None] is the [False] answer, which leaves the
    mappings as they were; [Some] carries the mappings after the call. *)
Definition add_mapping (variable : string) (expression : Expression)
    (mappings : Substitution) : option Substitution :=
  match get_mapping variable mappings with
  | Some bound => if decide (bound = expression) then Some mappings else None
  | None => Some (mappings ++ [(variable, expression)])
  end.

(** [Substitution.apply_to_expression] *)
Fixpoint apply_to_expression (s : Substitution) (expression : Expression)
    : Expression :=
  match expression with
  | Variable_ x =>
      match get_mapping x s with
      | Some e => e
      | None => expression
      end
  | Number _ => expression
  | Operation l op r =>
      Operation (apply_to_expression s l) op (apply_to_expression s r)
  end.

(** [Substitution.apply_to_fact] *)
Definition apply_to_fact (s : Substitution) (fact : Fact) : Fact :=
  MkFact (predicate fact) (apply_to_expression s <$> arguments fact).

(** The loop of [Substitution.merge] over [other.mappings.items()]. *)
Fixpoint merge_items (result : Substitution) (items : Substitution)
    : option Substitution :=
  match items with
  | [] => Some result
  | (var, expr) :: rest =>
      match add_mapping var expr result with
      | Some result' => merge_items result' rest
      | None => None
      end
  end.

(** [Substitution.merge] *)
Definition merge (self other : Substitution) : option Substitution :=
  merge_items self other.

(** [str.isupper] and [str.startswith('_')] on names of ASCII characters: a
    name is upper when it has a cased character and none of its cased
    characters is lower case. [str.isupper] goes by the Unicode case of each
    character; on a name with a character outside ASCII the two tests can
    differ, so what is stated of the case test is stated for the names that
    [is_ascii] below accepts. *)
Definition is_ascii_upper (c : Ascii.ascii) : bool :=
  let n := Ascii.nat_of_ascii c in Nat.leb 65 n && Nat.leb n 90.

Definition is_ascii_lower (c : Ascii.ascii) : bool :=
  let n := Ascii.nat_of_ascii c in Nat.leb 97 n && Nat.leb n 122.

Definition isupper (s : string) : bool :=
  let cs := String.list_ascii_of_string s in
  existsb is_ascii_upper cs && forallb (λ c, negb (is_ascii_lower c)) cs.

Definition startswith_underscore (s : string) : bool :=
  match s with
  | String c _ => bool_decide (c = Ascii.ascii_of_nat 95)
  | EmptyString => false
  end.

(** The test [pattern.name.isupper() or pattern.name.startswith('_')]. *)
Definition is_pattern_variable (name : string) : bool :=
  isupper name || startswith_underscore name.

(** [PatternMatcher._match_expression_recursive] *)
Fixpoint _match_expression_recursive (pattern target : Expression)
    (substitution : Substitution) : option Substitution :=
  match pattern with
  | Variable_ pname =>
      if is_pattern_variable pname then
        match get_mapping pname substitution with
        | Some bound =>
            if decide (bound = target) then Some substitution else None
        | None => Some (substitution ++ [(pname, target)])
        end
      else
        match target with
        | Variable_ tname =>
            if decide (pname = tname) then Some substitution else None
        | _ => None
        end
  | Number pv =>
      match target with
      | Number tv => if decide (pv = tv) then Some substitution else None
      | _ => None
      end
  | Operation pl pop pr =>
      match target with
      | Operation tl top tr =>
          if decide (pop ≠ top) then None
          else
            match _match_expression_recursive pl tl substitution with
            | None => None
            | Some left_match => _match_expression_recursive pr tr left_match
            end
      | _ => None
      end
  end.

(** [PatternMatcher.match_expression] *)
Definition match_expression (pattern target : Expression)
    : option Substitution :=
  _match_expression_recursive pattern target [].

(** The loop of [match_fact] over [zip(pattern.arguments, target.arguments)]. *)
Fixpoint match_arguments (pargs targs : list Expression)
    (substitution : Substitution) : option Substitution :=
  match pargs, targs with
  | pattern_arg :: pargs', target_arg :: targs' =>
      match match_expression pattern_arg target_arg with
      | None => None
      | Some arg_match =>
          match merge substitution arg_match with
          | None => None
          | Some merged => match_arguments pargs' targs' merged
          end
      end
  | _, _ => Some substitution
  end.

(** [PatternMatcher.match_fact] *)
Definition match_fact (pattern target : Fact) : option Substitution :=
  if decide (predicate pattern ≠ predicate target) then None
  else if decide (length (arguments pattern) ≠ length (arguments target))
  then None
  else match_arguments (arguments pattern) (arguments target) [].

(** The facts of [targets - {target}]. *)
Definition discard (target : Fact) (targets : list Fact) : list Fact :=
  filter (λ f, f ≠ target) targets.

(** [PatternMatcher.match_facts_list], every set iterated in insertion
    order; [Ordered.match_facts_list] has the order as a parameter. *)
Fixpoint match_facts_list (patterns : list Fact) (targets : list Fact)
    : list Substitution :=
  match patterns with
  | [] => [ [] ]
  | [pattern] => omap (match_fact pattern) targets
  | first_pattern :: (_ :: _) as remaining_patterns =>
      targets ≫= λ target,
        match match_fact first_pattern target with
        | None => []
        | Some first_match =>
            omap (merge first_match)
              (match_facts_list remaining_patterns (discard target targets))
        end
  end.

(** [PatternMatcher.find_rule_matches] *)
Definition find_rule_matches (rule_premises : list Fact)
    (available_facts : list Fact) : list Substitution :=
  match_facts_list rule_premises available_facts.

(** [RuleApplicator.apply_rule] *)
Definition apply_rule (rule : Rule) (available_facts : list Fact) : list Fact :=
  let substitutions := find_rule_matches (premises rule) available_facts in
  filter (λ new_fact, new_fact ∉ available_facts)
    ((λ substitution, apply_to_fact substitution (conclusion rule))
       <$> substitutions).

(** [RuleApplicator.can_apply_rule] *)
Definition can_apply_rule (rule : Rule) (available_facts : list Fact) : bool :=
  bool_decide (0 < length (find_rule_matches (premises rule) available_facts)).

End Matching.
Export Matching.

(** ** What [match_facts_list] is specified to enumerate *)

Module MatchingSpec.

(** All sequences of [n] targets, the target of the first position varying
    slowest: the enumeration order that goes through the premises in order. *)
Fixpoint sequences (n : nat) (targets : list Fact) : list (list Fact) :=
  match n with
  | 0 => [ [] ]
  | S n' => targets ≫= λ target, (target ::.) <$> sequences n' targets
  end.

(** The assignments of pairwise-distinct targets to [n] premises. *)
Definition assignments (n : nat) (targets : list Fact) : list (list Fact) :=
  filter NoDup (sequences n targets).

(** The match of each premise against the target assigned to it. *)
Fixpoint premise_matches (patterns assignment : list Fact)
    : option (list Substitution) :=
  match patterns, assignment with
  | pattern :: patterns', target :: assignment' =>
      m ← match_fact pattern target;
      ms ← premise_matches patterns' assignment';
      Some (m :: ms)
  | _, _ => Some []
  end.

(** The per-premise matches merged into one substitution, if consistent. *)
Fixpoint merge_all (matches : list Substitution) : option Substitution :=
  match matches with
  | [] => Some []
  | m :: rest => merged ← merge_all rest; merge m merged
  end.

(** The substitution of an assignment, when every premise matches its
    target and the matches merge. *)
Definition assignment_substitution (patterns assignment : list Fact)
    : option Substitution :=
  premise_matches patterns assignment ≫= merge_all.

(** One substitution per valid assignment, in enumeration order. *)
Definition match_facts_list_spec (patterns targets : list Fact)
    : list Substitution :=
  omap (assignment_substitution patterns)
    (assignments (length patterns) targets).

(** [match_facts_list] without its single-premise case. *)
Fixpoint match_facts_list_uniform (patterns targets : list Fact)
    : list Substitution :=
  match patterns with
  | [] => [ [] ]
  | first_pattern :: remaining_patterns =>
      targets ≫= λ target,
        match match_fact first_pattern target with
        | None => []
        | Some first_match =>
            omap (merge first_match)
              (match_facts_list_uniform remaining_patterns
                 (discard target targets))
        end
  end.

(** The keys of a substitution are names of pattern variables. *)
Definition pattern_keys (s : Substitution) : Prop :=
  ∀ v e, (v, e) ∈ s → is_pattern_variable v = true.

(** [s'] binds what [s] binds, to the same expressions. *)
Definition extends (s s' : Substitution) : Prop :=
  ∀ v e, get_mapping v s = Some e → get_mapping v s' = Some e.

(** [s], and every substitution that extends it, turns the pattern into the
    target. *)
Definition instantiates (s : Substitution) (pattern target : Expression)
    : Prop :=
  ∀ s', extends s s' → pattern_keys s' → apply_to_expression s' pattern = target.

Definition instantiates_fact (s : Substitution) (pattern target : Fact)
    : Prop :=
  ∀ s', extends s s' → pattern_keys s' → apply_to_fact s' pattern = target.

(** A dict has one entry per key. *)
Definition unique_keys (s : Substitution) : Prop := NoDup (s.*1).

(** Two substitutions bind some variable to different expressions. *)
Definition conflict (a b : Substitution) : Prop :=
  ∃ v ea eb, get_mapping v a = Some ea ∧ get_mapping v b = Some eb ∧ ea ≠ eb.

(** No two of the matches conflict. *)
Definition consistent (matches : list Substitution) : Prop :=
  ∀ m1 m2, m1 ∈ matches → m2 ∈ matches → ¬ conflict m1 m2.

End MatchingSpec.
Export MatchingSpec.

(** ** Names of ASCII characters *)

Module Names.

(** The name has ASCII characters only. *)
Definition is_ascii (name : string) : bool :=
  forallb (λ c, Nat.ltb (Ascii.nat_of_ascii c) 128)
    (String.list_ascii_of_string name).

(** The names of the variables of an expression, and of a fact. *)
Fixpoint variable_names (e : Expression) : list string :=
  match e with
  | Number _ => []
  | Variable_ name => [name]
  | Operation l _ r => variable_names l ++ variable_names r
  end.

Definition fact_variable_names (f : Fact) : list string :=
  arguments f ≫= variable_names.

(** The variables of the fact have ASCII names. *)
Definition ascii_fact (f : Fact) : Prop :=
  Forall (λ name, is_ascii name = true) (fact_variable_names f).

(** The substitution binds ASCII names. *)
Definition ascii_keys (s : Substitution) : Prop :=
  ∀ v e, (v, e) ∈ s → is_ascii v = true.

End Names.
Export Names.

(** ** Substitution through the validating constructors *)

Module Checked.

Definition result_bind {A B : Type} (r : Result A) (k : A → Result B)
    : Result B :=
  match r with
  | Ok a => k a
  | Raise e => Raise e
  end.

(** [Substitution.apply_to_expression], with the call of [Operation(...)]
    going through [Operation.__init__]. *)
Fixpoint apply_to_expression_checked (s : Substitution)
    (expression : Expression) : Result Expression :=
  match expression with
  | Variable_ x =>
      match get_mapping x s with
      | Some e => Ok e
      | None => Ok expression
      end
  | Number _ => Ok expression
  | Operation l op r =>
      result_bind (apply_to_expression_checked s l) (λ new_left,
      result_bind (apply_to_expression_checked s r) (λ new_right,
      new_Operation new_left op new_right))
  end.

(** The list comprehension of [apply_to_fact]. *)
Fixpoint apply_to_arguments_checked (s : Substitution)
    (args : list Expression) : Result (list Expression) :=
  match args with
  | [] => Ok []
  | arg :: rest =>
      result_bind (apply_to_expression_checked s arg) (λ new_arg,
      result_bind (apply_to_arguments_checked s rest) (λ new_rest,
      Ok (new_arg :: new_rest)))
  end.

(** [Substitution.apply_to_fact], with the call of [Fact(...)] going through
    [Fact.__init__]. *)
Definition apply_to_fact_checked (s : Substitution) (fact : Fact)
    : Result Fact :=
  result_bind (apply_to_arguments_checked s (arguments fact)) (λ new_arguments,
  new_Fact (predicate fact) new_arguments).

End Checked.
Export Checked.

(** ** The rule catalog's active set *)

Module Rules.

(** The keys of [MathematicalRules._rules], in the order in which
    [_initialize_rules] inserts them. *)
Definition catalog_rule_names : list string :=
  ["subtraction_property"; "division_property"; "equality_transitivity";
   "addition_property"; "multiplication_property"; "equality_symmetry";
   "even_definition"; "odd_definition"; "even_multiplication";
   "odd_multiplication"; "even_addition"; "odd_addition_even";
   "even_odd_addition"; "even_square"; "odd_square";
   "greater_transitivity"; "equality_substitution_gt"; "less_transitivity";
   "gte_transitivity"; "lte_transitivity"; "gt_lt_relationship";
   "divisibility_transitivity"; "multiple_divides";
   "divisibility_multiplication"; "prime_not_even"].

(** [RuleSystem]: the names of the catalog it holds
    ([self.math_rules.list_rule_names()]) and its active set. *)
Record RuleSystem : Type := MkRuleSystem {
  list_rule_names : list string;
  active_rules : gset string
}.

(** [RuleSystem.__init__] *)
Definition new_RuleSystem : RuleSystem :=
  MkRuleSystem catalog_rule_names (list_to_set catalog_rule_names).

(** [RuleSystem.enable_rule]: what the call returns or raises, and the rule
    system after it. *)
Definition enable_rule (rule_name : string) (self : RuleSystem)
    : Result unit * RuleSystem :=
  if decide (rule_name ∉ list_rule_names self)
  then (Raise (UnknownRule rule_name), self)
  else (Ok (), MkRuleSystem (list_rule_names self)
                 (active_rules self ∪ {[rule_name]})).

(** [RuleSystem.disable_rule] *)
Definition disable_rule (rule_name : string) (self : RuleSystem)
    : Result unit * RuleSystem :=
  (Ok (), MkRuleSystem (list_rule_names self)
            (active_rules self ∖ {[rule_name]})).

(** [RuleSystem.is_rule_active] *)
Definition is_rule_active (rule_name : string) (self : RuleSystem) : bool :=
  bool_decide (rule_name ∈ active_rules self).

(** Every active name is a name of the catalog. *)
Definition active_in_catalog (self : RuleSystem) : Prop :=
  ∀ n, n ∈ active_rules self → n ∈ list_rule_names self.

End Rules.
Export Rules.

(** ** The forward chainer *)

Module Engine.

Record ProofStep : Type := MkProofStep {
  rule_applied : Rule;
  premises_used : list Fact;
  derived_fact : Fact;
  step_number : nat
}.

#[global] Instance ProofStep_eq_dec : EqDecision ProofStep.
Proof. solve_decision. Defined.

Record ProofResult : Type := MkProofResult {
  success : bool;
  goal_achieved : bool;
  steps : list ProofStep;
  final_facts : list Fact;
  iterations_used : nat;
  time_elapsed : Qc;
  error_message : option string
}.

(** [ForwardChainer.stats] *)
Record Stats : Type := MkStats {
  iterations : nat;
  rules_applied : nat;
  facts_derived : nat;
  rule_applications : gmap string nat
}.

Record ForwardChainer : Type := MkForwardChainer {
  max_iterations : Z;
  max_facts : Z;
  stats : Stats
}.

(** The two readings of [time.time()] that one call to [prove] makes, on
    entry and just before it returns, taken as rationals. *)
Record Clock : Type := MkClock {
  time_at_start : Qc;
  time_at_return : Qc
}.

(** [ForwardChainer.reset_statistics] *)
Definition reset_statistics : Stats := MkStats 0 0 0 ∅.

(** [ForwardChainer._create_proof_step] *)
Definition _create_proof_step (rule : Rule) (current_facts : list Fact)
    (derived_fact : Fact) (step_number : nat) : ProofStep :=
  let rule_matches := find_rule_matches (premises rule) current_facts in
  let premises_used :=
    match rule_matches with
    | [] => premises rule
    | substitution :: _ =>
        (λ premise_pattern,
           let concrete_premise := apply_to_fact substitution premise_pattern in
           if decide (concrete_premise ∈ current_facts)
           then concrete_premise else premise_pattern)
          <$> premises rule
    end in
  MkProofStep rule premises_used derived_fact step_number.

(** The names the search states of the specification give to the [return]
    statements of [prove]; the tag is not part of the [ProofResult]. *)
Inductive Outcome : Type :=
  | GoalAchieved | Stuck | IterationLimit | FactLimit.

(** The variables of the body of [prove] that its loops update. *)
Record Locals : Type := MkLocals {
  current_facts : list Fact;
  proof_steps : list ProofStep;
  local_stats : Stats
}.

(** What a loop hands back: its locals when it ran to its end, or the
    [ProofResult] of a [return] made inside it. *)
Inductive Flow : Type :=
  | Next (st : Locals)
  | Return (tag : Outcome) (result : ProofResult) (st : Locals).

(** The statistics update made for a derived fact. *)
Definition count_application (rule_name : string) (s : Stats) : Stats :=
  MkStats (iterations s) (rules_applied s + 1) (facts_derived s + 1)
    (<[rule_name := default 0 (rule_applications s !! rule_name) + 1]>
       (rule_applications s)).

(** [str(n)] of a Python integer. *)
Definition str_int (n : Z) : string := NilZero.string_of_int (Z.to_int n).

(** [f"Too many facts generated (>{self.max_facts})"] *)
Definition fact_limit_message (self_max_facts : Z) : string :=
  "Too many facts generated (>" +:+ str_int self_max_facts +:+ ")".

Section Search.

Context (goal : Fact) (self_max_facts : Z) (elapsed : Qc).

(** [for new_fact in new_facts: ...] *)
Fixpoint new_facts_loop (rule : Rule) (iteration : nat)
    (new_facts : list Fact) (st : Locals) : Flow :=
  match new_facts with
  | [] => Next st
  | new_fact :: rest =>
      if decide (new_fact ∈ current_facts st)
      then new_facts_loop rule iteration rest st
      else
        let step :=
          _create_proof_step rule (current_facts st) new_fact
            (length (proof_steps st) + 1) in
        let st' :=
          MkLocals (current_facts st ++ [new_fact])
            (proof_steps st ++ [step])
            (count_application (name rule) (local_stats st)) in
        if decide (new_fact = goal) then
          Return GoalAchieved
            (MkProofResult true true (proof_steps st') (current_facts st')
               (iteration + 1) elapsed None)
            st'
        else if decide (self_max_facts < Z.of_nat (length (current_facts st')))%Z then
          Return FactLimit
            (MkProofResult false false (proof_steps st') (current_facts st')
               (iteration + 1) elapsed
               (Some (fact_limit_message self_max_facts)))
            st'
        else new_facts_loop rule iteration rest st'
  end.

(** [for rule in rules: ...] *)
Fixpoint rules_loop (iteration : nat) (rules : list Rule) (st : Locals)
    : Flow :=
  match rules with
  | [] => Next st
  | rule :: rest =>
      if negb (can_apply_rule rule (current_facts st))
      then rules_loop iteration rest st
      else
        let new_facts := apply_rule rule (current_facts st) in
        match new_facts_loop rule iteration new_facts st with
        | Next st' => rules_loop iteration rest st'
        | Return tag result st' => Return tag result st'
        end
  end.

(** The code after the main loop, reached by [break] ([Stuck]) or by the
    end of [range(self.max_iterations)] ([IterationLimit]). *)
Definition search_completed (tag : Outcome) (st : Locals)
    : Outcome * ProofResult * Locals :=
  (tag,
   MkProofResult true false (proof_steps st) (current_facts st)
     (iterations (local_stats st)) elapsed None,
   st).

(** [for iteration in range(self.max_iterations): ...], over the values of
    the range that are still to come. *)
Fixpoint iterations_loop (rules : list Rule) (range : list nat) (st : Locals)
    : Outcome * ProofResult * Locals :=
  match range with
  | [] => search_completed IterationLimit st
  | iteration :: range' =>
      let st1 :=
        MkLocals (current_facts st) (proof_steps st)
          (MkStats (iteration + 1) (rules_applied (local_stats st))
             (facts_derived (local_stats st))
             (rule_applications (local_stats st))) in
      let facts_at_start := length (current_facts st1) in
      match rules_loop iteration rules st1 with
      | Return tag result st' => (tag, result, st')
      | Next st' =>
          if decide (length (current_facts st') = facts_at_start)
          then search_completed Stuck st'
          else iterations_loop rules range' st'
      end
  end.

End Search.

(** [ForwardChainer.prove], with the tag of the [return] taken and the
    chainer as the call leaves it. No operation of the body raises in this
    embedding, so the [except] clause has no counterpart. *)
Definition run (self : ForwardChainer) (clock : Clock) (goal : Fact)
    (initial_facts : list Fact) (rules : list Rule)
    : Outcome * ProofResult * ForwardChainer :=
  let elapsed := Qcminus (time_at_return clock) (time_at_start clock) in
  let st0 := MkLocals initial_facts [] reset_statistics in
  if decide (goal ∈ current_facts st0) then
    (GoalAchieved,
     MkProofResult true true [] (current_facts st0) 0 elapsed None,
     MkForwardChainer (max_iterations self) (max_facts self) (local_stats st0))
  else
    let '(tag, result, st) :=
      iterations_loop goal (max_facts self) elapsed rules
        (seq 0 (Z.to_nat (max_iterations self))) st0 in
    (tag, result,
     MkForwardChainer (max_iterations self) (max_facts self) (local_stats st)).

Definition prove (self : ForwardChainer) (clock : Clock) (goal : Fact)
    (initial_facts : list Fact) (rules : list Rule) : ProofResult :=
  (run self clock goal initial_facts rules).1.2.

Definition prove_outcome (self : ForwardChainer) (clock : Clock) (goal : Fact)
    (initial_facts : list Fact) (rules : list Rule) : Outcome :=
  (run self clock goal initial_facts rules).1.1.

(** *** Invariants of the search loops *)

Definition flow_locals (f : Flow) : Locals :=
  match f with
  | Next st => st
  | Return _ _ st => st
  end.

(** The working set is the initial facts followed by the derived facts of
    the steps, in order. *)
Definition trace_inv (initial_facts : list Fact) (st : Locals) : Prop :=
  current_facts st = initial_facts ++ (derived_fact <$> proof_steps st).

(** While the search goes on, every insertion so far left the working set
    within the fact limit. *)
Definition within_limit (self_max_facts : Z) (st : Locals) : Prop :=
  proof_steps st = []
  ∨ (Z.of_nat (length (current_facts st)) ≤ self_max_facts)%Z.

(** After a [return], only the last insertion may have passed the limit. *)
Definition stopped_at_limit (self_max_facts : Z) (st : Locals) : Prop :=
  length (proof_steps st) ≤ 1
  ∨ (Z.of_nat (length (current_facts st)) ≤ self_max_facts + 1)%Z.

(** A [ProofResult] built by a [return] inside the loops. *)
Definition returned (goal : Fact) (self_max_facts : Z) (elapsed : Qc)
    (iteration : nat) (tag : Outcome) (result : ProofResult) (st : Locals)
    : Prop :=
  steps result = proof_steps st
  ∧ final_facts result = current_facts st
  ∧ iterations_used result = iteration + 1
  ∧ time_elapsed result = elapsed
  ∧ ((tag = GoalAchieved ∧ success result = true ∧ goal_achieved result = true
      ∧ error_message result = None ∧ goal ∈ current_facts st)
     ∨ (tag = FactLimit ∧ success result = false ∧ goal_achieved result = false
        ∧ error_message result = Some (fact_limit_message self_max_facts)
        ∧ (self_max_facts < Z.of_nat (length (current_facts st)))%Z)).

Definition flow_ok (goal : Fact) (self_max_facts : Z) (elapsed : Qc)
    (initial_facts : list Fact) (iteration : nat) (f : Flow) : Prop :=
  match f with
  | Next st => trace_inv initial_facts st ∧ within_limit self_max_facts st
  | Return tag result st =>
      trace_inv initial_facts st ∧ stopped_at_limit self_max_facts st
      ∧ returned goal self_max_facts elapsed iteration tag result st
  end.

(** What each outcome says about the result and the locals it leaves. *)
Definition outcome_ok (goal : Fact) (self_max_facts : Z) (tag : Outcome)
    (result : ProofResult) : Prop :=
  match tag with
  | GoalAchieved =>
      success result = true ∧ goal_achieved result = true
      ∧ error_message result = None ∧ goal ∈ final_facts result
  | FactLimit =>
      success result = false ∧ goal_achieved result = false
      ∧ error_message result = Some (fact_limit_message self_max_facts)
      ∧ (self_max_facts < Z.of_nat (length (final_facts result)))%Z
  | Stuck | IterationLimit =>
      success result = true ∧ goal_achieved result = false
      ∧ error_message result = None
      ∧ (steps result = []
         ∨ (Z.of_nat (length (final_facts result)) ≤ self_max_facts)%Z)
  end.

(** What [iterations_loop] hands back, for a range [k, k+1, ..., k+n-1]. *)
Definition search_ok (goal : Fact) (self_max_facts : Z) (elapsed : Qc)
    (initial_facts : list Fact) (k n : nat)
    (out : Outcome * ProofResult * Locals) : Prop :=
  let '(tag, result, st) := out in
  trace_inv initial_facts st ∧ stopped_at_limit self_max_facts st
  ∧ steps result = proof_steps st
  ∧ final_facts result = current_facts st
  ∧ time_elapsed result = elapsed
  ∧ iterations_used result ≤ k + n
  ∧ (tag = IterationLimit → iterations_used result = k + n)
  ∧ outcome_ok goal self_max_facts tag result.

(** What holds of a step created when the working set was [working_set],
    as the step of index [k]: its number, its premises are in the working
    set, its derived fact is new, and the derived fact is the conclusion of
    its rule under some match of the premises in the working set. *)
Definition step_sound (rules : list Rule) (working_set : list Fact) (k : nat)
    (step : ProofStep) : Prop :=
  step_number step = k + 1
  ∧ rule_applied step ∈ rules
  ∧ Forall (λ f, f ∈ working_set) (premises_used step)
  ∧ (derived_fact step ∉ working_set)
  ∧ (∃ s, s ∈ find_rule_matches (premises (rule_applied step)) working_set
          ∧ apply_to_fact s (conclusion (rule_applied step))
            = derived_fact step).

Definition steps_sound (rules : list Rule) (initial_facts : list Fact)
    (steps : list ProofStep) : Prop :=
  ∀ k step, steps !! k = Some step →
    step_sound rules (initial_facts ++ (derived_fact <$> take k steps)) k step.

(** Agreement of two results on everything but [time_elapsed]. *)
Definition same_result (r1 r2 : ProofResult) : Prop :=
  steps r1 = steps r2
  ∧ goal_achieved r1 = goal_achieved r2
  ∧ success r1 = success r2
  ∧ iterations_used r1 = iterations_used r2
  ∧ final_facts r1 = final_facts r2
  ∧ error_message r1 = error_message r2.

(** A result with its [time_elapsed] replaced. *)
Definition retime (t : Qc) (r : ProofResult) : ProofResult :=
  MkProofResult (success r) (goal_achieved r) (steps r) (final_facts r)
    (iterations_used r) t (error_message r).

Definition flow_retime (t : Qc) (f : Flow) : Flow :=
  match f with
  | Next st => Next st
  | Return tag result st => Return tag (retime t result) st
  end.

(** [ForwardChainer.__init__] *)
Definition new_ForwardChainer (max_iterations max_facts : Z) : ForwardChainer :=
  MkForwardChainer max_iterations max_facts reset_statistics.

End Engine.
Export Engine.

(** ** The matcher and the search under an iteration order *)

Module Ordered.

(** A Python [set] gives its elements, when iterated, in the order of the
    slots of its hash table, which is neither the order of insertion nor an
    order of the values. [Matching] and [Engine] go through a fact set in
    the order of insertion, which is right for what does not depend on the
    order. Here the order is a parameter: a fact set is the list of its
    facts as inserted, the new set [targets - {target}] is the list of
    [targets] without [target], and [order] gives the order in which the set
    of a list is iterated. The only iteration over a set in the code is
    [for target in targets] in [match_facts_list]; membership, [add], [len]
    and the set difference do not look at the order. *)

Section Order.

Context (order : list Fact → list Fact).

(** [PatternMatcher.match_facts_list] *)
Fixpoint match_facts_list (patterns : list Fact) (targets : list Fact)
    : list Substitution :=
  match patterns with
  | [] => [ [] ]
  | [pattern] => omap (match_fact pattern) (order targets)
  | first_pattern :: (_ :: _) as remaining_patterns =>
      order targets ≫= λ target,
        match match_fact first_pattern target with
        | None => []
        | Some first_match =>
            omap (merge first_match)
              (match_facts_list remaining_patterns (discard target targets))
        end
  end.

(** [PatternMatcher.find_rule_matches] *)
Definition find_rule_matches (rule_premises : list Fact)
    (available_facts : list Fact) : list Substitution :=
  match_facts_list rule_premises available_facts.

(** [RuleApplicator.apply_rule] *)
Definition apply_rule (rule : Rule) (available_facts : list Fact) : list Fact :=
  let substitutions := find_rule_matches (premises rule) available_facts in
  filter (λ new_fact, new_fact ∉ available_facts)
    ((λ substitution, apply_to_fact substitution (conclusion rule))
       <$> substitutions).

(** [RuleApplicator.can_apply_rule] *)
Definition can_apply_rule (rule : Rule) (available_facts : list Fact) : bool :=
  bool_decide (0 < length (find_rule_matches (premises rule) available_facts)).

(** [ForwardChainer._create_proof_step] *)
Definition _create_proof_step (rule : Rule) (current_facts : list Fact)
    (derived_fact : Fact) (step_number : nat) : ProofStep :=
  let rule_matches := find_rule_matches (premises rule) current_facts in
  let premises_used :=
    match rule_matches with
    | [] => premises rule
    | substitution :: _ =>
        (λ premise_pattern,
           let concrete_premise := apply_to_fact substitution premise_pattern in
           if decide (concrete_premise ∈ current_facts)
           then concrete_premise else premise_pattern)
          <$> premises rule
    end in
  MkProofStep rule premises_used derived_fact step_number.

Section Search.

Context (goal : Fact) (self_max_facts : Z) (elapsed : Qc).

(** [for new_fact in new_facts: ...] *)
Fixpoint new_facts_loop (rule : Rule) (iteration : nat)
    (new_facts : list Fact) (st : Locals) : Flow :=
  match new_facts with
  | [] => Next st
  | new_fact :: rest =>
      if decide (new_fact ∈ current_facts st)
      then new_facts_loop rule iteration rest st
      else
        let step :=
          _create_proof_step rule (current_facts st) new_fact
            (length (proof_steps st) + 1) in
        let st' :=
          MkLocals (current_facts st ++ [new_fact])
            (proof_steps st ++ [step])
            (count_application (name rule) (local_stats st)) in
        if decide (new_fact = goal) then
          Return GoalAchieved
            (MkProofResult true true (proof_steps st') (current_facts st')
               (iteration + 1) elapsed None)
            st'
        else if decide (self_max_facts < Z.of_nat (length (current_facts st')))%Z then
          Return FactLimit
            (MkProofResult false false (proof_steps st') (current_facts st')
               (iteration + 1) elapsed
               (Some (fact_limit_message self_max_facts)))
            st'
        else new_facts_loop rule iteration rest st'
  end.

(** [for rule in rules: ...] *)
Fixpoint rules_loop (iteration : nat) (rules : list Rule) (st : Locals)
    : Flow :=
  match rules with
  | [] => Next st
  | rule :: rest =>
      if negb (can_apply_rule rule (current_facts st))
      then rules_loop iteration rest st
      else
        let new_facts := apply_rule rule (current_facts st) in
        match new_facts_loop rule iteration new_facts st with
        | Next st' => rules_loop iteration rest st'
        | Return tag result st' => Return tag result st'
        end
  end.

(** [for iteration in range(self.max_iterations): ...], over the values of
    the range that are still to come. *)
Fixpoint iterations_loop (rules : list Rule) (range : list nat) (st : Locals)
    : Outcome * ProofResult * Locals :=
  match range with
  | [] => search_completed elapsed IterationLimit st
  | iteration :: range' =>
      let st1 :=
        MkLocals (current_facts st) (proof_steps st)
          (MkStats (iteration + 1) (rules_applied (local_stats st))
             (facts_derived (local_stats st))
             (rule_applications (local_stats st))) in
      let facts_at_start := length (current_facts st1) in
      match rules_loop iteration rules st1 with
      | Return tag result st' => (tag, result, st')
      | Next st' =>
          if decide (length (current_facts st') = facts_at_start)
          then search_completed elapsed Stuck st'
          else iterations_loop rules range' st'
      end
  end.

End Search.

(** [ForwardChainer.prove], with the outcome of the search and the chainer
    as the call leaves it. *)
Definition run (self : ForwardChainer) (clock : Clock) (goal : Fact)
    (initial_facts : list Fact) (rules : list Rule)
    : Outcome * ProofResult * ForwardChainer :=
  let elapsed := Qcminus (time_at_return clock) (time_at_start clock) in
  let st0 := MkLocals initial_facts [] reset_statistics in
  if decide (goal ∈ current_facts st0) then
    (GoalAchieved,
     MkProofResult true true [] (current_facts st0) 0 elapsed None,
     MkForwardChainer (max_iterations self) (max_facts self) (local_stats st0))
  else
    let '(tag, result, st) :=
      iterations_loop goal (max_facts self) elapsed rules
        (seq 0 (Z.to_nat (max_iterations self))) st0 in
    (tag, result,
     MkForwardChainer (max_iterations self) (max_facts self) (local_stats st)).

Definition prove (self : ForwardChainer) (clock : Clock) (goal : Fact)
    (initial_facts : list Fact) (rules : list Rule) : ProofResult :=
  (run self clock goal initial_facts rules).1.2.

Definition prove_outcome (self : ForwardChainer) (clock : Clock) (goal : Fact)
    (initial_facts : list Fact) (rules : list Rule) : Outcome :=
  (run self clock goal initial_facts rules).1.1.

(** The assignments of pairwise-distinct targets to [n] premises, in the
    order in which the nested loops go through them: the target of the first
    premise varies slowest, and every pool of candidates is gone through in
    its own iteration order. *)
Fixpoint assignments_in_order (n : nat) (targets : list Fact)
    : list (list Fact) :=
  match n with
  | 0 => [ [] ]
  | S n' =>
      order targets ≫= λ target,
        (target ::.) <$> assignments_in_order n' (discard target targets)
  end.

(** One substitution per valid assignment, in that order. *)
Definition match_facts_list_spec (patterns targets : list Fact)
    : list Substitution :=
  omap (assignment_substitution patterns)
    (assignments_in_order (length patterns) targets).

End Order.

(** An iteration order gives every element of the set, once. *)
Definition iteration_order (order : list Fact → list Fact) : Prop :=
  ∀ facts, order facts ≡ₚ facts.

(** The order of insertion, which [Matching] and [Engine] follow. *)
Definition insertion_order (facts : list Fact) : list Fact := facts.

(** The order of insertion backwards, newest first. *)
Definition newest_first (facts : list Fact) : list Fact := reverse facts.

End Ordered.

(** ** Concrete facts and rules, from the tests *)

Module Examples.

Definition a : Expression := Variable_ "a".
Definition b : Expression := Variable_ "b".
Definition c : Expression := Variable_ "c".
Definition d : Expression := Variable_ "d".
Definition x : Expression := Variable_ "x".
Definition y : Expression := Variable_ "y".
Definition X : Expression := Variable_ "X".
Definition Y : Expression := Variable_ "Y".
Definition Z' : Expression := Variable_ "Z".

Definition eq_ (l r : Expression) : Fact := MkFact "eq" [l; r].
Definition gt_ (l r : Expression) : Fact := MkFact "gt" [l; r].
Definition positive_ (e : Expression) : Fact := MkFact "positive" [e].

(** [eq(X, Y) → gt(X, 0)], "rule1" of [test_multi_step_proof] *)
Definition rule1 : Rule := MkRule [eq_ X Y] (gt_ X (num 0)) "rule1".

(** [gt(X, 0) → positive(X)], "rule2" of [test_multi_step_proof] *)
Definition rule2 : Rule := MkRule [gt_ X (num 0)] (positive_ X) "rule2".

(** [eq(X, Y) → eq(Y, X)], the rule "equality_symmetry" of the catalog *)
Definition equality_symmetry : Rule :=
  MkRule [eq_ X Y] (eq_ Y X) "equality_symmetry".

(** [eq(X, Y) ∧ eq(Y, Z) → eq(X, Z)] of [test_transitivity_proof] *)
Definition transitivity_xy_yz : Rule :=
  MkRule [eq_ X Y; eq_ Y Z'] (eq_ X Z') "transitivity_xy_yz".

(** [eq(X + A, B) → eq(X, B - A)], the subtraction property as its rule
    string reads *)
Definition subtraction_property : Rule :=
  MkRule [eq_ (Operation X "+" (Variable_ "A")) (Variable_ "B")]
    (eq_ X (Operation (Variable_ "B") "-" (Variable_ "A")))
    "subtraction_property".

(** [ForwardChainer()] with its default limits. *)
Definition chainer : ForwardChainer := new_ForwardChainer 100 1000.

Definition clock : Clock := MkClock (Q2Qc 0) (Q2Qc 1).

End Examples.

(** ** Printing *)

Module Printing.

(** [Number.__str__]: a fraction with a denominator other than one prints
    as [numerator/denominator], any other value as an integer. *)
Definition str_number (value : Qc) : string :=
  if decide (Qden (this value) ≠ 1%positive)
  then str_int (Qnum (this value)) +:+ "/" +:+ str_int (Zpos (Qden (this value)))
  else str_int (Qnum (this value)).

Definition is_operation (e : Expression) : bool :=
  match e with
  | Operation _ _ _ => true
  | _ => false
  end.

(** [Number.__str__], [Variable.__str__] and [Operation.__str__] *)
Fixpoint str_expression (e : Expression) : string :=
  match e with
  | Number value => str_number value
  | Variable_ name => name
  | Operation l operator r =>
      let left_str := str_expression l in
      let right_str := str_expression r in
      let left_str :=
        if is_operation l then "(" +:+ left_str +:+ ")" else left_str in
      let right_str :=
        if is_operation r then "(" +:+ right_str +:+ ")" else right_str in
      if bool_decide (operator ∈ ["^"; "**"])
      then left_str +:+ "^" +:+ right_str
      else left_str +:+ " " +:+ operator +:+ " " +:+ right_str
  end.

(** [', '.join(...)] *)
Fixpoint join (separator : string) (parts : list string) : string :=
  match parts with
  | [] => ""
  | [part] => part
  | part :: (_ :: _) as rest => part +:+ separator +:+ join separator rest
  end.

(** [Fact.__str__] *)
Definition str_fact (f : Fact) : string :=
  predicate f +:+ "(" +:+ join ", " (str_expression <$> arguments f) +:+ ")".

End Printing.
Export Printing.

(** ** Problems *)

Module Problem.

(** [MathProblem]; its [metadata] dict, which no function of the core reads,
    is left out. *)
Record MathProblem : Type := MkMathProblem {
  facts : list Fact;
  rules : list Rule;
  goal : Fact;
  original_text : string
}.

(** [not fact.predicate or not fact.arguments] *)
Definition fact_is_hollow (f : Fact) : bool :=
  bool_decide (predicate f = "") || bool_decide (arguments f = []).

(** [not rule.premises or not rule.conclusion]; a [Fact] object is always
    truthy, so the second test never holds. *)
Definition rule_is_hollow (r : Rule) : bool :=
  bool_decide (premises r = []) || false.

(** The loops of [validate], each returning [False] at the first hit. *)
Fixpoint any_hollow_fact (fs : list Fact) : bool :=
  match fs with
  | [] => false
  | f :: rest => if fact_is_hollow f then true else any_hollow_fact rest
  end.

Fixpoint any_hollow_rule (rs : list Rule) : bool :=
  match rs with
  | [] => false
  | r :: rest => if rule_is_hollow r then true else any_hollow_rule rest
  end.

(** [MathProblem.validate]; nothing in its [try] block raises. *)
Definition validate (p : MathProblem) : bool :=
  if any_hollow_fact (facts p) then false
  else if fact_is_hollow (goal p) then false
  else if any_hollow_rule (rules p) then false
  else true.

End Problem.

(** ** Categories of the catalog *)

Module Categories.

(** [category_mapping] of [MathematicalRules.get_rules_by_category] *)
Definition category_mapping : list (string * list string) :=
  [("algebraic",
    ["subtraction_property"; "division_property"; "equality_transitivity";
     "addition_property"; "multiplication_property"; "equality_symmetry"]);
   ("arithmetic",
    ["even_definition"; "odd_definition"; "even_multiplication";
     "odd_multiplication"; "even_addition"; "odd_addition_even";
     "even_odd_addition"; "even_square"; "odd_square"]);
   ("comparison",
    ["greater_transitivity"; "equality_substitution_gt"; "less_transitivity";
     "gte_transitivity"; "lte_transitivity"; "gt_lt_relationship"]);
   ("number_theory",
    ["divisibility_transitivity"; "multiple_divides";
     "divisibility_multiplication"; "prime_not_even"])].

(** [category_mapping[category]], [None] when the key is missing. *)
Fixpoint category_names_in (mapping : list (string * list string))
    (category : string) : option (list string) :=
  match mapping with
  | [] => None
  | (c, names) :: rest =>
      if decide (c = category) then Some names
      else category_names_in rest category
  end.

Definition category_names (category : string) : option (list string) :=
  category_names_in category_mapping category.

(** What [get_rules_by_category] can raise: the [ValueError] for an unknown
    category, or the [KeyError] of [self._rules[name]]. *)
Inductive CategoryError : Type :=
  | UnknownCategory (category : string)
  | KeyError (name : string).

(** The list comprehension [[self._rules[name] for name in ...]], by name:
    the first name that is not a key raises. *)
Fixpoint lookup_all (keys : list string) (names : list string)
    : CategoryError + list string :=
  match names with
  | [] => inr []
  | n :: rest =>
      if decide (n ∈ keys) then
        match lookup_all keys rest with
        | inr found => inr (n :: found)
        | inl e => inl e
        end
      else inl (KeyError n)
  end.

(** [MathematicalRules.get_rules_by_category], giving the names of the
    rules it returns: a rule of the catalog has its key as its [name]. *)
Definition get_rules_by_category (self : RuleSystem) (category : string)
    : CategoryError + list string :=
  match category_names category with
  | None => inl (UnknownCategory category)
  | Some names => lookup_all (list_rule_names self) names
  end.

(** [RuleSystem.enable_category] *)
Definition enable_category (category : string) (self : RuleSystem)
    : (CategoryError + unit) * RuleSystem :=
  match get_rules_by_category self category with
  | inl e => (inl e, self)
  | inr names =>
      (inr (),
       MkRuleSystem (list_rule_names self)
         (foldl (λ active rule_name, active ∪ {[rule_name]})
            (active_rules self) names))
  end.

(** [RuleSystem.disable_category] *)
Definition disable_category (category : string) (self : RuleSystem)
    : (CategoryError + unit) * RuleSystem :=
  match get_rules_by_category self category with
  | inl e => (inl e, self)
  | inr names =>
      (inr (),
       MkRuleSystem (list_rule_names self)
         (foldl (λ active rule_name, active ∖ {[rule_name]})
            (active_rules self) names))
  end.

(** The rule systems that [RuleSystem()] and the four toggling methods can
    produce. *)
Inductive reachable : RuleSystem → Prop :=
  | reachable_new : reachable new_RuleSystem
  | reachable_enable_rule n self :
      reachable self → reachable (enable_rule n self).2
  | reachable_disable_rule n self :
      reachable self → reachable (disable_rule n self).2
  | reachable_enable_category c self :
      reachable self → reachable (enable_category c self).2
  | reachable_disable_category c self :
      reachable self → reachable (disable_category c self).2.

End Categories.
Export Categories.

(** ** Derivable facts *)

Module Derivation.

(** The facts that follow from the initial facts by the rules: an initial
    fact, or the conclusion of a rule under a substitution that makes every
    premise of the rule a fact that follows. *)
Inductive derivable (rules : list Rule) (initial_facts : list Fact)
    : Fact → Prop :=
  | derivable_initial f :
      f ∈ initial_facts → derivable rules initial_facts f
  | derivable_rule rule s :
      rule ∈ rules →
      (∀ p, p ∈ premises rule →
         derivable rules initial_facts (apply_to_fact s p)) →
      derivable rules initial_facts (apply_to_fact s (conclusion rule)).

(** The value a substitution gives to a variable name, the variable itself
    when the name is not bound. *)
Definition value_of (s : Substitution) (v : string) : Expression :=
  match get_mapping v s with
  | Some e => e
  | None => Variable_ v
  end.

(** Every binding of [m] is the value that [s] gives. *)
Definition agrees_with (s m : Substitution) : Prop :=
  ∀ v e, get_mapping v m = Some e → e = value_of s v.

(** How many of the steps applied a rule of the given name. *)
Definition applications (rule_name : string) (steps : list ProofStep) : nat :=
  length (filter (λ step, name (rule_applied step) = rule_name) steps).

(** The statistics count what the steps show. *)
Definition stats_match (s : Stats) (steps : list ProofStep) : Prop :=
  facts_derived s = length steps
  ∧ rules_applied s = length steps
  ∧ ∀ rule_name,
      default 0 (rule_applications s !! rule_name)
      = applications rule_name steps.

(** What a result that reports the goal looks like when the goal was not in
    the working set at the start: the goal is the fact of its last step, and
    the last of its facts. *)
Definition ends_with_goal (goal : Fact) (r : ProofResult) : Prop :=
  goal_achieved r = true →
  ∃ before step facts_before,
    steps r = before ++ [step] ∧ derived_fact step = goal
    ∧ final_facts r = facts_before ++ [goal] ∧ goal ∉ facts_before.

End Derivation.
Export Derivation.

(** ** The scenarios of the test suite *)

(** [test_simple_proof]: one step, [eq(x, 7 - 3)], which is not the goal
    [eq(x, 4)]. *)
Example scenario_subtraction :
  let r := prove (new_ForwardChainer 10 1000) Examples.clock
             (Examples.eq_ Examples.x (num 4))
             [Examples.eq_ (Operation Examples.x "+" (num 3)) (num 7)]
             [Examples.subtraction_property] in
  derived_fact <$> steps r
    = [Examples.eq_ Examples.x (Operation (num 7) "-" (num 3))]
  ∧ success r = true ∧ goal_achieved r = false.
Proof. vm_compute. done. Qed.

(** [test_transitivity_proof] *)
Example scenario_transitivity :
  let r := prove (new_ForwardChainer 10 1000) Examples.clock
             (Examples.eq_ Examples.a Examples.c)
             [Examples.eq_ Examples.a Examples.b;
              Examples.eq_ Examples.b Examples.c]
             [Examples.transitivity_xy_yz] in
  derived_fact <$> steps r = [Examples.eq_ Examples.a Examples.c]
  ∧ premises_used <$> steps r
    = [[Examples.eq_ Examples.a Examples.b; Examples.eq_ Examples.b Examples.c]]
  ∧ success r = true ∧ goal_achieved r = true ∧ iterations_used r = 1.
Proof. vm_compute. done. Qed.

(** [test_impossible_proof] *)
Example scenario_no_rules :
  let r := prove (new_ForwardChainer 5 1000) Examples.clock
             (Examples.eq_ Examples.x (num 10))
             [Examples.eq_ Examples.y (num 5)] [] in
  steps r = [] ∧ success r = true ∧ goal_achieved r = false
  ∧ iterations_used r = 1.
Proof. vm_compute. done. Qed.

(** [test_multi_step_proof] *)
Example scenario_two_steps :
  let r := prove (new_ForwardChainer 20 1000) Examples.clock
             (Examples.positive_ Examples.a)
             [Examples.eq_ Examples.a Examples.b]
             [Examples.rule1; Examples.rule2] in
  derived_fact <$> steps r
    = [Examples.gt_ Examples.a (num 0); Examples.positive_ Examples.a]
  ∧ success r = true ∧ goal_achieved r = true ∧ iterations_used r = 1.
Proof. vm_compute. done. Qed.

(** A fact limit of one, passed by the first derived fact. *)
Example scenario_fact_limit :
  let r := prove (new_ForwardChainer 100 1) Examples.clock
             (Examples.positive_ Examples.a)
             [Examples.eq_ Examples.a Examples.b;
              Examples.eq_ Examples.c Examples.d]
             [Examples.rule1] in
  derived_fact <$> steps r = [Examples.gt_ Examples.a (num 0)]
  ∧ success r = false ∧ goal_achieved r = false
  ∧ error_message r = Some "Too many facts generated (>1)".
Proof. vm_compute. done. Qed.

(** ** Construction-time validation *)

Lemma apply_to_expression_checked_ok s e :
  wf_expression e →
  apply_to_expression_checked s e = Ok (apply_to_expression s e).
Proof.
  induction e as [v|x|l IHl op r IHr]; simpl.
  - done.
  - intros _. by destruct (get_mapping x s).
  - intros (Hop & Hl & Hr). rewrite IHl, IHr by done. simpl.
    unfold new_Operation. by rewrite bool_decide_eq_true_2.
Qed.

Lemma apply_to_arguments_checked_ok s args :
  Forall wf_expression args →
  apply_to_arguments_checked s args = Ok (apply_to_expression s <$> args).
Proof.
  induction 1 as [|arg rest Harg _ IH]; simpl; [done|].
  by rewrite apply_to_expression_checked_ok, IH.
Qed.

Lemma apply_to_fact_checked_ok s f :
  wf_fact f → apply_to_fact_checked s f = Ok (apply_to_fact s f).
Proof.
  intros (Hp & Hn & Hargs). unfold apply_to_fact_checked.
  rewrite apply_to_arguments_checked_ok by done. simpl.
  unfold new_Fact. rewrite bool_decide_eq_true_2 by done. rewrite Hn.
  rewrite bool_decide_eq_false_2; [done|]. rewrite length_fmap. by intros ?.
Qed.

(** C9, counterexample: the operator [**] is not one of [+ - * / ^], and an
    [Operation] with it is constructed without error. *)
Lemma double_star_is_accepted :
  ("**" ∉ ["+"; "-"; "*"; "/"; "^"])
  ∧ new_Operation (num 2) "**" (num 3) = Ok (Operation (num 2) "**" (num 3)).
Proof.
  split; [|reflexivity].
  apply (bool_decide_eq_false_1 ("**" ∈ ["+"; "-"; "*"; "/"; "^"])).
  reflexivity.
Qed.

(** C9, as the code has it. Constructing an [Operation] raises exactly when
    the operator is outside [+ - * / ^ **]; constructing a [Fact] raises
    exactly when the predicate is outside the vocabulary or the number of
    arguments differs from the arity of the predicate. Inside the search the
    constructors are called by substitution only, and on well-formed
    expressions and facts these calls do not raise. *)
Theorem construction_validation :
  (∀ l op r,
     (∃ e, new_Operation l op r = Raise e)
     ↔ op ∉ ["+"; "-"; "*"; "/"; "^"; "**"])
  ∧ (∀ p args,
       (∃ e, new_Fact p args = Raise e)
       ↔ p ∉ ["eq"; "gt"; "lt"; "gte"; "lte"; "even"; "odd"; "prime";
              "positive"; "negative"; "divides"; "multiple"]
         ∨ (∃ n, _get_expected_arg_count p = Some n ∧ length args ≠ n))
  ∧ (∀ s e, wf_expression e →
       apply_to_expression_checked s e = Ok (apply_to_expression s e))
  ∧ (∀ s f, wf_fact f → apply_to_fact_checked s f = Ok (apply_to_fact s f)).
Proof.
  split_and!.
  - intros l op r. unfold new_Operation.
    change ["+"; "-"; "*"; "/"; "^"; "**"] with VALID_OPERATORS.
    case_bool_decide as Hop.
    + split; [by intros [e [=]]|done].
    + split; [done|]. intros _. by eexists.
  - intros p args. unfold new_Fact.
    change ["eq"; "gt"; "lt"; "gte"; "lte"; "even"; "odd"; "prime";
            "positive"; "negative"; "divides"; "multiple"]
      with VALID_PREDICATES.
    case_bool_decide as Hp.
    + destruct (_get_expected_arg_count p) as [n|] eqn:Hn.
      * case_bool_decide as Hlen.
        -- split; [|by eexists]. intros _. right. by exists n.
        -- split; [by intros [e [=]]|]. intros [?|(m & [= <-] & ?)]; done.
      * split; [|by eexists]. intros _. exfalso. revert Hn.
        unfold _get_expected_arg_count. repeat case_bool_decide; try done.
        intros _. revert Hp. unfold VALID_PREDICATES.
        rewrite !elem_of_cons in *. rewrite elem_of_nil in *. tauto.
    + split; [|by eexists]. intros _. by left.
  - apply apply_to_expression_checked_ok.
  - apply apply_to_fact_checked_ok.
Qed.

Lemma construction_validation_witness :
  apply_to_fact_checked [("X", Examples.a)] (conclusion Examples.rule1)
  = Ok (apply_to_fact [("X", Examples.a)] (conclusion Examples.rule1)).
Proof.
  refine (proj2 (proj2 (proj2 construction_validation)) _ _ _).
  split_and!.
  - apply (bool_decide_eq_true_1
             (predicate (conclusion Examples.rule1) ∈ VALID_PREDICATES)).
    reflexivity.
  - reflexivity.
  - repeat constructor.
Defined.

(** ** Matching a variable pattern *)

Lemma get_mapping_app variable s s' :
  get_mapping variable (s ++ s')
  = match get_mapping variable s with
    | Some e => Some e
    | None => get_mapping variable s'
    end.
Proof.
  induction s as [|[v e] s IH]; simpl; [done|]. by case_decide.
Qed.

(** Which names are pattern variables: the upper-case ones and the ones
    that begin with an underscore; a name in lower-case letters is not. *)
Lemma upper_case_is_pattern name :
  isupper name = true → is_pattern_variable name = true.
Proof. unfold is_pattern_variable. by intros ->. Qed.

Lemma underscore_is_pattern name :
  is_pattern_variable (String (Ascii.ascii_of_nat 95) name) = true.
Proof.
  unfold is_pattern_variable, startswith_underscore.
  rewrite bool_decide_eq_true_2 by done. apply orb_true_r.
Qed.

Lemma lower_case_is_ground c name :
  is_ascii_lower c = true → is_pattern_variable (String c name) = false.
Proof.
  intros Hc. unfold is_pattern_variable, isupper, startswith_underscore.
  cbn [String.list_ascii_of_string forallb]. rewrite Hc.
  cbn [negb andb]. rewrite andb_false_r. cbn [orb].
  apply bool_decide_eq_false_2.
  intros ->. vm_compute in Hc. discriminate Hc.
Qed.

(** C8. Matching a variable pattern against a target, under a substitution,
    for a pattern whose name has ASCII characters only, where the case test
    of the model is the test of the code. A pattern variable that is unbound
    gets bound to the target, the other bindings staying as they are; one
    that is bound matches exactly when its binding equals the target, and
    the substitution is returned as it is. A ground variable matches exactly
    when the target is the variable of the same name, and the substitution
    is returned as it is. *)
Theorem variable_matching pname target s :
  is_ascii pname = true →
  (is_pattern_variable pname = true →
     (get_mapping pname s = None →
        ∃ s', _match_expression_recursive (Variable_ pname) target s = Some s'
              ∧ get_mapping pname s' = Some target
              ∧ ∀ v, v ≠ pname → get_mapping v s' = get_mapping v s)
     ∧ (∀ bound, get_mapping pname s = Some bound →
          _match_expression_recursive (Variable_ pname) target s
          = if decide (bound = target) then Some s else None))
  ∧ (is_pattern_variable pname = false →
       _match_expression_recursive (Variable_ pname) target s
       = if decide (target = Variable_ pname) then Some s else None).
Proof.
  intros _. split.
  - intros Hpat. simpl. rewrite Hpat. split.
    + intros Hnone. rewrite Hnone. eexists. split; [done|]. split.
      * rewrite get_mapping_app, Hnone. simpl. by rewrite decide_True.
      * intros v Hv. rewrite get_mapping_app.
        destruct (get_mapping v s); [done|]. simpl. by rewrite decide_False.
    + intros bound Hbound. by rewrite Hbound.
  - intros Hground. simpl. rewrite Hground.
    destruct target as [tv|tname|tl top tr]; try by rewrite decide_False.
    destruct (decide (pname = tname)) as [->|Hne].
    + by rewrite decide_True.
    + rewrite decide_False; [done|]. by intros [= ->].
Qed.

Lemma variable_matching_witness :
  (∃ s', _match_expression_recursive Examples.X (num 5) [("Y", Examples.a)]
           = Some s'
         ∧ get_mapping "X" s' = Some (num 5)
         ∧ ∀ v, v ≠ "X" → get_mapping v s' = get_mapping v [("Y", Examples.a)])
  ∧ _match_expression_recursive Examples.X (num 5) [("X", Examples.a)]
    = (if decide (Examples.a = num 5) then Some [("X", Examples.a)] else None)
  ∧ _match_expression_recursive Examples.x (num 5) []
    = (if decide (num 5 = Variable_ "x") then Some [] else None).
Proof.
  split_and!.
  - refine (proj1 (proj1 (variable_matching "X" (num 5) [("Y", Examples.a)]
                            _) _) _); reflexivity.
  - refine (proj2 (proj1 (variable_matching "X" (num 5) [("X", Examples.a)]
                            _) _) Examples.a _); reflexivity.
  - refine (proj2 (variable_matching "x" (num 5) [] _) _); reflexivity.
Defined.

(** ** [match_facts_list] enumerates the valid assignments *)

Section ListLemmas.

Context {A B C : Type}.

Lemma filter_bind (P : B → Prop) `{∀ x, Decision (P x)}
    (f : A → list B) (l : list A) :
  filter P (l ≫= f) = l ≫= λ x, filter P (f x).
Proof.
  induction l as [|x l IH]; [done|].
  by rewrite !bind_cons, filter_app, IH.
Qed.

Lemma filter_fmap (P : B → Prop) `{∀ x, Decision (P x)}
    (f : A → B) (l : list A) :
  filter P (f <$> l) = f <$> filter (λ x, P (f x)) l.
Proof.
  induction l as [|x l IH]; [done|]. rewrite fmap_cons, !filter_cons.
  case_decide; by rewrite IH.
Qed.

Lemma bind_filter (P : A → Prop) `{∀ x, Decision (P x)}
    (f : A → list B) (l : list A) :
  filter P l ≫= f = l ≫= λ x, if decide (P x) then f x else [].
Proof.
  induction l as [|x l IH]; [done|]. rewrite filter_cons, !bind_cons.
  case_decide; by rewrite ?bind_cons, IH.
Qed.

Lemma omap_bind (g : B → option C) (f : A → list B) (l : list A) :
  omap g (l ≫= f) = l ≫= λ x, omap g (f x).
Proof.
  induction l as [|x l IH]; [done|]. by rewrite !bind_cons, omap_app, IH.
Qed.

Lemma omap_fmap (g : B → option C) (f : A → B) (l : list A) :
  omap g (f <$> l) = omap (λ x, g (f x)) l.
Proof.
  induction l as [|x l IH]; [done|]. rewrite fmap_cons. simpl.
  destruct (g (f x)); [f_equal|]; exact IH.
Qed.

Lemma omap_omap (g : B → option C) (f : A → option B) (l : list A) :
  omap g (omap f l) = omap (λ x, f x ≫= g) l.
Proof.
  induction l as [|x l IH]; [done|]. simpl.
  destruct (f x) as [y|]; simpl; [|exact IH].
  destruct (g y); [f_equal|]; exact IH.
Qed.

Lemma omap_None (l : list A) : omap (λ _, @None B) l = [].
Proof. by induction l. Qed.

Lemma omap_ext (f g : A → option B) (l : list A) :
  (∀ x, f x = g x) → omap f l = omap g l.
Proof.
  intros Hfg. apply list_omap_ext, Forall2_same_length_lookup.
  split; [done|]. intros i x y Hx Hy. rewrite Hx in Hy. injection Hy as <-.
  apply Hfg.
Qed.

End ListLemmas.

Lemma discard_bind {B : Type} (f : Fact → list B) target targets :
  discard target targets ≫= f
  = targets ≫= λ u, if decide (u ≠ target) then f u else [].
Proof. apply bind_filter. Qed.

(** Leaving a target out of the pool leaves out the sequences through it. *)
Lemma sequences_discard n target targets :
  sequences n (discard target targets)
  = filter (λ l, target ∉ l) (sequences n targets).
Proof.
  induction n as [|n IH]; simpl.
  - rewrite filter_cons_True; [done|]. apply not_elem_of_nil.
  - rewrite filter_bind, discard_bind.
    apply list_bind_ext; [|done]. intros u.
    rewrite filter_fmap, IH. case_decide as Hu.
    + f_equal. apply list_filter_iff. intros l.
      rewrite not_elem_of_cons. intuition congruence.
    + subst u.
      rewrite (list_filter_iff _ (λ _, False)); last first.
      { intros l. rewrite not_elem_of_cons. intuition congruence. }
      assert (Hnone : ∀ ls : list (list Fact), filter (λ _, False) ls = []).
      { induction ls as [|? ? IHl]; [done|].
        rewrite filter_cons_False; [exact IHl|tauto]. }
      by rewrite Hnone.
Qed.

(** The assignments to [S n] premises: a target for the first premise, then
    an assignment of the other targets to the [n] premises that remain. *)
Lemma assignments_S n targets :
  assignments (S n) targets
  = targets ≫= λ target,
      (target ::.) <$> assignments n (discard target targets).
Proof.
  unfold assignments. simpl. rewrite filter_bind.
  apply list_bind_ext; [|done]. intros t.
  rewrite filter_fmap, sequences_discard, list_filter_filter.
  f_equal. apply list_filter_iff. intros l. rewrite NoDup_cons. tauto.
Qed.

Lemma merge_nil_r (s : Substitution) : merge s [] = Some s.
Proof. done. Qed.

Lemma match_facts_list_uniform_eq patterns targets :
  match_facts_list patterns targets
  = match_facts_list_uniform patterns targets.
Proof.
  revert targets. induction patterns as [|p rest IH]; intros targets; [done|].
  destruct rest as [|q rest].
  - simpl. induction targets as [|t targets IHt]; [done|].
    rewrite bind_cons, <- IHt. simpl.
    by destruct (match_fact p t).
  - change (match_facts_list (p :: q :: rest) targets)
      with (targets ≫= λ target,
              match match_fact p target with
              | None => []
              | Some first_match =>
                  omap (merge first_match)
                    (match_facts_list (q :: rest) (discard target targets))
              end).
    change (match_facts_list_uniform (p :: q :: rest) targets)
      with (targets ≫= λ target,
              match match_fact p target with
              | None => []
              | Some first_match =>
                  omap (merge first_match)
                    (match_facts_list_uniform (q :: rest)
                       (discard target targets))
              end).
    apply list_bind_ext; [|done]. intros t.
    destruct (match_fact p t); [|done]. by rewrite IH.
Qed.

Lemma match_facts_list_uniform_spec patterns targets :
  match_facts_list_uniform patterns targets
  = match_facts_list_spec patterns targets.
Proof.
  revert targets. induction patterns as [|p rest IH]; intros targets.
  - unfold match_facts_list_spec, assignments.
    cbn [length sequences match_facts_list_uniform].
    rewrite filter_cons_True by constructor. done.
  - unfold match_facts_list_spec. simpl length. rewrite assignments_S.
    rewrite omap_bind. simpl. apply list_bind_ext; [|done]. intros t.
    rewrite omap_fmap. unfold assignment_substitution. simpl.
    destruct (match_fact p t) as [m|]; simpl.
    + rewrite IH. unfold match_facts_list_spec. rewrite omap_omap.
      apply omap_ext. intros asg.
      unfold assignment_substitution.
      by destruct (premise_matches rest asg).
    + by rewrite omap_None.
Qed.

Lemma elem_of_sequences n targets l :
  l ∈ sequences n targets ↔ length l = n ∧ Forall (λ t, t ∈ targets) l.
Proof.
  revert l. induction n as [|n IH]; intros l; simpl.
  - rewrite list_elem_of_singleton. split.
    + by intros ->.
    + intros [Hl _]. by apply nil_length_inv.
  - rewrite list_elem_of_bind. split.
    + intros (t & Hl & Ht). apply list_elem_of_fmap in Hl as (l' & -> & Hl').
      apply IH in Hl' as [<- Hall]. split; [done|]. by constructor.
    + intros [Hlen Hall]. destruct l as [|t l']; [done|].
      apply Forall_cons in Hall as [Ht Hall]. exists t. split; [|done].
      apply list_elem_of_fmap. exists l'. split; [done|]. apply IH.
      split; [|done]. simpl in Hlen. lia.
Qed.

Lemma elem_of_assignments n targets l :
  l ∈ assignments n targets
  ↔ length l = n ∧ NoDup l ∧ Forall (λ t, t ∈ targets) l.
Proof.
  unfold assignments. rewrite list_elem_of_filter, elem_of_sequences. tauto.
Qed.

(** The substitutions returned are those of the valid assignments. *)
Lemma elem_of_match_facts_list patterns targets s :
  s ∈ match_facts_list patterns targets
  ↔ ∃ assignment,
      length assignment = length patterns
      ∧ NoDup assignment
      ∧ Forall (λ t, t ∈ targets) assignment
      ∧ assignment_substitution patterns assignment = Some s.
Proof.
  rewrite match_facts_list_uniform_eq, match_facts_list_uniform_spec.
  unfold match_facts_list_spec. rewrite list_elem_of_omap. split.
  - intros (asg & Hasg & Hs). apply elem_of_assignments in Hasg.
    exists asg. tauto.
  - intros (asg & Hlen & Hnd & Hall & Hs). exists asg. split; [|done].
    by apply elem_of_assignments.
Qed.

(** A match stays a match when the pool of targets grows. *)
Lemma match_facts_list_mono patterns targets targets' s :
  (∀ t, t ∈ targets → t ∈ targets') →
  s ∈ match_facts_list patterns targets →
  s ∈ match_facts_list patterns targets'.
Proof.
  intros Hsub. rewrite !elem_of_match_facts_list.
  intros (asg & Hlen & Hnd & Hall & Hs). exists asg. split_and!; try done.
  eapply Forall_impl; [exact Hall|]. auto.
Qed.


(** ** A match instantiates the premises to facts of the pool *)

Lemma get_mapping_elem v e (s : Substitution) :
  get_mapping v s = Some e → (v, e) ∈ s.
Proof.
  induction s as [|[v' e'] s IH]; simpl; [done|].
  case_decide as Hv.
  - intros [= ->]. subst v'. apply list_elem_of_here.
  - intros H. apply list_elem_of_further. auto.
Qed.

Lemma extends_refl s : extends s s.
Proof. by intros v e. Qed.

Lemma extends_trans s1 s2 s3 : extends s1 s2 → extends s2 s3 → extends s1 s3.
Proof. intros H12 H23 v e H. auto. Qed.

Lemma extends_app s s' : extends s (s ++ s').
Proof. intros v e H. by rewrite get_mapping_app, H. Qed.

Lemma pattern_keys_nil : pattern_keys [].
Proof. intros v e H. by apply elem_of_nil in H. Qed.

Lemma pattern_keys_snoc s v e :
  pattern_keys s → is_pattern_variable v = true → pattern_keys (s ++ [(v, e)]).
Proof.
  intros Hs Hv v' e' [H|H]%elem_of_app; [by eapply Hs|].
  apply list_elem_of_singleton in H. by injection H as -> ->.
Qed.

Lemma instantiates_extends s s' p t :
  extends s s' → instantiates s p t → instantiates s' p t.
Proof. intros Hext Hp s'' Hext' Hk. apply Hp; [|done]. by eapply extends_trans. Qed.

Lemma instantiates_fact_extends s s' p t :
  extends s s' → instantiates_fact s p t → instantiates_fact s' p t.
Proof. intros Hext Hp s'' Hext' Hk. apply Hp; [|done]. by eapply extends_trans. Qed.

Lemma add_mapping_spec v e r r' :
  add_mapping v e r = Some r' →
  extends r r' ∧ get_mapping v r' = Some e
  ∧ (pattern_keys r → is_pattern_variable v = true → pattern_keys r').
Proof.
  unfold add_mapping. destruct (get_mapping v r) as [bound|] eqn:Hv.
  - case_decide as Hb; [|done]. intros [= <-]. subst bound.
    split_and!; [apply extends_refl|done|auto].
  - intros [= <-]. split_and!.
    + apply extends_app.
    + rewrite get_mapping_app, Hv. simpl. by rewrite decide_True.
    + apply pattern_keys_snoc.
Qed.

Lemma merge_items_spec items r r' :
  merge_items r items = Some r' →
  extends r r'
  ∧ (∀ v e, (v, e) ∈ items → get_mapping v r' = Some e)
  ∧ (pattern_keys r → pattern_keys items → pattern_keys r').
Proof.
  revert r. induction items as [|[v e] items IH]; intros r; simpl.
  - intros [= <-]. split_and!; [apply extends_refl| |done].
    intros v e H. by apply elem_of_nil in H.
  - destruct (add_mapping v e r) as [r1|] eqn:Hadd; [|done]. intros Hrest.
    apply add_mapping_spec in Hadd as (Hext1 & Hget1 & Hk1).
    apply IH in Hrest as (Hext & Hget & Hk). split_and!.
    + by eapply extends_trans.
    + intros v' e' [H|H]%elem_of_cons; [|auto].
      injection H as -> ->. auto.
    + intros Hr Hitems. apply Hk.
      * apply Hk1; [done|]. eapply Hitems, list_elem_of_here.
      * intros v' e' H. eapply Hitems, list_elem_of_further, H.
Qed.

Lemma merge_spec a b c :
  merge a b = Some c →
  extends a c ∧ extends b c ∧ (pattern_keys a → pattern_keys b → pattern_keys c).
Proof.
  intros (Hext & Hget & Hk)%merge_items_spec. split_and!; [done| |done].
  intros v e H. by apply Hget, get_mapping_elem.
Qed.

Lemma match_expression_recursive_sound p t s s' :
  _match_expression_recursive p t s = Some s' →
  pattern_keys s →
  pattern_keys s' ∧ extends s s' ∧ instantiates s' p t.
Proof.
  revert t s s'. induction p as [pv|pname|pl IHl pop pr IHr]; intros t s s'.
  - simpl. destruct t as [tv| |]; try done.
    case_decide as Hv; [|done]. intros [= <-] Hk. subst tv.
    split_and!; [done|apply extends_refl|]. by intros s'' _ _.
  - simpl. destruct (is_pattern_variable pname) eqn:Hpat.
    + destruct (get_mapping pname s) as [bound|] eqn:Hb.
      * case_decide as Hbt; [|done]. intros [= <-] Hk. subst bound.
        split_and!; [done|apply extends_refl|].
        intros s'' Hext _. simpl. by rewrite (Hext _ _ Hb).
      * intros [= <-] Hk. split_and!.
        -- by apply pattern_keys_snoc.
        -- apply extends_app.
        -- intros s'' Hext _. simpl.
           rewrite (Hext pname t); [done|].
           rewrite get_mapping_app, Hb. simpl. by rewrite decide_True.
    + destruct t as [|tname|]; try done.
      case_decide as Hn; [|done]. intros [= <-] Hk. subst tname.
      split_and!; [done|apply extends_refl|].
      intros s'' _ Hk''. simpl.
      destruct (get_mapping pname s'') as [e|] eqn:He; [|done].
      apply get_mapping_elem, Hk'' in He. congruence.
  - simpl. destruct t as [| |tl top tr]; try done.
    case_decide as Hop; [done|]. subst top.
    destruct (_match_expression_recursive pl tl s) as [s1|] eqn:Hl; [|done].
    intros Hr Hk.
    apply IHl in Hl as (Hk1 & Hext1 & Hinst1); [|done].
    apply IHr in Hr as (Hk2 & Hext2 & Hinst2); [|done].
    split_and!; [done|by eapply extends_trans|].
    intros s'' Hext Hk''. simpl. f_equal.
    + apply Hinst1; [|done]. by eapply extends_trans.
    + by apply Hinst2.
Qed.

Lemma match_arguments_sound pargs targs s s' :
  length pargs = length targs →
  match_arguments pargs targs s = Some s' →
  pattern_keys s →
  pattern_keys s' ∧ extends s s' ∧ Forall2 (instantiates s') pargs targs.
Proof.
  revert targs s. induction pargs as [|p pargs IH]; intros [|t targs] s;
    simpl; try done.
  - intros _ [= <-] Hk. split_and!; [done|apply extends_refl|constructor].
  - intros [= Hlen].
    destruct (match_expression p t) as [m|] eqn:Hm; [|done].
    destruct (merge s m) as [merged|] eqn:Hmerge; [|done].
    intros Hrest Hk.
    apply match_expression_recursive_sound in Hm as (Hkm & _ & Hinst);
      [|apply pattern_keys_nil].
    apply merge_spec in Hmerge as (Hext_s & Hext_m & Hkmerged).
    apply IH in Hrest as (Hk' & Hext' & Hall); [|done|by apply Hkmerged].
    split_and!; [done|by eapply extends_trans|].
    constructor; [|done].
    apply (instantiates_extends m s' p t); [|done].
    by apply (extends_trans m merged s').
Qed.

Lemma match_fact_sound p t m :
  match_fact p t = Some m → pattern_keys m ∧ instantiates_fact m p t.
Proof.
  unfold match_fact. case_decide as Hp; [done|].
  case_decide as Hlen; [done|]. intros Hm.
  apply match_arguments_sound in Hm as (Hk & _ & Hall);
    [|done|apply pattern_keys_nil].
  split; [done|]. intros s' Hext Hk'. unfold apply_to_fact.
  destruct t as [tp targs]. simpl in *. f_equal; [done|].
  clear Hlen. induction Hall as [|pa ta pargs targs Hpa _ IH]; [done|].
  rewrite fmap_cons. f_equal; [by apply Hpa|apply IH].
Qed.

Lemma elem_of_discard t target targets :
  t ∈ discard target targets ↔ t ≠ target ∧ t ∈ targets.
Proof. unfold discard. by rewrite list_elem_of_filter. Qed.

Lemma match_facts_list_uniform_sound patterns targets s :
  s ∈ match_facts_list_uniform patterns targets →
  pattern_keys s
  ∧ Forall (λ p, ∃ t, t ∈ targets ∧ instantiates_fact s p t) patterns.
Proof.
  revert targets s. induction patterns as [|p rest IH]; intros targets s; simpl.
  - intros ->%list_elem_of_singleton. split; [apply pattern_keys_nil|done].
  - intros (t & Hs & Ht)%list_elem_of_bind.
    destruct (match_fact p t) as [m|] eqn:Hm; [|by apply elem_of_nil in Hs].
    apply list_elem_of_omap in Hs as (r & Hr & Hmerge).
    apply match_fact_sound in Hm as (Hkm & Hinst).
    apply IH in Hr as (Hkr & Hall).
    apply merge_spec in Hmerge as (Hext_m & Hext_r & Hk).
    split; [by apply Hk|]. constructor.
    + exists t. split; [done|].
      exact (instantiates_fact_extends m s p t Hext_m Hinst).
    + eapply Forall_impl; [exact Hall|]. intros q (t' & Ht' & Hq).
      exists t'. split; [by apply elem_of_discard in Ht' as [_ ?]|].
      exact (instantiates_fact_extends r s q t' Hext_r Hq).
Qed.

(** *** Merging succeeds exactly when there is no conflict *)

Lemma get_mapping_None v (s : Substitution) :
  get_mapping v s = None ↔ v ∉ s.*1.
Proof.
  induction s as [|[v' e'] s IH]; simpl.
  - split; [intros _; apply not_elem_of_nil|done].
  - rewrite not_elem_of_cons. case_decide as Hv.
    + split; [done|]. by intros [? _].
    + rewrite IH. split; [|by intros [_ ?]]. intros ?. split; [|done].
      by intros ->.
Qed.

Lemma get_mapping_of_elem v e (s : Substitution) :
  unique_keys s → (v, e) ∈ s → get_mapping v s = Some e.
Proof.
  unfold unique_keys. induction s as [|[v' e'] s IH]; simpl.
  - intros _ H. by apply elem_of_nil in H.
  - intros [Hv' Hnd]%NoDup_cons [H|H]%elem_of_cons.
    + injection H as <- <-. by rewrite decide_True.
    + rewrite decide_False; [by apply IH|]. intros ->. apply Hv'.
      apply list_elem_of_fmap. by exists (v, e).
Qed.

Lemma add_mapping_unique v e r r' :
  add_mapping v e r = Some r' → unique_keys r → unique_keys r'.
Proof.
  unfold add_mapping, unique_keys.
  destruct (get_mapping v r) as [bound|] eqn:Hv.
  - case_decide; [|done]. by intros [= <-].
  - intros [= <-] Hnd. rewrite fmap_app. simpl. apply NoDup_app.
    split_and!; [done| |apply NoDup_singleton].
    intros k Hk ->%list_elem_of_singleton. by apply get_mapping_None in Hv.
Qed.

Lemma add_mapping_origin v e r r' w ew :
  add_mapping v e r = Some r' → get_mapping w r' = Some ew →
  get_mapping w r = Some ew ∨ (w = v ∧ ew = e).
Proof.
  unfold add_mapping. destruct (get_mapping v r) as [bound|] eqn:Hv.
  - case_decide; [|done]. intros [= <-]. auto.
  - intros [= <-]. rewrite get_mapping_app.
    destruct (get_mapping w r); [auto|]. simpl.
    case_decide; [|done]. intros [= <-]. auto.
Qed.

Lemma merge_items_unique items r r' :
  merge_items r items = Some r' → unique_keys r → unique_keys r'.
Proof.
  revert r. induction items as [|[v e] items IH]; intros r; simpl.
  - by intros [= <-].
  - destruct (add_mapping v e r) as [r1|] eqn:Hadd; [|done].
    intros Hrest Hr. eapply IH; [done|]. by eapply add_mapping_unique.
Qed.

Lemma merge_items_origin items r r' w ew :
  merge_items r items = Some r' → get_mapping w r' = Some ew →
  get_mapping w r = Some ew ∨ (w, ew) ∈ items.
Proof.
  revert r. induction items as [|[v e] items IH]; intros r; simpl.
  - intros [= <-]. auto.
  - destruct (add_mapping v e r) as [r1|] eqn:Hadd; [|done].
    intros Hrest Hw. destruct (IH _ Hrest Hw) as [H1|Hin].
    + destruct (add_mapping_origin _ _ _ _ _ _ Hadd H1) as [?|[-> ->]];
        [auto|]. right. apply list_elem_of_here.
    + right. by apply list_elem_of_further.
Qed.

Lemma merge_items_None items r :
  unique_keys items → merge_items r items = None →
  ∃ v er ei, get_mapping v r = Some er ∧ (v, ei) ∈ items ∧ er ≠ ei.
Proof.
  unfold unique_keys. revert r.
  induction items as [|[v e] items IH]; intros r; simpl; [done|].
  intros [Hv Hnd]%NoDup_cons.
  destruct (add_mapping v e r) as [r1|] eqn:Hadd.
  - intros Hrest. destruct (IH r1 Hnd Hrest) as (w & er & ei & Hw & Hin & Hne).
    exists w, er, ei. split_and!; [|by apply list_elem_of_further|done].
    destruct (add_mapping_origin _ _ _ _ _ _ Hadd Hw) as [?|[-> ->]]; [done|].
    exfalso. apply Hv. apply list_elem_of_fmap. by exists (v, ei).
  - intros _. unfold add_mapping in Hadd.
    destruct (get_mapping v r) as [bound|] eqn:Hb; [|done].
    case_decide; [done|]. exists v, bound, e.
    split_and!; [done|apply list_elem_of_here|done].
Qed.

Lemma merge_unique a b c : merge a b = Some c → unique_keys a → unique_keys c.
Proof. apply merge_items_unique. Qed.

Lemma merge_origin a b c v e :
  unique_keys b → merge a b = Some c → get_mapping v c = Some e →
  get_mapping v a = Some e ∨ get_mapping v b = Some e.
Proof.
  intros Hb Hm Hv. destruct (merge_items_origin _ _ _ _ _ Hm Hv); [auto|].
  right. by apply get_mapping_of_elem.
Qed.

(** A merge fails only on a conflict, and never on anything else. *)
Lemma merge_is_Some a b :
  unique_keys b → is_Some (merge a b) ↔ ¬ conflict a b.
Proof.
  intros Hb. split.
  - intros [c Hc] (v & ea & eb & Ha & Hvb & Hne).
    apply merge_spec in Hc as (Hexta & Hextb & _).
    apply Hexta in Ha. apply Hextb in Hvb. congruence.
  - intros Hno. destruct (merge a b) as [c|] eqn:Hm; [by eexists|].
    exfalso. apply Hno.
    apply merge_items_None in Hm as (v & er & ei & Hr & Hin & Hne); [|done].
    exists v, er, ei. split_and!; [done| |done].
    by apply get_mapping_of_elem.
Qed.

Lemma merge_all_unique ms c :
  Forall unique_keys ms → merge_all ms = Some c → unique_keys c.
Proof.
  revert c. induction ms as [|m ms IH]; intros c; simpl.
  - intros _ [= <-]. apply NoDup_nil_2.
  - intros [Hm Hms]%Forall_cons.
    destruct (merge_all ms) as [r|]; [|done]. simpl. intros Hc.
    by eapply merge_unique.
Qed.

(** The merge of all the matches binds what one of them binds. *)
Lemma merge_all_lookup ms c v e :
  Forall unique_keys ms → merge_all ms = Some c →
  get_mapping v c = Some e ↔ ∃ m, m ∈ ms ∧ get_mapping v m = Some e.
Proof.
  revert c. induction ms as [|m ms IH]; intros c; simpl.
  - intros _ [= <-]. simpl. split; [done|].
    intros (m & Hm & _). by apply elem_of_nil in Hm.
  - intros [Hm Hms]%Forall_cons.
    destruct (merge_all ms) as [r|] eqn:Hr; [|done]. simpl. intros Hc.
    pose proof (merge_all_unique ms r Hms Hr) as Hur.
    specialize (IH r Hms eq_refl). split.
    + intros Hv. destruct (merge_origin _ _ _ _ _ Hur Hc Hv) as [H|H].
      * exists m. split; [apply list_elem_of_here|done].
      * apply IH in H as (m' & Hm' & Hv'). exists m'.
        split; [by apply list_elem_of_further|done].
    + apply merge_spec in Hc as (Hexta & Hextb & _).
      intros (m' & [->|Hm']%elem_of_cons & Hv'); [by apply Hexta|].
      apply Hextb, IH. eauto.
Qed.

(** The matches merge exactly when no two of them conflict. *)
Lemma merge_all_is_Some ms :
  Forall unique_keys ms → is_Some (merge_all ms) ↔ consistent ms.
Proof.
  induction ms as [|m ms IH]; simpl.
  - intros _. split; [|by eexists]. intros _ m1 m2 H. by apply elem_of_nil in H.
  - intros [Hm Hms]%Forall_cons. specialize (IH Hms).
    destruct (merge_all ms) as [r|] eqn:Hr; simpl.
    + pose proof (merge_all_unique ms r Hms Hr) as Hur.
      rewrite (merge_is_Some m r Hur). split.
      * intros Hno m1 m2 [->|H1]%elem_of_cons [->|H2]%elem_of_cons.
        -- intros (v & e1 & e2 & H1 & H2 & Hne). congruence.
        -- intros (v & e1 & e2 & H1 & H2' & Hne). apply Hno.
           exists v, e1, e2. split_and!; [done| |done].
           apply (merge_all_lookup ms r v e2 Hms Hr). eauto.
        -- intros (v & e1 & e2 & H1' & H2 & Hne). apply Hno.
           exists v, e2, e1. split_and!; [done| |done].
           apply (merge_all_lookup ms r v e1 Hms Hr). eauto.
        -- apply IH; [by eexists|done..].
      * intros Hcons (v & e1 & e2 & H1 & H2 & Hne).
        apply (merge_all_lookup ms r v e2 Hms Hr) in H2 as (m' & Hm' & H2).
        apply (Hcons m m'); [apply list_elem_of_here
                            |by apply list_elem_of_further|].
        by exists v, e1, e2.
    + split; [by intros [? ?]|]. intros Hcons. exfalso.
      assert (Hsome : is_Some (@None Substitution)); [|by destruct Hsome].
      apply IH. intros m1 m2 H1 H2.
      apply Hcons; by apply list_elem_of_further.
Qed.

Lemma match_expression_recursive_unique p t s s' :
  _match_expression_recursive p t s = Some s' → unique_keys s → unique_keys s'.
Proof.
  revert t s s'. induction p as [pv|pname|pl IHl pop pr IHr]; intros t s s';
    simpl.
  - destruct t; try done. case_decide; [|done]. by intros [= <-].
  - destruct (is_pattern_variable pname).
    + destruct (get_mapping pname s) as [bound|] eqn:Hb.
      * case_decide; [|done]. by intros [= <-].
      * intros [= <-] Hs. apply (add_mapping_unique pname t s); [|done].
        unfold add_mapping. by rewrite Hb.
    + destruct t; try done. case_decide; [|done]. by intros [= <-].
  - destruct t as [| |tl top tr]; try done. case_decide; [done|].
    destruct (_match_expression_recursive pl tl s) as [s1|] eqn:Hl; [|done].
    intros Hr Hs. eapply IHr; [done|]. by eapply IHl.
Qed.

Lemma match_arguments_unique pargs targs s s' :
  match_arguments pargs targs s = Some s' → unique_keys s → unique_keys s'.
Proof.
  revert targs s. induction pargs as [|p pargs IH]; intros [|t targs] s;
    simpl; try by intros [= <-].
  destruct (match_expression p t) as [m|]; [|done].
  destruct (merge s m) as [merged|] eqn:Hmerge; [|done].
  intros Hrest Hs. eapply IH; [done|]. by eapply merge_unique.
Qed.

Lemma match_fact_unique p t m : match_fact p t = Some m → unique_keys m.
Proof.
  unfold match_fact. repeat case_decide; try done. intros Hm.
  eapply match_arguments_unique; [done|]. apply NoDup_nil_2.
Qed.

Lemma premise_matches_unique patterns assignment ms :
  premise_matches patterns assignment = Some ms → Forall unique_keys ms.
Proof.
  revert assignment ms.
  induction patterns as [|p patterns IH]; intros [|t assignment] ms; simpl;
    try by intros [= <-].
  destruct (match_fact p t) as [m|] eqn:Hm; [|done]. simpl.
  destruct (premise_matches patterns assignment) as [ms'|] eqn:Hms; [|done].
  simpl. intros [= <-]. constructor; [by eapply match_fact_unique|by eapply IH].
Qed.

(** An assignment gives a substitution exactly when every premise matches
    its target and no two of the matches conflict. *)
Lemma assignment_substitution_is_Some patterns assignment :
  is_Some (assignment_substitution patterns assignment)
  ↔ ∃ ms, premise_matches patterns assignment = Some ms ∧ consistent ms.
Proof.
  unfold assignment_substitution.
  destruct (premise_matches patterns assignment) as [ms|] eqn:Hms; simpl.
  - rewrite merge_all_is_Some by (by eapply premise_matches_unique).
    split; [by exists ms|]. by intros (? & [= <-] & ?).
  - split; [by intros [? ?]|]. by intros (? & ? & _).
Qed.

(** *** The enumeration, in full *)

(** With the order of insertion for every set, [match_facts_list] returns the
    substitutions of the valid assignments in the order in which
    [match_facts_list_spec] lists them. *)
Lemma match_facts_list_in_insertion_order patterns targets :
  match_facts_list patterns targets = match_facts_list_spec patterns targets.
Proof.
  by rewrite match_facts_list_uniform_eq, match_facts_list_uniform_spec.
Qed.

(** *** The enumeration under an iteration order *)

Lemma bind_Permutation_pointwise {A B : Type} (f g : A → list B) (l : list A) :
  (∀ x, f x ≡ₚ g x) → l ≫= f ≡ₚ l ≫= g.
Proof.
  intros Hfg. induction l as [|x l IH]; [done|].
  by rewrite !bind_cons, IH, Hfg.
Qed.

Lemma omap_Permutation {A B : Type} (f : A → option B) (l l' : list A) :
  l ≡ₚ l' → omap f l ≡ₚ omap f l'.
Proof.
  induction 1 as [|x l l' _ IH|x y l|l l' l'' _ IH1 _ IH2]; simpl.
  - done.
  - destruct (f x); [by constructor|done].
  - destruct (f x), (f y); try done. apply perm_swap.
  - by etrans.
Qed.

Lemma discard_subseteq target targets : discard target targets ⊆ targets.
Proof. intros t Ht. by apply elem_of_discard in Ht as [_ ?]. Qed.

Section OrderedMatcher.

Context (order : list Fact → list Fact).

(** The single-premise case of [match_facts_list] is the general case with
    no premise left. *)
Lemma ordered_match_facts_list_cons p rest targets :
  Ordered.match_facts_list order (p :: rest) targets
  = order targets ≫= λ target,
      match match_fact p target with
      | None => []
      | Some first_match =>
          omap (merge first_match)
            (Ordered.match_facts_list order rest (discard target targets))
      end.
Proof.
  destruct rest as [|q rest]; [|done]. simpl.
  induction (order targets) as [|t ts IHt]; [done|].
  rewrite bind_cons, <- IHt. simpl. by destruct (match_fact p t).
Qed.

Lemma ordered_match_facts_list_spec patterns targets :
  Ordered.match_facts_list order patterns targets
  = Ordered.match_facts_list_spec order patterns targets.
Proof.
  revert targets. induction patterns as [|p rest IH]; intros targets; [done|].
  rewrite ordered_match_facts_list_cons. unfold Ordered.match_facts_list_spec.
  cbn [length Ordered.assignments_in_order].
  rewrite omap_bind. apply list_bind_ext; [|done]. intros t.
  rewrite omap_fmap. unfold assignment_substitution. simpl.
  destruct (match_fact p t) as [m|]; simpl.
  - rewrite IH. unfold Ordered.match_facts_list_spec. rewrite omap_omap.
    apply omap_ext. intros asg. unfold assignment_substitution.
    by destruct (premise_matches rest asg).
  - by rewrite omap_None.
Qed.

Context (Horder : Ordered.iteration_order order).

(** Whatever the iteration orders, the assignments gone through are the
    sequences of pairwise-distinct targets, each once. *)
Lemma assignments_in_order_Permutation n targets :
  Ordered.assignments_in_order order n targets ≡ₚ assignments n targets.
Proof.
  revert targets. induction n as [|n IH]; intros targets.
  - unfold assignments. simpl. by rewrite filter_cons_True by constructor.
  - rewrite assignments_S. cbn [Ordered.assignments_in_order].
    rewrite (Horder targets). apply bind_Permutation_pointwise.
    intros t. by rewrite IH.
Qed.

Lemma ordered_match_facts_list_Permutation patterns targets :
  Ordered.match_facts_list order patterns targets
  ≡ₚ match_facts_list patterns targets.
Proof.
  rewrite ordered_match_facts_list_spec, match_facts_list_uniform_eq,
    match_facts_list_uniform_spec.
  apply omap_Permutation, assignments_in_order_Permutation.
Qed.

Lemma elem_of_ordered_match_facts_list patterns targets s :
  s ∈ Ordered.match_facts_list order patterns targets
  ↔ ∃ assignment,
      length assignment = length patterns
      ∧ NoDup assignment
      ∧ Forall (λ t, t ∈ targets) assignment
      ∧ assignment_substitution patterns assignment = Some s.
Proof.
  rewrite ordered_match_facts_list_Permutation.
  apply elem_of_match_facts_list.
Qed.

End OrderedMatcher.

(** With the order of insertion, the matcher is the matcher of [Matching]. *)
Lemma insertion_order_match_facts_list patterns targets :
  Ordered.match_facts_list Ordered.insertion_order patterns targets
  = match_facts_list patterns targets.
Proof. reflexivity. Qed.

(** C7. Whatever the order in which each set of targets is iterated,
    [match_facts_list] returns one substitution for each assignment of
    pairwise-distinct targets to the premises whose per-premise matches
    exist and merge, and nothing else. The substitutions come in the order
    of the nested loops over the premises: the target of the first premise
    varies slowest, and each pool of remaining targets is gone through in
    its own iteration order; the assignments gone through are, in some
    order, the sequences of pairwise-distinct targets. The matches of an
    assignment merge exactly when no two of them bind a variable to
    different expressions. *)
Theorem match_facts_list_enumerates order patterns targets :
  Ordered.iteration_order order →
  Ordered.match_facts_list order patterns targets
  = omap (assignment_substitution patterns)
      (Ordered.assignments_in_order order (length patterns) targets)
  ∧ Ordered.assignments_in_order order (length patterns) targets
    ≡ₚ filter NoDup (sequences (length patterns) targets)
  ∧ (∀ s, s ∈ Ordered.match_facts_list order patterns targets
          ↔ ∃ assignment,
              length assignment = length patterns
              ∧ NoDup assignment
              ∧ Forall (λ t, t ∈ targets) assignment
              ∧ assignment_substitution patterns assignment = Some s)
  ∧ (∀ assignment,
       is_Some (assignment_substitution patterns assignment)
       ↔ ∃ ms, premise_matches patterns assignment = Some ms ∧ consistent ms).
Proof.
  intros Horder. split_and!.
  - apply ordered_match_facts_list_spec.
  - by apply assignments_in_order_Permutation.
  - intros s. by apply elem_of_ordered_match_facts_list.
  - apply assignment_substitution_is_Some.
Qed.

Lemma match_facts_list_enumerates_witness :
  [("X", Examples.a); ("Y", Examples.b); ("Z", Examples.c)]
    ∈ Ordered.match_facts_list Ordered.newest_first
        (premises Examples.transitivity_xy_yz)
        [Examples.eq_ Examples.b Examples.c;
         Examples.eq_ Examples.a Examples.b].
Proof.
  refine (proj2 (proj1 (proj2 (proj2
            (match_facts_list_enumerates Ordered.newest_first _ _ _))) _) _).
  - intros facts. apply reverse_Permutation.
  - exists [Examples.eq_ Examples.a Examples.b;
            Examples.eq_ Examples.b Examples.c].
    split_and!.
    + reflexivity.
    + apply (bool_decide_eq_true_1 (NoDup _)). reflexivity.
    + apply (bool_decide_eq_true_1 (Forall _ _)). reflexivity.
    + reflexivity.
Defined.

(** Every premise, under a match, is a fact of the pool. *)
Lemma find_rule_matches_premises rule_premises available_facts s :
  s ∈ find_rule_matches rule_premises available_facts →
  Forall (λ p, apply_to_fact s p ∈ available_facts) rule_premises.
Proof.
  unfold find_rule_matches. rewrite match_facts_list_uniform_eq.
  intros (Hk & Hall)%match_facts_list_uniform_sound.
  eapply Forall_impl; [exact Hall|]. intros p (t & Ht & Hp).
  rewrite (Hp s); [done|apply extends_refl|done].
Qed.

(** What [apply_rule] returns: conclusions of matches, not yet known. *)
Lemma elem_of_apply_rule rule available_facts new_fact :
  new_fact ∈ apply_rule rule available_facts →
  (new_fact ∉ available_facts)
  ∧ (∃ s, s ∈ find_rule_matches (premises rule) available_facts
          ∧ apply_to_fact s (conclusion rule) = new_fact).
Proof.
  unfold apply_rule. rewrite list_elem_of_filter, list_elem_of_fmap.
  intros (Hnew & s & -> & Hs). eauto.
Qed.

(** ** Toggling rules *)

Lemma new_RuleSystem_active_in_catalog : active_in_catalog new_RuleSystem.
Proof.
  intros n Hn. unfold new_RuleSystem in *.
  cbn [active_rules list_rule_names] in *. by apply elem_of_list_to_set in Hn.
Qed.

Lemma enable_rule_active_in_catalog rule_name self :
  active_in_catalog self → active_in_catalog (enable_rule rule_name self).2.
Proof.
  intros Hinv n. unfold enable_rule. case_decide as Hn; simpl; [apply Hinv|].
  rewrite elem_of_union, elem_of_singleton. intros [?| ->]; [by apply Hinv|].
  done.
Qed.

Lemma disable_rule_active_in_catalog rule_name self :
  active_in_catalog self → active_in_catalog (disable_rule rule_name self).2.
Proof.
  intros Hinv n. simpl. rewrite elem_of_difference. intros [? _]. by apply Hinv.
Qed.

(** C10. Asymmetry of toggling. For a name that is not in the catalog,
    [enable_rule] raises and leaves the rule system as it was, while
    [disable_rule] returns normally and changes nothing. For a name of the
    catalog, [enable_rule] returns normally with the name active,
    [disable_rule] returns normally with the name inactive, and both leave
    the status of every other name as it was. *)
Theorem toggling_asymmetry rule_name self :
  active_in_catalog self →
  (rule_name ∉ list_rule_names self →
     enable_rule rule_name self = (Raise (UnknownRule rule_name), self)
     ∧ disable_rule rule_name self = (Ok (), self))
  ∧ (rule_name ∈ list_rule_names self →
       (enable_rule rule_name self).1 = Ok ()
       ∧ is_rule_active rule_name (enable_rule rule_name self).2 = true
       ∧ (disable_rule rule_name self).1 = Ok ()
       ∧ is_rule_active rule_name (disable_rule rule_name self).2 = false
       ∧ ∀ other, other ≠ rule_name →
           is_rule_active other (enable_rule rule_name self).2
             = is_rule_active other self
           ∧ is_rule_active other (disable_rule rule_name self).2
             = is_rule_active other self).
Proof.
  intros Hinv. split.
  - intros Hunknown. split.
    + unfold enable_rule. by rewrite decide_True.
    + unfold disable_rule. f_equal. destruct self as [names active]. f_equal.
      simpl in *. apply set_eq. intros n.
      rewrite elem_of_difference, elem_of_singleton.
      split; [by intros [? _]|]. intros Hn. split; [done|].
      intros ->. apply Hunknown. by apply Hinv.
  - intros Hknown. unfold enable_rule, is_rule_active.
    rewrite decide_False by (by intros ?). simpl. split_and!.
    + done.
    + apply bool_decide_eq_true, elem_of_union. right.
      by apply elem_of_singleton.
    + done.
    + apply bool_decide_eq_false. rewrite elem_of_difference, elem_of_singleton.
      by intros [_ ?].
    + intros other Hne. split; apply bool_decide_ext.
      * rewrite elem_of_union, elem_of_singleton. tauto.
      * rewrite elem_of_difference, elem_of_singleton. tauto.
Qed.

Lemma toggling_asymmetry_witness :
  (enable_rule "nonexistent_rule" new_RuleSystem
     = (Raise (UnknownRule "nonexistent_rule"), new_RuleSystem)
   ∧ disable_rule "nonexistent_rule" new_RuleSystem = (Ok (), new_RuleSystem))
  ∧ is_rule_active "subtraction_property"
      (disable_rule "subtraction_property" new_RuleSystem).2 = false.
Proof.
  split.
  - refine (proj1 (toggling_asymmetry "nonexistent_rule" new_RuleSystem
                     new_RuleSystem_active_in_catalog) _).
    apply (bool_decide_eq_false_1
             ("nonexistent_rule" ∈ list_rule_names new_RuleSystem)).
    vm_compute. reflexivity.
  - refine (proj1 (proj2 (proj2 (proj2
              (proj2 (toggling_asymmetry "subtraction_property" new_RuleSystem
                        new_RuleSystem_active_in_catalog) _))))).
    apply (bool_decide_eq_true_1
             ("subtraction_property" ∈ list_rule_names new_RuleSystem)).
    vm_compute. reflexivity.
Defined.

(** ** The forward chainer: invariants of the loops *)

Section LoopInvariants.

Context (goal : Fact) (self_max_facts : Z) (elapsed : Qc).
Context (initial_facts : list Fact).

Local Abbreviation inv := (trace_inv initial_facts).
Local Abbreviation fits := (within_limit self_max_facts).
Local Abbreviation stopped := (stopped_at_limit self_max_facts).
Local Abbreviation ok := (flow_ok goal self_max_facts elapsed initial_facts).

Lemma within_limit_stopped st : fits st → stopped st.
Proof.
  intros [H|H]; [left; rewrite H; simpl; lia | right; lia].
Qed.

Lemma new_facts_loop_ok rule iteration new_facts st :
  inv st → fits st →
  ok iteration
    (new_facts_loop goal self_max_facts elapsed rule iteration new_facts st).
Proof.
  revert st. induction new_facts as [|new_fact rest IH]; intros st Htr Hlim.
  - simpl. done.
  - simpl. destruct (decide (new_fact ∈ current_facts st)) as [Hin|Hnin].
    + by apply IH.
    + set (step := _create_proof_step rule (current_facts st) new_fact
                     (length (proof_steps st) + 1)).
      assert (Htr' : inv
                (MkLocals (current_facts st ++ [new_fact])
                   (proof_steps st ++ [step])
                   (count_application (name rule) (local_stats st)))).
      { unfold trace_inv in *. simpl. rewrite Htr at 1.
        rewrite fmap_app. simpl. by rewrite <- (assoc_L (++)). }
      assert (Hstop : stopped
                (MkLocals (current_facts st ++ [new_fact])
                   (proof_steps st ++ [step])
                   (count_application (name rule) (local_stats st)))).
      { unfold stopped_at_limit. simpl. rewrite !length_app. simpl.
        destruct Hlim as [Hnil|Hle]; [left; rewrite Hnil; simpl; lia|right; lia]. }
      destruct (decide (new_fact = goal)) as [Hgoal|Hngoal].
      * simpl. split_and!; try done. unfold returned; simpl.
        split_and!; try done.
        left. split_and!; try done. rewrite <- Hgoal.
        apply elem_of_app. right. by apply list_elem_of_singleton.
      * destruct (decide (self_max_facts
                          < Z.of_nat (length (current_facts st ++ [new_fact])))%Z)
          as [Hover|Hfits].
        -- simpl. split_and!; try done. unfold returned; simpl.
           split_and!; try done. right. split_and!; done.
        -- apply IH; [done|]. right. simpl. lia.
Qed.

Lemma rules_loop_ok iteration rules st :
  inv st → fits st →
  ok iteration (rules_loop goal self_max_facts elapsed iteration rules st).
Proof.
  revert st. induction rules as [|rule rest IH]; intros st Htr Hlim.
  - simpl. done.
  - simpl. destruct (can_apply_rule rule (current_facts st)); simpl.
    + pose proof (new_facts_loop_ok rule iteration
                    (apply_rule rule (current_facts st)) st Htr Hlim) as Hnf.
      destruct (new_facts_loop _ _ _ _ _ _ _) as [st'|tag result st'].
      * destruct Hnf. by apply IH.
      * done.
    + by apply IH.
Qed.

Lemma new_facts_loop_iterations rule iteration new_facts st :
  iterations (local_stats (flow_locals
    (new_facts_loop goal self_max_facts elapsed rule iteration new_facts st)))
  = iterations (local_stats st).
Proof.
  revert st. induction new_facts as [|new_fact rest IH]; intros st; simpl.
  - done.
  - repeat case_decide; simpl; try done. by rewrite IH.
Qed.

Lemma rules_loop_iterations iteration rules st :
  iterations (local_stats (flow_locals
    (rules_loop goal self_max_facts elapsed iteration rules st)))
  = iterations (local_stats st).
Proof.
  revert st. induction rules as [|rule rest IH]; intros st; simpl.
  - done.
  - destruct (can_apply_rule rule (current_facts st)); simpl; [|done].
    pose proof (new_facts_loop_iterations rule iteration
                  (apply_rule rule (current_facts st)) st) as Hnf.
    destruct (new_facts_loop _ _ _ _ _ _ _) as [st'|tag result st']; simpl in *.
    + by rewrite IH.
    + done.
Qed.

Lemma search_completed_ok tag k n st :
  tag = Stuck ∨ tag = IterationLimit →
  inv st → fits st → iterations (local_stats st) ≤ k + n →
  (tag = IterationLimit → iterations (local_stats st) = k + n) →
  search_ok goal self_max_facts elapsed initial_facts k n
    (search_completed elapsed tag st).
Proof.
  intros Htag Htr Hlim Hle Heq. unfold search_completed, search_ok.
  split_and!; try done.
  - by apply within_limit_stopped.
  - destruct Htag as [-> | ->]; simpl; split_and!; done.
Qed.

Lemma iterations_loop_ok rules n k st :
  inv st → fits st → iterations (local_stats st) = k →
  search_ok goal self_max_facts elapsed initial_facts k n
    (iterations_loop goal self_max_facts elapsed rules (seq k n) st).
Proof.
  revert k st. induction n as [|n IH]; intros k st Htr Hlim Hit.
  - simpl. apply search_completed_ok; auto; lia.
  - simpl.
    set (st1 := MkLocals (current_facts st) (proof_steps st)
                  (MkStats (k + 1) (rules_applied (local_stats st))
                     (facts_derived (local_stats st))
                     (rule_applications (local_stats st)))).
    assert (Htr1 : inv st1) by done.
    assert (Hlim1 : fits st1) by done.
    pose proof (rules_loop_ok k rules st1 Htr1 Hlim1) as Hr.
    pose proof (rules_loop_iterations k rules st1) as Hk.
    destruct (rules_loop _ _ _ _ _ _) as [st'|tag result st']; simpl in Hk.
    + destruct Hr as [Htr' Hlim'].
      destruct (decide (length (current_facts st') = length (current_facts st))).
      * apply search_completed_ok; auto; [lia|]. intros [=].
      * specialize (IH (S k) st' Htr' Hlim').
        destruct (iterations_loop _ _ _ _ _ _) as [[tag result] st''].
        destruct IH as (? & ? & ? & ? & ? & ? & Hlast & ?); [lia|].
        split_and!; try done; try lia.
        intros Htag. specialize (Hlast Htag). lia.
    + destruct Hr as (Htr' & Hstop & Hs & Hf & Hi & Ht & Hcase).
      split_and!; try done; try lia.
      * intros ->. by destruct Hcase as [(? & _)|(? & _)].
      * destruct Hcase as [(-> & ? & ? & ? & ?)|(-> & ? & ? & ? & ?)]; simpl.
        -- split_and!; try done. by rewrite Hf.
        -- split_and!; try done. by rewrite Hf.
Qed.

End LoopInvariants.

(** The invariants, for a whole call. *)
Lemma run_ok self clock goal initial_facts rules :
  let '(tag, result, self') := run self clock goal initial_facts rules in
  final_facts result = initial_facts ++ (derived_fact <$> steps result)
  ∧ (length (steps result) ≤ 1
     ∨ (Z.of_nat (length (final_facts result)) ≤ max_facts self + 1)%Z)
  ∧ iterations_used result ≤ Z.to_nat (max_iterations self)
  ∧ (tag = IterationLimit →
     iterations_used result = Z.to_nat (max_iterations self))
  ∧ time_elapsed result = Qcminus (time_at_return clock) (time_at_start clock)
  ∧ max_iterations self' = max_iterations self
  ∧ max_facts self' = max_facts self
  ∧ outcome_ok goal (max_facts self) tag result.
Proof.
  unfold run. simpl.
  destruct (decide (goal ∈ initial_facts)) as [Hin|Hnin].
  - simpl. rewrite app_nil_r. split_and!; try done; try lia; left; simpl; lia.
  - pose proof (iterations_loop_ok goal (max_facts self)
                  (Qcminus (time_at_return clock) (time_at_start clock))
                  initial_facts rules (Z.to_nat (max_iterations self)) 0
                  (MkLocals initial_facts [] reset_statistics)) as Hok.
    destruct (iterations_loop _ _ _ _ _ _) as [[tag result] st].
    destruct Hok as (Htr & Hstop & Hs & Hf & Ht & Hi & Hlim & Hcase).
    { unfold trace_inv. simpl. by rewrite app_nil_r. }
    { by left. }
    { done. }
    simpl. unfold trace_inv in Htr. unfold stopped_at_limit in Hstop.
    rewrite Hs, Hf. split_and!; done.
Qed.

(** *** The working set only grows *)

Section Growth.

Context (goal : Fact) (self_max_facts : Z) (elapsed : Qc).

Lemma new_facts_loop_prefix rule iteration new_facts st :
  current_facts st `prefix_of`
    current_facts (flow_locals
      (new_facts_loop goal self_max_facts elapsed rule iteration new_facts st)).
Proof.
  revert st. induction new_facts as [|new_fact rest IH]; intros st; simpl.
  - done.
  - repeat case_decide; simpl; try apply IH; try by apply prefix_app_r.
    etrans; [|apply IH]. simpl. by apply prefix_app_r.
Qed.

Lemma rules_loop_prefix iteration rules st :
  current_facts st `prefix_of`
    current_facts (flow_locals
      (rules_loop goal self_max_facts elapsed iteration rules st)).
Proof.
  revert st. induction rules as [|rule rest IH]; intros st; simpl.
  - done.
  - destruct (can_apply_rule rule (current_facts st)); simpl; [|apply IH].
    pose proof (new_facts_loop_prefix rule iteration
                  (apply_rule rule (current_facts st)) st) as Hnf.
    destruct (new_facts_loop _ _ _ _ _ _ _) as [st'|tag result st']; simpl in *.
    + etrans; [exact Hnf|apply IH].
    + done.
Qed.

Lemma new_facts_loop_returns rule iteration new_facts st tag result st' :
  new_facts_loop goal self_max_facts elapsed rule iteration new_facts st
    = Return tag result st' →
  final_facts result = current_facts st' ∧ steps result = proof_steps st'.
Proof.
  revert st. induction new_facts as [|new_fact rest IH]; intros st; simpl.
  - done.
  - repeat case_decide; try apply IH; by intros [= <- <- <-].
Qed.

Lemma rules_loop_returns iteration rules st tag result st' :
  rules_loop goal self_max_facts elapsed iteration rules st
    = Return tag result st' →
  final_facts result = current_facts st' ∧ steps result = proof_steps st'.
Proof.
  revert st. induction rules as [|rule rest IH]; intros st; simpl.
  - done.
  - destruct (can_apply_rule rule (current_facts st)); simpl; [|apply IH].
    destruct (new_facts_loop _ _ _ _ _ _ _) as [st1|tag1 result1 st1] eqn:Hnf.
    + apply IH.
    + intros [= <- <- <-]. by eapply new_facts_loop_returns.
Qed.

Lemma iterations_loop_prefix rules range st :
  current_facts st `prefix_of`
    final_facts
      (iterations_loop goal self_max_facts elapsed rules range st).1.2.
Proof.
  revert st. induction range as [|iteration range' IH]; intros st; simpl.
  - done.
  - match goal with
    | |- context [rules_loop ?g ?m ?e ?i ?rs ?s0] =>
        pose proof (rules_loop_prefix i rs s0) as Hp;
        destruct (rules_loop g m e i rs s0) as [st'|tag result st'] eqn:Hr
    end; simpl in Hp.
    + case_decide; simpl; [done|]. etrans; [exact Hp|apply IH].
    + simpl. apply rules_loop_returns in Hr as [Hr _]. by rewrite Hr.
Qed.

End Growth.

(** *** A stuck search has saturated the working set *)

Section Saturation.

Context (goal : Fact) (self_max_facts : Z) (elapsed : Qc).

Lemma new_facts_loop_no_growth rule iteration new_facts st st' :
  new_facts_loop goal self_max_facts elapsed rule iteration new_facts st
    = Next st' →
  length (current_facts st') = length (current_facts st) →
  st' = st ∧ Forall (λ f, f ∈ current_facts st) new_facts.
Proof.
  revert st. induction new_facts as [|new_fact rest IH]; intros st; simpl.
  - by intros [= <-].
  - destruct (decide (new_fact ∈ current_facts st)) as [Hin|Hnin].
    + intros Hnext Hlen. destruct (IH st Hnext Hlen) as [-> Hrest].
      split; [done|]. by constructor.
    + repeat case_decide; try done. intros Hnext Hlen. exfalso.
      match type of Hnext with
      | new_facts_loop _ _ _ _ _ _ ?s1 = _ =>
          pose proof (new_facts_loop_prefix goal self_max_facts elapsed rule
                        iteration rest s1) as Hp
      end.
      rewrite Hnext in Hp. simpl in Hp. apply prefix_length in Hp.
      rewrite length_app in Hp. simpl in Hp. lia.
Qed.

Lemma apply_rule_nil_of_known rule facts :
  Forall (λ f, f ∈ facts) (apply_rule rule facts) → apply_rule rule facts = [].
Proof.
  destruct (apply_rule rule facts) as [|f others] eqn:Heq; [done|].
  intros [Hin _]%Forall_cons. exfalso.
  assert (Hf : f ∈ apply_rule rule facts)
    by (rewrite Heq; apply list_elem_of_here).
  by apply elem_of_apply_rule in Hf as [Hnew _].
Qed.

Lemma apply_rule_nil_of_cannot rule facts :
  can_apply_rule rule facts = false → apply_rule rule facts = [].
Proof.
  unfold can_apply_rule, apply_rule. intros Hcan%bool_decide_eq_false.
  destruct (find_rule_matches (premises rule) facts); [done|].
  simpl in Hcan. lia.
Qed.

Lemma rules_loop_no_growth iteration rules st st' :
  rules_loop goal self_max_facts elapsed iteration rules st = Next st' →
  length (current_facts st') = length (current_facts st) →
  st' = st ∧ Forall (λ rule, apply_rule rule (current_facts st) = []) rules.
Proof.
  revert st. induction rules as [|rule rest IH]; intros st; simpl.
  - by intros [= <-].
  - destruct (can_apply_rule rule (current_facts st)) eqn:Hcan; simpl.
    + destruct (new_facts_loop _ _ _ _ _ _ _) as [st1|tag result st1] eqn:Hnf;
        [|done].
      intros Hnext Hlen.
      pose proof (new_facts_loop_prefix goal self_max_facts elapsed rule
                    iteration (apply_rule rule (current_facts st)) st) as Hp1.
      pose proof (rules_loop_prefix goal self_max_facts elapsed iteration
                    rest st1) as Hp2.
      rewrite Hnf in Hp1. rewrite Hnext in Hp2. simpl in Hp1, Hp2.
      apply prefix_length in Hp1, Hp2.
      apply new_facts_loop_no_growth in Hnf as [-> Hknown]; [|lia].
      destruct (IH st Hnext Hlen) as [-> Hrest]. split; [done|].
      constructor; [|done]. by apply apply_rule_nil_of_known.
    + intros Hnext Hlen. destruct (IH st Hnext Hlen) as [-> Hrest].
      split; [done|]. constructor; [|done]. by apply apply_rule_nil_of_cannot.
Qed.

Lemma new_facts_loop_return_tag rule iteration new_facts st tag result st' :
  new_facts_loop goal self_max_facts elapsed rule iteration new_facts st
    = Return tag result st' →
  tag = GoalAchieved ∨ tag = FactLimit.
Proof.
  revert st. induction new_facts as [|new_fact rest IH]; intros st; simpl.
  - done.
  - repeat case_decide; try apply IH; intros [= <- <- <-]; auto.
Qed.

Lemma rules_loop_return_tag iteration rules st tag result st' :
  rules_loop goal self_max_facts elapsed iteration rules st
    = Return tag result st' →
  tag = GoalAchieved ∨ tag = FactLimit.
Proof.
  revert st. induction rules as [|rule rest IH]; intros st; simpl.
  - done.
  - destruct (can_apply_rule rule (current_facts st)); simpl; [|apply IH].
    destruct (new_facts_loop _ _ _ _ _ _ _) as [st1|tag1 result1 st1] eqn:Hnf.
    + apply IH.
    + intros [= <- <- <-]. by eapply new_facts_loop_return_tag.
Qed.

Lemma iterations_loop_stuck rules range st result st' :
  iterations_loop goal self_max_facts elapsed rules range st
    = (Stuck, result, st') →
  Forall (λ rule, apply_rule rule (final_facts result) = []) rules.
Proof.
  revert st. induction range as [|iteration range' IH]; intros st; simpl.
  - done.
  - match goal with
    | |- context [rules_loop ?g ?m ?e ?i ?rs ?s0] =>
        destruct (rules_loop g m e i rs s0) as [st1|tag1 result1 st1] eqn:Hr
    end.
    + case_decide as Hlen; [|apply IH].
      intros [= <- <-]. simpl.
      by apply rules_loop_no_growth in Hr as [-> Hsat].
    + intros [= -> <- <-].
      by apply rules_loop_return_tag in Hr as [?|?].
Qed.

End Saturation.

Lemma run_stuck self clock goal initial_facts rules result self' :
  run self clock goal initial_facts rules = (Stuck, result, self') →
  Forall (λ rule, apply_rule rule (final_facts result) = []) rules.
Proof.
  unfold run. simpl. case_decide; [done|].
  destruct (iterations_loop _ _ _ _ _ _) as [[tag r] st] eqn:Hloop.
  intros [= -> <- _]. by eapply iterations_loop_stuck.
Qed.

(** *** What a proof step records *)

Lemma create_proof_step_sound rules rule working_set new_fact k :
  rule ∈ rules → new_fact ∉ working_set →
  (∃ s, s ∈ find_rule_matches (premises rule) working_set
        ∧ apply_to_fact s (conclusion rule) = new_fact) →
  step_sound rules working_set k
    (_create_proof_step rule working_set new_fact (k + 1)).
Proof.
  intros Hrule Hnew Hs. unfold step_sound, _create_proof_step. simpl.
  split_and!; try done.
  destruct Hs as (s & Hs & _).
  destruct (find_rule_matches (premises rule) working_set) as [|s0 others]
    eqn:Hmatches; [by apply elem_of_nil in Hs|].
  assert (Hs0 : s0 ∈ find_rule_matches (premises rule) working_set)
    by (rewrite Hmatches; apply list_elem_of_here).
  apply find_rule_matches_premises in Hs0.
  apply Forall_fmap. eapply Forall_impl; [exact Hs0|].
  intros p Hp. simpl. by rewrite decide_True.
Qed.

Lemma steps_sound_snoc rules initial_facts steps step :
  steps_sound rules initial_facts steps →
  step_sound rules (initial_facts ++ (derived_fact <$> steps)) (length steps)
    step →
  steps_sound rules initial_facts (steps ++ [step]).
Proof.
  intros Hsteps Hstep k st Hk.
  destruct (decide (k < length steps)) as [Hlt|Hge].
  - rewrite lookup_app_l in Hk by done.
    rewrite take_app_le by lia. by apply Hsteps.
  - rewrite lookup_app_r in Hk by lia.
    destruct (k - length steps) as [|n] eqn:Hn; [|done].
    injection Hk as <-. assert (k = length steps) as -> by lia.
    by rewrite take_app_length.
Qed.

Section StepSoundness.

Context (goal : Fact) (self_max_facts : Z) (elapsed : Qc).
Context (rules : list Rule) (initial_facts : list Fact).

Local Abbreviation sound st :=
  (trace_inv initial_facts st
   ∧ steps_sound rules initial_facts (proof_steps st)).

Lemma new_facts_loop_sound rule iteration new_facts st :
  rule ∈ rules →
  (∀ nf, nf ∈ new_facts →
     ∃ s, s ∈ find_rule_matches (premises rule) (current_facts st)
          ∧ apply_to_fact s (conclusion rule) = nf) →
  sound st →
  sound (flow_locals
    (new_facts_loop goal self_max_facts elapsed rule iteration new_facts st)).
Proof.
  intros Hrule. revert st.
  induction new_facts as [|new_fact rest IH]; intros st Hnf [Htr Hsteps];
    simpl; [done|].
  destruct (decide (new_fact ∈ current_facts st)) as [Hin|Hnin].
  { apply IH; [|done]. intros nf Hin'. apply Hnf. by right. }
  set (step := _create_proof_step rule (current_facts st) new_fact
                 (length (proof_steps st) + 1)).
  set (st' := MkLocals (current_facts st ++ [new_fact])
                (proof_steps st ++ [step])
                (count_application (name rule) (local_stats st))).
  assert (Hsound' : sound st').
  { split.
    - unfold trace_inv in *. simpl. rewrite Htr at 1.
      rewrite fmap_app. simpl. by rewrite <- (assoc_L (++)).
    - simpl. apply steps_sound_snoc; [done|].
      unfold trace_inv in Htr. rewrite <- Htr.
      apply create_proof_step_sound; [done..|]. apply Hnf, list_elem_of_here. }
  repeat case_decide; simpl; try exact Hsound'.
  apply IH; [|exact Hsound'].
  intros nf Hin'. destruct (Hnf nf) as (s & Hs & Hc); [by right|].
  exists s. split; [|done].
  eapply match_facts_list_mono; [|exact Hs].
  intros t Ht. simpl. apply elem_of_app. by left.
Qed.

Lemma rules_loop_sound iteration rules' st :
  (∀ rule, rule ∈ rules' → rule ∈ rules) →
  sound st →
  sound (flow_locals
    (rules_loop goal self_max_facts elapsed iteration rules' st)).
Proof.
  revert st. induction rules' as [|rule rest IH]; intros st Hsub Hsound;
    simpl; [done|].
  assert (Hrest : ∀ r, r ∈ rest → r ∈ rules)
    by (intros r Hr; apply Hsub; by right).
  destruct (can_apply_rule rule (current_facts st)); simpl; [|by apply IH].
  pose proof (new_facts_loop_sound rule iteration
                (apply_rule rule (current_facts st)) st) as Hnf.
  destruct (new_facts_loop _ _ _ _ _ _ _) as [st'|tag result st'];
    simpl in *.
  - apply IH; [done|]. apply Hnf; [apply Hsub, list_elem_of_here| |done].
    intros nf Hin. by apply elem_of_apply_rule in Hin as [_ ?].
  - apply Hnf; [apply Hsub, list_elem_of_here| |done].
    intros nf Hin. by apply elem_of_apply_rule in Hin as [_ ?].
Qed.

Lemma iterations_loop_sound range st :
  sound st →
  steps_sound rules initial_facts
    (steps (iterations_loop goal self_max_facts elapsed rules range st).1.2).
Proof.
  revert st. induction range as [|iteration range' IH]; intros st Hsound;
    simpl.
  - by destruct Hsound.
  - match goal with
    | |- context [rules_loop ?g ?m ?e ?i ?rs ?s0] =>
        pose proof (rules_loop_sound i rs s0 (λ _ H, H) Hsound) as Hr;
        destruct (rules_loop g m e i rs s0) as [st'|tag result st'] eqn:Heq
    end; simpl in Hr.
    + case_decide; simpl; [by destruct Hr|by apply IH].
    + simpl. apply rules_loop_returns in Heq as [_ ->]. by destruct Hr.
Qed.

End StepSoundness.

(** The steps of a call: each lists premises that are in the working set at
    its creation, and derives a new fact that is the conclusion of its rule
    under some match of the rule's premises in that working set. *)
Lemma prove_steps_sound self clock goal initial_facts rules :
  steps_sound rules initial_facts
    (steps (prove self clock goal initial_facts rules)).
Proof.
  unfold prove, run. simpl. case_decide.
  - intros k step Hk. simpl in Hk. by destruct k.
  - pose proof (iterations_loop_sound goal (max_facts self)
                  (Qcminus (time_at_return clock) (time_at_start clock))
                  rules initial_facts
                  (seq 0 (Z.to_nat (max_iterations self)))
                  (MkLocals initial_facts [] reset_statistics)) as Hloop.
    destruct (iterations_loop _ _ _ _ _ _) as [[tag result] st]. simpl in *.
    apply Hloop. split.
    + unfold trace_inv. simpl. by rewrite app_nil_r.
    + intros k step Hk. simpl in Hk. by destruct k.
Qed.

(** The working set stays duplicate-free, as a set is. *)
Lemma steps_sound_NoDup rules initial_facts steps :
  NoDup initial_facts → steps_sound rules initial_facts steps →
  NoDup (initial_facts ++ (derived_fact <$> steps)).
Proof.
  intros Hnd. induction steps as [|step steps IH] using rev_ind; intros Hs.
  - simpl. by rewrite app_nil_r.
  - rewrite fmap_app, (assoc_L (++)). simpl. apply NoDup_app. split_and!.
    + apply IH. intros k st Hk.
      pose proof (lookup_lt_Some _ _ _ Hk) as Hlt.
      specialize (Hs k st). rewrite lookup_app_l, take_app_le in Hs by lia.
      by apply Hs.
    + intros f Hf ->%list_elem_of_singleton.
      specialize (Hs (length steps) step).
      rewrite lookup_app_r, Nat.sub_diag, take_app_length in Hs by lia.
      by destruct (Hs eq_refl) as (_ & _ & _ & Hnew & _).
    + apply NoDup_singleton.
Qed.

Lemma final_facts_NoDup self clock goal initial_facts rules :
  NoDup initial_facts →
  NoDup (final_facts (prove self clock goal initial_facts rules)).
Proof.
  intros Hnd.
  pose proof (prove_steps_sound self clock goal initial_facts rules) as Hs.
  pose proof (run_ok self clock goal initial_facts rules) as Hok.
  unfold prove in *.
  destruct (run self clock goal initial_facts rules) as [[tag r] self'].
  destruct Hok as (Hf & _). simpl in *. rewrite Hf.
  by eapply steps_sound_NoDup.
Qed.

(** ** The forward chainer: results of a call *)

(** C3. Trivial goal: when the goal is among the initial facts, the result
    has no steps, [goal_achieved] and [success] are true and no iteration is
    counted. *)
Theorem trivial_goal self clock goal initial_facts rules :
  goal ∈ initial_facts →
  let r := prove self clock goal initial_facts rules in
  steps r = [] ∧ goal_achieved r = true ∧ success r = true
  ∧ iterations_used r = 0.
Proof.
  intros Hin. unfold prove, run. simpl.
  destruct (decide (goal ∈ initial_facts)); [done|contradiction].
Qed.

Lemma trivial_goal_witness :
  let r := prove Examples.chainer Examples.clock
             (Examples.eq_ Examples.x (num 5))
             [Examples.eq_ Examples.x (num 5)] [] in
  steps r = [] ∧ goal_achieved r = true ∧ success r = true
  ∧ iterations_used r = 0.
Proof.
  apply trivial_goal. apply list_elem_of_here.
Defined.

(** C2, as the code has it. A search that is stuck (no rule gives a new
    fact) or that used up its iterations returns a result with
    [success = true], [goal_achieved = false] and no message; a search that
    passed the fact limit returns a result with [success = false],
    [goal_achieved = false] and the fact-limit message. Each is an ordinary
    return value of [prove]. *)
Theorem exhaustion_results self clock goal initial_facts rules :
  let r := prove self clock goal initial_facts rules in
  match prove_outcome self clock goal initial_facts rules with
  | Stuck =>
      success r = true ∧ goal_achieved r = false ∧ error_message r = None
      ∧ Forall (λ rule, apply_rule rule (final_facts r) = []) rules
  | IterationLimit =>
      success r = true ∧ goal_achieved r = false ∧ error_message r = None
      ∧ iterations_used r = Z.to_nat (max_iterations self)
  | FactLimit =>
      success r = false ∧ goal_achieved r = false
      ∧ error_message r = Some (fact_limit_message (max_facts self))
      ∧ (max_facts self < Z.of_nat (length (final_facts r)))%Z
  | GoalAchieved =>
      success r = true ∧ goal_achieved r = true ∧ error_message r = None
      ∧ goal ∈ final_facts r
  end.
Proof.
  unfold prove, prove_outcome.
  pose proof (run_ok self clock goal initial_facts rules) as H.
  pose proof (run_stuck self clock goal initial_facts rules) as Hstuck.
  destruct (run self clock goal initial_facts rules) as [[tag result] self'].
  destruct H as (_ & _ & _ & Hlast & _ & _ & _ & Hcase). simpl.
  destruct tag; simpl in Hcase;
    destruct Hcase as (? & ? & ? & ?); split_and!; try done.
  - by eapply Hstuck.
  - by apply Hlast.
Qed.

(** C2, counterexample: with [max_facts = 1], two initial facts and a rule
    that derives a new fact, the search ends at the fact limit and the
    result has [success = false]; and a search that is stuck, with no rules,
    returns a result without any message. *)
Lemma exhaustion_counterexample :
  let self := new_ForwardChainer 100 1 in
  let goal := Examples.positive_ Examples.a in
  let initial_facts :=
    [Examples.eq_ Examples.a Examples.b; Examples.eq_ Examples.c Examples.d] in
  let r := prove self Examples.clock goal initial_facts [Examples.rule1] in
  let r' := prove self Examples.clock goal initial_facts [] in
  prove_outcome self Examples.clock goal initial_facts [Examples.rule1]
    = FactLimit
  ∧ success r = false
  ∧ ¬ (success r = true ∧ goal_achieved r = false)
  ∧ prove_outcome self Examples.clock goal initial_facts [] = Stuck
  ∧ error_message r' = None.
Proof.
  split_and!; try (vm_compute; reflexivity).
  intros [Hs _]. vm_compute in Hs. discriminate Hs.
Qed.

(** C4. Termination within the bounds: [prove] returns a result for every
    input; the iterations it counts are at most [max_iterations]; every
    step adds one fact; at most one insertion takes the working set past
    [max_facts], and when one does the search returns there, with the goal
    or at the fact limit. *)
Theorem prove_terminates_within_bounds self clock goal initial_facts rules :
  ∃ tag r self',
    run self clock goal initial_facts rules = (tag, r, self')
    ∧ iterations_used r ≤ Z.to_nat (max_iterations self)
    ∧ length (final_facts r) = length initial_facts + length (steps r)
    ∧ (length (steps r) ≤ 1
       ∨ (Z.of_nat (length (final_facts r)) ≤ max_facts self + 1)%Z)
    ∧ (tag = GoalAchieved ∨ tag = FactLimit ∨ steps r = []
       ∨ (Z.of_nat (length (final_facts r)) ≤ max_facts self)%Z).
Proof.
  pose proof (run_ok self clock goal initial_facts rules) as H.
  destruct (run self clock goal initial_facts rules) as [[tag r] self'].
  destruct H as (Hf & Hstop & Hi & _ & _ & _ & _ & Hcase).
  exists tag, r, self'. split_and!; try done.
  - rewrite Hf at 1. by rewrite length_app, length_fmap.
  - destruct tag; simpl in Hcase; auto;
      destruct Hcase as (_ & _ & _ & [?|?]); auto.
Qed.

(** C5. Monotonicity of the working set. Each loop of [prove] hands on a
    working set that begins with the one it was given, so a fact once present
    stays; and the [final_facts] of a call begin with the working set as it
    stood after any number [k] of steps: the initial facts followed by the
    first [k] derived facts. *)
Theorem working_set_only_grows :
  (∀ goal self_max_facts elapsed rule iteration new_facts st,
     current_facts st `prefix_of`
       current_facts (flow_locals
         (new_facts_loop goal self_max_facts elapsed rule iteration
            new_facts st)))
  ∧ (∀ goal self_max_facts elapsed iteration rules st,
       current_facts st `prefix_of`
         current_facts (flow_locals
           (rules_loop goal self_max_facts elapsed iteration rules st)))
  ∧ (∀ goal self_max_facts elapsed rules range st,
       current_facts st `prefix_of`
         final_facts
           (iterations_loop goal self_max_facts elapsed rules range st).1.2)
  ∧ (∀ self clock goal initial_facts rules k,
       let r := prove self clock goal initial_facts rules in
       initial_facts ++ (derived_fact <$> take k (steps r))
         `prefix_of` final_facts r).
Proof.
  split_and!.
  - apply new_facts_loop_prefix.
  - apply rules_loop_prefix.
  - apply iterations_loop_prefix.
  - intros self clock goal initial_facts rules k. unfold prove.
    pose proof (run_ok self clock goal initial_facts rules) as H.
    destruct (run self clock goal initial_facts rules) as [[tag r] self'].
    destruct H as (Hf & _). simpl. rewrite Hf.
    apply prefix_app. rewrite fmap_take. apply prefix_take.
Qed.

(** *** Determinism *)

Section Retiming.

Context (goal : Fact) (self_max_facts : Z) (elapsed elapsed' : Qc).

Lemma new_facts_loop_retime rule iteration new_facts st :
  new_facts_loop goal self_max_facts elapsed' rule iteration new_facts st
  = flow_retime elapsed'
      (new_facts_loop goal self_max_facts elapsed rule iteration new_facts st).
Proof.
  revert st. induction new_facts as [|new_fact rest IH]; intros st; simpl.
  - done.
  - repeat case_decide; simpl; by rewrite ?IH.
Qed.

Lemma rules_loop_retime iteration rules st :
  rules_loop goal self_max_facts elapsed' iteration rules st
  = flow_retime elapsed'
      (rules_loop goal self_max_facts elapsed iteration rules st).
Proof.
  revert st. induction rules as [|rule rest IH]; intros st; simpl.
  - done.
  - destruct (can_apply_rule rule (current_facts st)); simpl; [|apply IH].
    rewrite new_facts_loop_retime.
    destruct (new_facts_loop _ _ elapsed _ _ _ _) as [st'|tag result st'];
      simpl; [apply IH|done].
Qed.

Lemma iterations_loop_retime rules range st :
  iterations_loop goal self_max_facts elapsed' rules range st
  = let '(tag, result, st') :=
      iterations_loop goal self_max_facts elapsed rules range st in
    (tag, retime elapsed' result, st').
Proof.
  revert st. induction range as [|iteration range' IH]; intros st; simpl.
  - done.
  - rewrite rules_loop_retime.
    destruct (rules_loop _ _ elapsed _ _ _) as [st'|tag result st']; simpl.
    + case_decide; [done|apply IH].
    + done.
Qed.

End Retiming.

(** A call depends on the chainer through its two limits only (the
    statistics are reset on entry), and on the clock through [time_elapsed]
    only. *)
Lemma run_retime self1 self2 clock1 clock2 goal initial_facts rules :
  max_iterations self1 = max_iterations self2 →
  max_facts self1 = max_facts self2 →
  run self2 clock2 goal initial_facts rules
  = let '(tag, result, self') := run self1 clock1 goal initial_facts rules in
    (tag,
     retime (Qcminus (time_at_return clock2) (time_at_start clock2)) result,
     MkForwardChainer (max_iterations self2) (max_facts self2) (stats self')).
Proof.
  intros Hi Hf. unfold run. simpl. rewrite <- Hi, <- Hf.
  destruct (decide (goal ∈ initial_facts)); [done|].
  rewrite (iterations_loop_retime goal (max_facts self1)
             (Qcminus (time_at_return clock1) (time_at_start clock1))).
  by destruct (iterations_loop _ _ _ _ _ _) as [[tag result] st].
Qed.

(** With the order of insertion for every set, two calls with the same
    inputs on chainers with the same limits give the same result, up to
    [time_elapsed]. *)
Lemma prove_same_in_insertion_order
    self1 self2 clock1 clock2 goal initial_facts rules :
  max_iterations self1 = max_iterations self2 →
  max_facts self1 = max_facts self2 →
  same_result (prove self1 clock1 goal initial_facts rules)
    (prove self2 clock2 goal initial_facts rules).
Proof.
  intros Hi Hf. unfold prove.
  rewrite (run_retime self1 self2 clock1 clock2) by done.
  by destruct (run self1 clock1 goal initial_facts rules) as [[tag r] self'].
Qed.

(** *** Determinism and the iteration order of the sets *)

(** With the order of insertion, the search is the search of [Engine]. *)
Lemma insertion_order_run self clock goal initial_facts rules :
  Ordered.run Ordered.insertion_order self clock goal initial_facts rules
  = run self clock goal initial_facts rules.
Proof. reflexivity. Qed.

Lemma subseteq_snoc (facts : list Fact) (f : Fact) : facts ⊆ facts ++ [f].
Proof. intros x Hx. apply elem_of_app. by left. Qed.

Section OrderedGrowth.

Context (order : list Fact → list Fact).
Context (goal : Fact) (self_max_facts : Z) (elapsed : Qc).

Lemma ordered_new_facts_loop_grows rule iteration new_facts st :
  current_facts st ⊆
    current_facts (flow_locals
      (Ordered.new_facts_loop order goal self_max_facts elapsed rule iteration
         new_facts st)).
Proof.
  revert st. induction new_facts as [|new_fact rest IH]; intros st; simpl.
  - done.
  - repeat case_decide; simpl; try apply IH; try apply subseteq_snoc.
    etrans; [|apply IH]. simpl. apply subseteq_snoc.
Qed.

Lemma ordered_rules_loop_grows iteration rules st :
  current_facts st ⊆
    current_facts (flow_locals
      (Ordered.rules_loop order goal self_max_facts elapsed iteration rules
         st)).
Proof.
  revert st. induction rules as [|rule rest IH]; intros st; simpl.
  - done.
  - destruct (Ordered.can_apply_rule order rule (current_facts st)); simpl;
      [|apply IH].
    pose proof (ordered_new_facts_loop_grows rule iteration
                  (Ordered.apply_rule order rule (current_facts st)) st) as Hnf.
    destruct (Ordered.new_facts_loop _ _ _ _ _ _ _ _) as [st'|tag r st'];
      simpl in *; [|done].
    etrans; [exact Hnf|apply IH].
Qed.

Lemma ordered_iterations_loop_grows rules range st :
  current_facts st ⊆
    current_facts
      (Ordered.iterations_loop order goal self_max_facts elapsed rules range
         st).2.
Proof.
  revert st. induction range as [|iteration range' IH]; intros st; simpl.
  - done.
  - match goal with
    | |- context [Ordered.rules_loop ?o ?g ?m ?e ?i ?rs ?s0] =>
        pose proof (ordered_rules_loop_grows i rs s0) as Hr;
        destruct (Ordered.rules_loop o g m e i rs s0) as [st'|tag r st']
    end; simpl in *; [|done].
    case_decide; simpl; [done|]. etrans; [exact Hr|apply IH].
Qed.

Lemma ordered_new_facts_loop_returns rule iteration new_facts st tag r st' :
  Ordered.new_facts_loop order goal self_max_facts elapsed rule iteration
    new_facts st = Return tag r st' →
  final_facts r = current_facts st'.
Proof.
  revert st. induction new_facts as [|new_fact rest IH]; intros st; simpl.
  - done.
  - repeat case_decide; try apply IH; by intros [= <- <- <-].
Qed.

Lemma ordered_rules_loop_returns iteration rules st tag r st' :
  Ordered.rules_loop order goal self_max_facts elapsed iteration rules st
    = Return tag r st' →
  final_facts r = current_facts st'.
Proof.
  revert st. induction rules as [|rule rest IH]; intros st; simpl.
  - done.
  - destruct (Ordered.can_apply_rule order rule (current_facts st)); simpl;
      [|apply IH].
    destruct (Ordered.new_facts_loop _ _ _ _ _ _ _ _) as [st1|tag1 r1 st1]
      eqn:Hnf; [apply IH|].
    intros [= <- <- <-]. by eapply ordered_new_facts_loop_returns.
Qed.

Lemma ordered_iterations_loop_returns rules range st :
  final_facts
    (Ordered.iterations_loop order goal self_max_facts elapsed rules range
       st).1.2
  = current_facts
      (Ordered.iterations_loop order goal self_max_facts elapsed rules range
         st).2.
Proof.
  revert st. induction range as [|iteration range' IH]; intros st; simpl.
  - done.
  - destruct (Ordered.rules_loop _ _ _ _ _ _ _) as [st'|tag r st'] eqn:Hr.
    + case_decide; [done|apply IH].
    + simpl. by eapply ordered_rules_loop_returns.
Qed.

End OrderedGrowth.

Section Agreement.

Context (order1 order2 : list Fact → list Fact) (known : list Fact).
Context (Hagree : ∀ facts, facts ⊆ known → order1 facts = order2 facts).

Lemma match_facts_list_agree patterns targets :
  targets ⊆ known →
  Ordered.match_facts_list order2 patterns targets
  = Ordered.match_facts_list order1 patterns targets.
Proof.
  revert targets. induction patterns as [|p rest IH]; intros targets Ht;
    [done|].
  rewrite !ordered_match_facts_list_cons, (Hagree targets Ht).
  apply list_bind_ext; [|done]. intros t. destruct (match_fact p t); [|done].
  rewrite IH; [done|]. etrans; [apply discard_subseteq|done].
Qed.

Lemma apply_rule_agree rule facts :
  facts ⊆ known →
  Ordered.apply_rule order2 rule facts = Ordered.apply_rule order1 rule facts.
Proof.
  intros Hf. unfold Ordered.apply_rule, Ordered.find_rule_matches.
  by rewrite match_facts_list_agree.
Qed.

Lemma can_apply_rule_agree rule facts :
  facts ⊆ known →
  Ordered.can_apply_rule order2 rule facts
  = Ordered.can_apply_rule order1 rule facts.
Proof.
  intros Hf. unfold Ordered.can_apply_rule, Ordered.find_rule_matches.
  by rewrite match_facts_list_agree.
Qed.

Lemma create_proof_step_agree rule facts derived_fact step_number :
  facts ⊆ known →
  Ordered._create_proof_step order2 rule facts derived_fact step_number
  = Ordered._create_proof_step order1 rule facts derived_fact step_number.
Proof.
  intros Hf. unfold Ordered._create_proof_step, Ordered.find_rule_matches.
  by rewrite match_facts_list_agree.
Qed.

Context (goal : Fact) (self_max_facts : Z) (elapsed elapsed' : Qc).

Lemma new_facts_loop_agree rule iteration new_facts st :
  current_facts (flow_locals
    (Ordered.new_facts_loop order1 goal self_max_facts elapsed rule iteration
       new_facts st)) ⊆ known →
  Ordered.new_facts_loop order2 goal self_max_facts elapsed' rule iteration
    new_facts st
  = flow_retime elapsed'
      (Ordered.new_facts_loop order1 goal self_max_facts elapsed rule
         iteration new_facts st).
Proof.
  revert st. induction new_facts as [|new_fact rest IH]; intros st Hk;
    [done|].
  assert (Hst : current_facts st ⊆ known).
  { etrans; [|exact Hk]. apply ordered_new_facts_loop_grows. }
  cbn [Ordered.new_facts_loop] in *.
  destruct (decide (new_fact ∈ current_facts st)); [by apply IH|].
  rewrite (create_proof_step_agree _ _ _ _ Hst).
  destruct (decide (new_fact = goal)); [done|].
  case_decide; [done|]. by apply IH.
Qed.

Lemma rules_loop_agree iteration rules st :
  current_facts (flow_locals
    (Ordered.rules_loop order1 goal self_max_facts elapsed iteration rules
       st)) ⊆ known →
  Ordered.rules_loop order2 goal self_max_facts elapsed' iteration rules st
  = flow_retime elapsed'
      (Ordered.rules_loop order1 goal self_max_facts elapsed iteration rules
         st).
Proof.
  revert st. induction rules as [|rule rest IH]; intros st Hk; [done|].
  assert (Hst : current_facts st ⊆ known).
  { etrans; [|exact Hk]. apply ordered_rules_loop_grows. }
  cbn [Ordered.rules_loop] in *.
  rewrite (can_apply_rule_agree _ _ Hst), (apply_rule_agree _ _ Hst).
  destruct (Ordered.can_apply_rule order1 rule (current_facts st));
    cbn [negb] in *; [|by apply IH].
  pose proof (new_facts_loop_agree rule iteration
                (Ordered.apply_rule order1 rule (current_facts st)) st) as Hnf.
  destruct (Ordered.new_facts_loop order1 _ _ elapsed _ _ _ _)
    as [st'|tag r st'] eqn:Hloop.
  - rewrite Hnf.
    + simpl. by apply IH.
    + etrans; [|exact Hk]. simpl. apply ordered_rules_loop_grows.
  - by rewrite Hnf.
Qed.

Lemma iterations_loop_agree rules range st :
  current_facts
    (Ordered.iterations_loop order1 goal self_max_facts elapsed rules range
       st).2 ⊆ known →
  Ordered.iterations_loop order2 goal self_max_facts elapsed' rules range st
  = let '(tag, result, st') :=
      Ordered.iterations_loop order1 goal self_max_facts elapsed rules range
        st in
    (tag, retime elapsed' result, st').
Proof.
  revert st. induction range as [|iteration range' IH]; intros st Hk;
    [done|].
  cbn [Ordered.iterations_loop] in *.
  match goal with
  | |- context [Ordered.rules_loop order1 ?g ?m ?e ?i ?rs ?s0] =>
      pose proof (rules_loop_agree i rs s0) as Hr;
      pose proof (ordered_iterations_loop_grows order1 g m e rs range') as Hg;
      destruct (Ordered.rules_loop order1 g m e i rs s0) as [st'|tag r st']
  end; simpl in *.
  - assert (Hst' : current_facts st' ⊆ known).
    { destruct (decide (length (current_facts st')
                        = length (current_facts st))); [done|].
      etrans; [apply Hg|exact Hk]. }
    rewrite Hr by exact Hst'.
    destruct (decide (length (current_facts st')
                      = length (current_facts st))); [done|].
    by apply IH.
  - by rewrite Hr.
Qed.

End Agreement.

(** C6. Determinism under the iteration order of the sets. Two calls with
    the same goal, the same initial facts and the same rules, on chainers
    with the same limits, give results with the same steps in the same
    order, the same flags, the same iteration count, the same final facts
    and the same message, whatever the statistics left by earlier calls and
    whatever the clock reads, when the two calls iterate in the same order
    every set of facts of the result: the working sets of the search and
    the sets of remaining targets of the matcher are such sets. *)
Theorem prove_deterministic
    order1 order2 self1 self2 clock1 clock2 goal initial_facts rules :
  max_iterations self1 = max_iterations self2 →
  max_facts self1 = max_facts self2 →
  let r1 := Ordered.prove order1 self1 clock1 goal initial_facts rules in
  let r2 := Ordered.prove order2 self2 clock2 goal initial_facts rules in
  (∀ facts, facts ⊆ final_facts r1 → order1 facts = order2 facts) →
  steps r1 = steps r2
  ∧ goal_achieved r1 = goal_achieved r2
  ∧ success r1 = success r2
  ∧ iterations_used r1 = iterations_used r2
  ∧ final_facts r1 = final_facts r2
  ∧ error_message r1 = error_message r2.
Proof.
  intros Hi Hf. simpl. unfold Ordered.prove, Ordered.run. simpl.
  rewrite <- Hi, <- Hf.
  destruct (decide (goal ∈ initial_facts)); [done|].
  pose proof (ordered_iterations_loop_returns order1 goal (max_facts self1)
                (Qcminus (time_at_return clock1) (time_at_start clock1))
                rules (seq 0 (Z.to_nat (max_iterations self1)))
                (MkLocals initial_facts [] reset_statistics)) as Hfinal.
  pose proof (λ known Hagree,
              iterations_loop_agree order1 order2 known Hagree goal
                (max_facts self1)
                (Qcminus (time_at_return clock1) (time_at_start clock1))
                (Qcminus (time_at_return clock2) (time_at_start clock2))
                rules (seq 0 (Z.to_nat (max_iterations self1)))
                (MkLocals initial_facts [] reset_statistics)) as Hloop.
  destruct (Ordered.iterations_loop order1 _ _ _ _ _ _) as [[tag r] st].
  simpl in *. intros Hagree.
  rewrite (Hloop (final_facts r) Hagree) by (by rewrite Hfinal). done.
Qed.

Lemma prove_deterministic_witness :
  let self1 := Examples.chainer in
  let self2 := MkForwardChainer 100 1000 (MkStats 7 3 3 {["rule1" := 3]}) in
  let clock2 := MkClock (Q2Qc 5) (Q2Qc 9) in
  let goal := Examples.positive_ Examples.a in
  let initial_facts := [Examples.eq_ Examples.a Examples.b] in
  let rules := [Examples.rule1; Examples.rule2] in
  let known :=
    [Examples.eq_ Examples.a Examples.b; Examples.gt_ Examples.a (num 0);
     Examples.positive_ Examples.a] in
  let order2 facts :=
    if bool_decide (facts ⊆ known) then reverse facts else facts in
  let r1 := Ordered.prove Ordered.newest_first self1 Examples.clock goal
              initial_facts rules in
  let r2 := Ordered.prove order2 self2 clock2 goal initial_facts rules in
  steps r1 = steps r2
  ∧ goal_achieved r1 = goal_achieved r2
  ∧ success r1 = success r2
  ∧ iterations_used r1 = iterations_used r2
  ∧ final_facts r1 = final_facts r2
  ∧ error_message r1 = error_message r2.
Proof.
  intros self1 self2 clock2 goal initial_facts rules known order2.
  apply (prove_deterministic Ordered.newest_first order2 self1 self2).
  - reflexivity.
  - reflexivity.
  - intros facts Hknown. unfold order2.
    rewrite bool_decide_eq_true_2; [reflexivity|exact Hknown].
Defined.

(** C6, at an input where it fails as stated. The initial fact is
    [eq(a, b)], the rules are [eq(X, Y) → eq(Y, X)] and
    [eq(X, Y) → gt(X, 0)], the goal is [gt(b, 0)] and [max_facts] is 2.
    The first rule adds [eq(b, a)]. When the set of the two facts is
    iterated oldest first, the second rule gives [gt(a, 0)] first, which
    takes the working set past the limit: the call fails. When it is
    iterated newest first, the rule gives the goal first: the call
    succeeds. The inputs of the two calls are the same, and the one initial
    fact can only be iterated in one order. *)
Lemma prove_depends_on_iteration_order :
  let self := new_ForwardChainer 100 2 in
  let goal := Examples.gt_ Examples.b (num 0) in
  let initial_facts := [Examples.eq_ Examples.a Examples.b] in
  let rules := [Examples.equality_symmetry; Examples.rule1] in
  let r1 := Ordered.prove Ordered.insertion_order self Examples.clock goal
              initial_facts rules in
  let r2 := Ordered.prove Ordered.newest_first self Examples.clock goal
              initial_facts rules in
  Ordered.insertion_order initial_facts = Ordered.newest_first initial_facts
  ∧ success r1 = false ∧ goal_achieved r1 = false
  ∧ success r2 = true ∧ goal_achieved r2 = true
  ∧ derived_fact <$> steps r1
    = [Examples.eq_ Examples.b Examples.a; Examples.gt_ Examples.a (num 0)]
  ∧ derived_fact <$> steps r2
    = [Examples.eq_ Examples.b Examples.a; Examples.gt_ Examples.b (num 0)]
  ∧ ¬ (steps r1 = steps r2
       ∧ goal_achieved r1 = goal_achieved r2
       ∧ success r1 = success r2
       ∧ iterations_used r1 = iterations_used r2
       ∧ final_facts r1 = final_facts r2
       ∧ error_message r1 = error_message r2).
Proof.
  split_and!; try (vm_compute; reflexivity).
  intros (_ & Hg & _). vm_compute in Hg. discriminate Hg.
Qed.

(** A second call on the chainer that a first call leaves behind gives the
    same result, up to [time_elapsed]. *)
Lemma prove_again_same_result self clock1 clock2 goal initial_facts rules :
  let first := run self clock1 goal initial_facts rules in
  same_result first.1.2 (prove first.2 clock2 goal initial_facts rules).
Proof.
  simpl. unfold prove.
  pose proof (run_ok self clock1 goal initial_facts rules) as Hok.
  destruct (run self clock1 goal initial_facts rules) as [[tag r] self'] eqn:H1.
  destruct Hok as (_ & _ & _ & _ & _ & Hi & Hf & _). simpl.
  rewrite (run_retime self self' clock1 clock2) by done.
  rewrite H1. by unfold same_result.
Qed.

(** The order in which the initial facts are iterated is part of the input:
    the same two facts in the other order give the steps in the other
    order. *)
Remark iteration_order_matters :
  let goal := Examples.positive_ Examples.x in
  let ab := Examples.eq_ Examples.a Examples.b in
  let cd := Examples.eq_ Examples.c Examples.d in
  derived_fact <$>
    steps (prove Examples.chainer Examples.clock goal [ab; cd] [Examples.rule1])
  = [Examples.gt_ Examples.a (num 0); Examples.gt_ Examples.c (num 0)]
  ∧ derived_fact <$>
      steps (prove Examples.chainer Examples.clock goal [cd; ab] [Examples.rule1])
    = [Examples.gt_ Examples.c (num 0); Examples.gt_ Examples.a (num 0)].
Proof. split; vm_compute; reflexivity. Qed.

(** *** Proof steps and the substitution behind them *)

(** C1, at an input where it fails. With the facts [eq(a, b)] and [eq(c, d)]
    and the rule [eq(X, Y) → gt(X, 0)], the second step derives [gt(c, 0)]
    but lists [eq(a, b)] as its premise: the step is created from the first
    match of the rule in the working set, not from the match that gave the
    derived fact. The listed premise is in the working set, but no
    substitution that instantiates the rule's premise to it gives the derived
    fact as the conclusion. *)
Theorem second_step_lists_wrong_premise :
  let initial_facts :=
    [Examples.eq_ Examples.a Examples.b; Examples.eq_ Examples.c Examples.d] in
  let r := prove Examples.chainer Examples.clock
             (Examples.positive_ Examples.a) initial_facts [Examples.rule1] in
  let working_set := initial_facts ++ [Examples.gt_ Examples.a (num 0)] in
  ∃ step,
    steps r !! 1 = Some step
    ∧ step = _create_proof_step Examples.rule1 working_set
               (Examples.gt_ Examples.c (num 0)) 2
    ∧ derived_fact step = Examples.gt_ Examples.c (num 0)
    ∧ premises_used step = [Examples.eq_ Examples.a Examples.b]
    ∧ Forall (λ f, f ∈ working_set) (premises_used step)
    ∧ ∀ s, apply_to_fact s <$> premises Examples.rule1 = premises_used step →
           apply_to_fact s (conclusion Examples.rule1) ≠ derived_fact step.
Proof.
  eexists. split; [vm_compute; reflexivity|].
  split_and!; try (vm_compute; reflexivity).
  - apply (bool_decide_eq_true_1 (Forall _ _)). vm_compute. reflexivity.
  - intros s Hs Hc.
    assert (HX : apply_to_expression s Examples.X = Examples.a)
      by (by injection Hs).
    assert (HX' : apply_to_expression s Examples.X = Examples.c)
      by (by injection Hc).
    rewrite HX in HX'. discriminate HX'.
Qed.

(** * Further properties of the matcher *)

Lemma value_of_apply s v : apply_to_expression s (Variable_ v) = value_of s v.
Proof. done. Qed.

Lemma match_expression_recursive_complete s p t m :
  pattern_keys s → apply_to_expression s p = t → agrees_with s m →
  ∃ m', _match_expression_recursive p t m = Some m' ∧ agrees_with s m'.
Proof.
  intros Hk. revert t m.
  induction p as [pv|pname|pl IHl pop pr IHr]; intros t m Ht Hm.
  - simpl in *. subst t. rewrite decide_True by done. eauto.
  - rewrite value_of_apply in Ht. simpl.
    destruct (is_pattern_variable pname) eqn:Hpat.
    + destruct (get_mapping pname m) as [bound|] eqn:Hb.
      * apply Hm in Hb. rewrite decide_True by congruence. eauto.
      * eexists. split; [done|]. intros v e. rewrite get_mapping_app.
        destruct (get_mapping v m) as [e'|] eqn:Hv.
        -- intros [= <-]. by apply Hm.
        -- simpl. case_decide; [|done]. intros [= <-]. congruence.
    + unfold value_of in Ht.
      destruct (get_mapping pname s) as [e|] eqn:He.
      * apply get_mapping_elem, Hk in He. congruence.
      * subst t. rewrite decide_True by done. eauto.
  - simpl in Ht. subst t. simpl. rewrite decide_False by (by intros ?).
    destruct (IHl _ m eq_refl Hm) as (m1 & -> & Hm1).
    by apply IHr.
Qed.

Lemma agrees_with_merge s a b :
  unique_keys b → agrees_with s a → agrees_with s b →
  ∃ c, merge a b = Some c ∧ agrees_with s c.
Proof.
  intros Hub Ha Hb.
  assert (Hsome : is_Some (merge a b)).
  { apply merge_is_Some; [done|]. intros (v & ea & eb & Hva & Hvb & Hne).
    apply Ha in Hva. apply Hb in Hvb. congruence. }
  destruct Hsome as [c Hc]. exists c. split; [done|]. intros v e Hv.
  destruct (merge_origin _ _ _ _ _ Hub Hc Hv); auto.
Qed.

Lemma match_arguments_complete s pargs targs m :
  pattern_keys s → apply_to_expression s <$> pargs = targs →
  agrees_with s m →
  ∃ m', match_arguments pargs targs m = Some m' ∧ agrees_with s m'.
Proof.
  intros Hk. revert targs m.
  induction pargs as [|p pargs IH]; intros targs m <- Hm; simpl; [eauto|].
  destruct (match_expression_recursive_complete s p
              (apply_to_expression s p) [] Hk eq_refl) as (am & Ham & Hagree).
  { intros v e H. done. }
  unfold match_expression. rewrite Ham.
  destruct (agrees_with_merge s m am) as (merged & -> & Hmerged); [|done..|].
  { eapply match_expression_recursive_unique; [done|]. apply NoDup_nil_2. }
  by apply IH.
Qed.

Lemma match_fact_complete s p t :
  pattern_keys s → apply_to_fact s p = t → is_Some (match_fact p t).
Proof.
  intros Hk <-. unfold match_fact, apply_to_fact. simpl.
  rewrite decide_False by (by intros ?).
  rewrite decide_False by (rewrite length_fmap; by intros ?).
  destruct (match_arguments_complete s (arguments p)
              (apply_to_expression s <$> arguments p) [] Hk eq_refl)
    as (m & -> & _); [|by eexists].
  intros v e H. done.
Qed.

(** X1. A successful [match_expression] returns a substitution that turns
    the pattern into the target. *)
Theorem match_expression_instantiates p t s :
  match_expression p t = Some s → apply_to_expression s p = t.
Proof.
  intros (Hk & _ & Hinst)%match_expression_recursive_sound;
    [|apply pattern_keys_nil].
  apply Hinst; [apply extends_refl|done].
Qed.

Lemma match_expression_instantiates_witness :
  apply_to_expression [("X", Examples.y)]
    (Operation Examples.X "+" (num 3))
  = Operation Examples.y "+" (num 3).
Proof.
  apply match_expression_instantiates. reflexivity.
Defined.

(** X2. A successful [match_fact] returns a substitution that turns the
    pattern fact into the target fact. *)
Theorem match_fact_instantiates p t m :
  match_fact p t = Some m → apply_to_fact m p = t.
Proof.
  intros (Hk & Hinst)%match_fact_sound. apply Hinst; [apply extends_refl|done].
Qed.

Lemma match_fact_instantiates_witness :
  apply_to_fact [("X", Examples.y)] (Examples.eq_ Examples.X (num 5))
  = Examples.eq_ Examples.y (num 5).
Proof.
  apply match_fact_instantiates. reflexivity.
Defined.

Lemma add_mapping_names v e r r' w ew :
  add_mapping v e r = Some r' → (w, ew) ∈ r' → (w, ew) ∈ r ∨ w = v.
Proof.
  unfold add_mapping. destruct (get_mapping v r) as [bound|].
  - case_decide; [|done]. intros [= <-]. auto.
  - intros [= <-] [?|Hw]%elem_of_app; [auto|].
    apply list_elem_of_singleton in Hw. injection Hw as -> _. auto.
Qed.

Lemma merge_names a b c w ew :
  merge a b = Some c → (w, ew) ∈ c → (w, ew) ∈ a ∨ w ∈ b.*1.
Proof.
  unfold merge. revert a. induction b as [|[v e] b IH]; intros a; simpl.
  - intros [= <-]. auto.
  - destruct (add_mapping v e a) as [a'|] eqn:Ha; [|done]. intros Hc Hw.
    destruct (IH a' Hc Hw) as [Hw'|Hw'].
    + destruct (add_mapping_names _ _ _ _ _ _ Ha Hw') as [?| ->]; [auto|].
      right. apply list_elem_of_here.
    + right. by apply list_elem_of_further.
Qed.

Lemma match_expression_recursive_names p t m m' w ew :
  _match_expression_recursive p t m = Some m' → (w, ew) ∈ m' →
  (w, ew) ∈ m ∨ w ∈ variable_names p.
Proof.
  revert t m m'. induction p as [pv|pname|pl IHl pop pr IHr]; intros t m m'.
  - simpl. destruct t; try done. case_decide; [|done]. intros [= <-]. auto.
  - simpl. destruct (is_pattern_variable pname).
    + destruct (get_mapping pname m) as [bound|].
      * case_decide; [|done]. intros [= <-]. auto.
      * intros [= <-] [?|Hw]%elem_of_app; [auto|].
        apply list_elem_of_singleton in Hw. injection Hw as -> _.
        right. apply list_elem_of_here.
    + destruct t; try done. case_decide; [|done]. intros [= <-]. auto.
  - simpl. destruct t as [| |tl top tr]; try done. case_decide; [done|].
    destruct (_match_expression_recursive pl tl m) as [m1|] eqn:Hl; [|done].
    intros Hr Hw. rewrite elem_of_app.
    destruct (IHr _ _ _ Hr Hw) as [Hw'|?]; [|auto].
    destruct (IHl _ _ _ Hl Hw'); auto.
Qed.

Lemma match_arguments_names pargs targs m m' w ew :
  match_arguments pargs targs m = Some m' → (w, ew) ∈ m' →
  (w, ew) ∈ m ∨ w ∈ pargs ≫= variable_names.
Proof.
  revert targs m. induction pargs as [|p pargs IH]; intros [|t targs] m; simpl;
    try (intros [= <-]; auto).
  unfold match_expression.
  destruct (_match_expression_recursive p t []) as [am|] eqn:Ham; [|done].
  destruct (merge m am) as [merged|] eqn:Hmerge; [|done]. intros Hm' Hw.
  rewrite elem_of_app.
  destruct (IH _ _ Hm' Hw) as [Hw'|?]; [|auto].
  destruct (merge_names _ _ _ _ _ Hmerge Hw') as [?|Hk]; [auto|].
  apply list_elem_of_fmap in Hk as ([w' e'] & -> & Hk). simpl.
  destruct (match_expression_recursive_names _ _ _ _ _ _ Ham Hk) as [Hn|?];
    [by apply elem_of_nil in Hn|auto].
Qed.

Lemma match_fact_names p t m w ew :
  match_fact p t = Some m → (w, ew) ∈ m → w ∈ fact_variable_names p.
Proof.
  unfold match_fact. repeat case_decide; try done. intros Hm Hw.
  destruct (match_arguments_names _ _ _ _ _ _ Hm Hw) as [Hn|?]; [|done].
  by apply elem_of_nil in Hn.
Qed.

Lemma match_fact_ascii p t m :
  ascii_fact p → match_fact p t = Some m → ascii_keys m.
Proof.
  intros Hp Hm w ew Hw.
  exact (proj1 (Forall_forall _ _) Hp w (match_fact_names _ _ _ _ _ Hm Hw)).
Qed.

(** X3. For a pattern fact whose variables have ASCII names, [match_fact]
    succeeds exactly when some substitution that binds ASCII names of
    pattern variables turns the pattern fact into the target fact. *)
Theorem match_fact_succeeds_iff p t :
  ascii_fact p →
  is_Some (match_fact p t)
  ↔ ∃ s, pattern_keys s ∧ ascii_keys s ∧ apply_to_fact s p = t.
Proof.
  intros Hp. split.
  - intros [m Hm]. exists m. split_and!.
    + by apply match_fact_sound in Hm as [? _].
    + by eapply match_fact_ascii.
    + apply match_fact_sound in Hm as (Hk & Hinst).
      apply Hinst; [apply extends_refl|done].
  - intros (s & Hk & _ & Ht). by eapply match_fact_complete.
Qed.

Lemma match_fact_succeeds_iff_witness :
  is_Some (match_fact (Examples.eq_ Examples.X Examples.X)
             (Examples.eq_ (num 2) (num 2))).
Proof.
  refine (proj2 (match_fact_succeeds_iff
                   (Examples.eq_ Examples.X Examples.X)
                   (Examples.eq_ (num 2) (num 2)) _) _).
  - apply (bool_decide_eq_true_1 (Forall _ _)). vm_compute. reflexivity.
  - exists [("X", num 2)]. split_and!; [| |reflexivity];
      intros v e H; apply list_elem_of_singleton in H; injection H as -> _;
      reflexivity.
Defined.

Lemma premise_matches_instantiate patterns assignment ms r :
  length assignment = length patterns →
  premise_matches patterns assignment = Some ms →
  merge_all ms = Some r →
  pattern_keys r ∧ Forall2 (instantiates_fact r) patterns assignment.
Proof.
  revert assignment ms r.
  induction patterns as [|p patterns IH]; intros [|t assignment] ms r;
    simpl; try done.
  - intros _ [= <-] [= <-]. split; [apply pattern_keys_nil|constructor].
  - intros [= Hlen].
    destruct (match_fact p t) as [m|] eqn:Hm; [|done]. simpl.
    destruct (premise_matches patterns assignment) as [ms'|] eqn:Hms; [|done].
    simpl. intros [= <-]. simpl.
    destruct (merge_all ms') as [r'|] eqn:Hr'; [|done]. simpl. intros Hmerge.
    destruct (IH assignment ms' r' Hlen Hms Hr') as (Hk' & Hall).
    apply match_fact_sound in Hm as (Hkm & Hinst).
    apply merge_spec in Hmerge as (Hext_m & Hext_r & Hk).
    split; [by apply Hk|]. constructor.
    + exact (instantiates_fact_extends m r p t Hext_m Hinst).
    + eapply Forall2_impl; [exact Hall|]. intros q u Hq.
      exact (instantiates_fact_extends r' r q u Hext_r Hq).
Qed.

Lemma assignment_substitution_instantiates patterns assignment s :
  length assignment = length patterns →
  assignment_substitution patterns assignment = Some s →
  apply_to_fact s <$> patterns = assignment.
Proof.
  unfold assignment_substitution. intros Hlen.
  destruct (premise_matches patterns assignment) as [ms|] eqn:Hms; [|done].
  simpl. intros Hs.
  destruct (premise_matches_instantiate _ _ _ _ Hlen Hms Hs) as (Hk & Hall).
  clear Hlen Hms. induction Hall as [|p t ps ts Hp _ IH]; [done|].
  rewrite fmap_cons. f_equal; [|exact IH].
  apply Hp; [apply extends_refl|done].
Qed.

(** X4. Under a substitution returned by [find_rule_matches], the premises
    of the rule are pairwise distinct facts of the pool. *)
Theorem rule_match_uses_distinct_facts rule_premises available_facts s :
  s ∈ find_rule_matches rule_premises available_facts →
  NoDup (apply_to_fact s <$> rule_premises)
  ∧ Forall (λ f, f ∈ available_facts) (apply_to_fact s <$> rule_premises).
Proof.
  unfold find_rule_matches.
  intros (asg & Hlen & Hnd & Hall & Hs)%elem_of_match_facts_list.
  by rewrite (assignment_substitution_instantiates _ _ _ Hlen Hs).
Qed.

Lemma rule_match_uses_distinct_facts_witness :
  let s := [("X", Examples.a); ("Y", Examples.b); ("Z", Examples.c)] in
  let pool := [Examples.eq_ Examples.a Examples.b;
               Examples.eq_ Examples.b Examples.c] in
  NoDup (apply_to_fact s <$> premises Examples.transitivity_xy_yz)
  ∧ Forall (λ f, f ∈ pool)
      (apply_to_fact s <$> premises Examples.transitivity_xy_yz).
Proof.
  apply rule_match_uses_distinct_facts.
  apply (bool_decide_eq_true_1
           ([("X", Examples.a); ("Y", Examples.b); ("Z", Examples.c)]
              ∈ find_rule_matches (premises Examples.transitivity_xy_yz)
                  [Examples.eq_ Examples.a Examples.b;
                   Examples.eq_ Examples.b Examples.c])).
  vm_compute. reflexivity.
Defined.

(** X5. [Substitution.merge] succeeds exactly when the two substitutions do
    not bind any variable to different expressions. *)
Theorem merge_succeeds_iff a b :
  unique_keys b → is_Some (merge a b) ↔ ¬ conflict a b.
Proof. apply merge_is_Some. Qed.

Lemma merge_succeeds_iff_witness :
  is_Some (merge [("X", Examples.x)] [("Y", num 5)]).
Proof.
  refine (proj2 (merge_succeeds_iff [("X", Examples.x)] [("Y", num 5)] _) _).
  - apply (bool_decide_eq_true_1 (NoDup _)). reflexivity.
  - intros (v & ea & eb & Ha & Hb & _). simpl in Ha, Hb.
    destruct (decide ("X" = v)) as [<-|]; [|discriminate Ha].
    simpl in Hb. discriminate Hb.
Defined.

(** X6. A merged substitution binds a variable as the first substitution
    does, and the variables the first leaves unbound as the second does. *)
Theorem merge_lookup a b c v :
  unique_keys b → merge a b = Some c →
  get_mapping v c
  = match get_mapping v a with
    | Some e => Some e
    | None => get_mapping v b
    end.
Proof.
  intros Hb Hc. pose proof (merge_spec _ _ _ Hc) as (Hexta & Hextb & _).
  destruct (get_mapping v a) as [e|] eqn:Ha; [by apply Hexta|].
  destruct (get_mapping v b) as [e|] eqn:Hvb; [by apply Hextb|].
  destruct (get_mapping v c) as [e|] eqn:Hvc; [|done].
  destruct (merge_origin _ _ _ _ _ Hb Hc Hvc); congruence.
Qed.

Lemma merge_lookup_witness :
  get_mapping "Y" [("X", Examples.x); ("Y", num 5)]
  = match get_mapping "Y" [("X", Examples.x)] with
    | Some e => Some e
    | None => get_mapping "Y" [("Y", num 5)]
    end.
Proof.
  apply (merge_lookup [("X", Examples.x)] [("Y", num 5)]
           [("X", Examples.x); ("Y", num 5)] "Y").
  - apply (bool_decide_eq_true_1 (NoDup _)). reflexivity.
  - reflexivity.
Defined.

(** X7. [add_mapping] answers [True] exactly when the variable is unbound or
    already bound to the same expression; the variable is then bound to the
    expression and every other binding is as before. *)
Theorem add_mapping_lookup v e s :
  (is_Some (add_mapping v e s)
   ↔ get_mapping v s = None ∨ get_mapping v s = Some e)
  ∧ ∀ s', add_mapping v e s = Some s' →
      get_mapping v s' = Some e
      ∧ ∀ w, w ≠ v → get_mapping w s' = get_mapping w s.
Proof.
  split.
  - unfold add_mapping. destruct (get_mapping v s) as [bound|] eqn:Hv.
    + case_decide as Hb.
      * subst bound. split; [auto|by eexists].
      * split; [by intros [? ?]|]. intros [?|[= ?]]; done.
    + split; [auto|by eexists].
  - intros s' Hadd. pose proof (add_mapping_spec _ _ _ _ Hadd) as (_ & Hv & _).
    split; [done|]. intros w Hw.
    unfold add_mapping in Hadd. destruct (get_mapping v s) as [bound|] eqn:Hb.
    + case_decide; [|done]. by injection Hadd as <-.
    + injection Hadd as <-. rewrite get_mapping_app.
      destruct (get_mapping w s); [done|]. simpl. by rewrite decide_False.
Qed.

Lemma add_mapping_lookup_witness :
  get_mapping "X" [("X", Examples.x)] = Some Examples.x
  ∧ ∀ w, w ≠ "X" → get_mapping w [("X", Examples.x)] = get_mapping w [].
Proof.
  apply (proj2 (add_mapping_lookup "X" Examples.x [])). reflexivity.
Defined.

Lemma match_facts_list_uniform_unique patterns targets s :
  s ∈ match_facts_list_uniform patterns targets → unique_keys s.
Proof.
  revert targets s. induction patterns as [|p rest IH]; intros targets s; simpl.
  - intros ->%list_elem_of_singleton. apply NoDup_nil_2.
  - intros (t & Hs & Ht)%list_elem_of_bind.
    destruct (match_fact p t) as [m|] eqn:Hm; [|by apply elem_of_nil in Hs].
    apply list_elem_of_omap in Hs as (r & Hr & Hmerge).
    eapply merge_unique; [done|]. by eapply match_fact_unique.
Qed.

Lemma match_facts_list_uniform_names patterns targets s w ew :
  s ∈ match_facts_list_uniform patterns targets → (w, ew) ∈ s →
  w ∈ patterns ≫= fact_variable_names.
Proof.
  revert targets s ew.
  induction patterns as [|p rest IH]; intros targets s ew; simpl.
  - intros ->%list_elem_of_singleton Hw. by apply elem_of_nil in Hw.
  - intros (t & Hs & Ht)%list_elem_of_bind Hw.
    destruct (match_fact p t) as [m|] eqn:Hm; [|by apply elem_of_nil in Hs].
    apply list_elem_of_omap in Hs as (r & Hr & Hmerge).
    rewrite elem_of_app.
    destruct (merge_names _ _ _ _ _ Hmerge Hw) as [Hw'|Hk].
    + left. by eapply match_fact_names.
    + right. apply list_elem_of_fmap in Hk as ([w' e'] & -> & Hk).
      by eapply IH.
Qed.

(** X8. For a rule whose premises have variables of ASCII names, a
    substitution returned by [find_rule_matches] binds ASCII names of pattern
    variables only, each once, so applying it leaves every ground variable
    of an ASCII name as it is. *)
Theorem rule_match_binds_pattern_variables rule_premises available_facts s :
  Forall ascii_fact rule_premises →
  s ∈ find_rule_matches rule_premises available_facts →
  pattern_keys s ∧ ascii_keys s ∧ unique_keys s
  ∧ ∀ x, is_ascii x = true → is_pattern_variable x = false →
      apply_to_expression s (Variable_ x) = Variable_ x.
Proof.
  unfold find_rule_matches. rewrite match_facts_list_uniform_eq.
  intros Hascii Hs.
  pose proof (match_facts_list_uniform_sound _ _ _ Hs) as (Hk & _).
  split_and!; [done| |by eapply match_facts_list_uniform_unique|].
  - intros w ew Hw.
    pose proof (match_facts_list_uniform_names _ _ _ _ _ Hs Hw) as Hn.
    apply list_elem_of_bind in Hn as (p & Hn & Hp).
    by apply (proj1 (Forall_forall _ _)
                (proj1 (Forall_forall _ _) Hascii p Hp)).
  - intros x _ Hx. simpl. destruct (get_mapping x s) as [e|] eqn:He; [|done].
    apply get_mapping_elem, Hk in He. congruence.
Qed.

Lemma rule_match_binds_pattern_variables_witness :
  let s := [("X", Examples.a); ("Y", Examples.b)] in
  pattern_keys s ∧ ascii_keys s ∧ unique_keys s
  ∧ ∀ x, is_ascii x = true → is_pattern_variable x = false →
      apply_to_expression s (Variable_ x) = Variable_ x.
Proof.
  apply (rule_match_binds_pattern_variables (premises Examples.rule1)
           [Examples.eq_ Examples.a Examples.b]).
  - apply (bool_decide_eq_true_1
             (Forall (λ f, Forall (λ name, is_ascii name = true)
                             (fact_variable_names f))
                (premises Examples.rule1))).
    vm_compute. reflexivity.
  - apply (bool_decide_eq_true_1
             ([("X", Examples.a); ("Y", Examples.b)]
                ∈ find_rule_matches (premises Examples.rule1)
                    [Examples.eq_ Examples.a Examples.b])).
    vm_compute. reflexivity.
Defined.

Lemma apply_to_expression_empty e : apply_to_expression [] e = e.
Proof. induction e as [v|x|l IHl op r IHr]; simpl; [done..|]. by rewrite IHl, IHr. Qed.

(** X9. The empty substitution leaves every expression and every fact as
    it is. *)
Theorem empty_substitution_is_identity :
  (∀ e, apply_to_expression [] e = e) ∧ (∀ f, apply_to_fact [] f = f).
Proof.
  split; [apply apply_to_expression_empty|]. intros [p args].
  unfold apply_to_fact. simpl. f_equal.
  induction args as [|arg args IH]; [done|].
  rewrite fmap_cons. by rewrite apply_to_expression_empty, IH.
Qed.

(** X10. A rule that can be applied to a set of facts can be applied to
    every larger set, with every match it had. *)
Theorem can_apply_rule_monotone rule facts facts' :
  (∀ f, f ∈ facts → f ∈ facts') →
  (∀ s, s ∈ find_rule_matches (premises rule) facts →
        s ∈ find_rule_matches (premises rule) facts')
  ∧ (can_apply_rule rule facts = true → can_apply_rule rule facts' = true).
Proof.
  intros Hsub.
  assert (Hmono : ∀ s, s ∈ find_rule_matches (premises rule) facts →
                       s ∈ find_rule_matches (premises rule) facts')
    by (intros s; by apply match_facts_list_mono).
  split; [done|]. unfold can_apply_rule.
  intros Hcan%bool_decide_eq_true. apply bool_decide_eq_true.
  destruct (find_rule_matches (premises rule) facts) as [|s0 others] eqn:Hm;
    [simpl in Hcan; lia|].
  specialize (Hmono s0 (list_elem_of_here _ _)).
  destruct (find_rule_matches (premises rule) facts'); [|simpl; lia].
  by apply elem_of_nil in Hmono.
Qed.

Lemma can_apply_rule_monotone_witness :
  can_apply_rule Examples.rule1
    [Examples.eq_ Examples.a Examples.b; Examples.gt_ Examples.a (num 0)]
  = true.
Proof.
  refine (proj2 (can_apply_rule_monotone Examples.rule1
                   [Examples.eq_ Examples.a Examples.b] _ _) _).
  - intros f Hf. apply list_elem_of_singleton in Hf. subst f.
    apply list_elem_of_here.
  - reflexivity.
Defined.

(** X11. [apply_rule] returns exactly the conclusions of the matches of the
    rule that are not yet among the facts; for a rule that cannot be applied
    it returns nothing. *)
Theorem apply_rule_gives_new_conclusions rule available_facts :
  (∀ new_fact,
     new_fact ∈ apply_rule rule available_facts
     ↔ (new_fact ∉ available_facts)
       ∧ (∃ s, s ∈ find_rule_matches (premises rule) available_facts
               ∧ apply_to_fact s (conclusion rule) = new_fact))
  ∧ (can_apply_rule rule available_facts = false →
     apply_rule rule available_facts = []).
Proof.
  split.
  - intros new_fact. split; [apply elem_of_apply_rule|].
    intros (Hnew & s & Hs & <-). unfold apply_rule.
    apply list_elem_of_filter. split; [done|].
    apply list_elem_of_fmap. by exists s.
  - apply apply_rule_nil_of_cannot.
Qed.

Lemma apply_rule_gives_new_conclusions_witness :
  apply_rule Examples.rule2 [Examples.eq_ Examples.a Examples.b] = [].
Proof.
  apply apply_rule_gives_new_conclusions. reflexivity.
Defined.

(** * Further properties of the forward chainer *)

Section GoalFlag.

Context (goal : Fact) (self_max_facts : Z) (elapsed : Qc).

Lemma new_facts_loop_goal rule iteration new_facts st :
  goal ∉ current_facts st →
  match new_facts_loop goal self_max_facts elapsed rule iteration new_facts st
  with
  | Next st' => goal ∉ current_facts st'
  | Return _ r _ => goal_achieved r = bool_decide (goal ∈ final_facts r)
  end.
Proof.
  revert st. induction new_facts as [|new_fact rest IH]; intros st Hg; simpl.
  - done.
  - destruct (decide (new_fact ∈ current_facts st)); [by apply IH|].
    destruct (decide (new_fact = goal)) as [->|Hne].
    + simpl. symmetry. apply bool_decide_eq_true, elem_of_app. right.
      apply list_elem_of_here.
    + assert (Hg' : goal ∉ current_facts st ++ [new_fact]).
      { rewrite elem_of_app, list_elem_of_singleton. intros [?|?]; auto. }
      case_decide; [|by apply IH]. simpl. symmetry.
      by apply bool_decide_eq_false.
Qed.

Lemma rules_loop_goal iteration rules st :
  goal ∉ current_facts st →
  match rules_loop goal self_max_facts elapsed iteration rules st with
  | Next st' => goal ∉ current_facts st'
  | Return _ r _ => goal_achieved r = bool_decide (goal ∈ final_facts r)
  end.
Proof.
  revert st. induction rules as [|rule rest IH]; intros st Hg; simpl.
  - done.
  - destruct (can_apply_rule rule (current_facts st)); simpl; [|by apply IH].
    pose proof (new_facts_loop_goal rule iteration
                  (apply_rule rule (current_facts st)) st Hg) as Hnf.
    destruct (new_facts_loop _ _ _ _ _ _ _) as [st'|tag r st']; [|done].
    by apply IH.
Qed.

Lemma iterations_loop_goal rules range st :
  goal ∉ current_facts st →
  let r := (iterations_loop goal self_max_facts elapsed rules range st).1.2 in
  goal_achieved r = bool_decide (goal ∈ final_facts r).
Proof.
  revert st. induction range as [|iteration range' IH]; intros st Hg; simpl.
  - symmetry. by apply bool_decide_eq_false.
  - match goal with
    | |- context [rules_loop ?g ?m ?e ?i ?rs ?s0] =>
        pose proof (rules_loop_goal i rs s0 Hg) as Hr;
        destruct (rules_loop g m e i rs s0) as [st'|tag r st']
    end; [|done].
    case_decide; [|by apply IH]. simpl. symmetry. by apply bool_decide_eq_false.
Qed.

Lemma rules_loop_saturated iteration rules st :
  Forall (λ rule, apply_rule rule (current_facts st) = []) rules →
  rules_loop goal self_max_facts elapsed iteration rules st = Next st.
Proof.
  induction 1 as [|rule rest Hrule _ IH]; simpl; [done|].
  destruct (can_apply_rule rule (current_facts st)); simpl; [|done].
  by rewrite Hrule.
Qed.

Lemma new_facts_loop_return_iterations rule iteration new_facts st tag r st' :
  new_facts_loop goal self_max_facts elapsed rule iteration new_facts st
    = Return tag r st' →
  iterations_used r = iteration + 1.
Proof.
  revert st. induction new_facts as [|new_fact rest IH]; intros st; simpl.
  - done.
  - repeat case_decide; try apply IH; by intros [= <- <- <-].
Qed.

Lemma rules_loop_return_iterations iteration rules st tag r st' :
  rules_loop goal self_max_facts elapsed iteration rules st = Return tag r st' →
  iterations_used r = iteration + 1.
Proof.
  revert st. induction rules as [|rule rest IH]; intros st; simpl.
  - done.
  - destruct (can_apply_rule rule (current_facts st)); simpl; [|apply IH].
    destruct (new_facts_loop _ _ _ _ _ _ _) as [st1|tag1 r1 st1] eqn:Hnf.
    + apply IH.
    + intros [= <- <- <-]. by eapply new_facts_loop_return_iterations.
Qed.

Lemma iterations_loop_at_least rules n k st :
  iterations (local_stats st) = k →
  k ≤ iterations_used
        (iterations_loop goal self_max_facts elapsed rules (seq k n) st).1.2.
Proof.
  revert k st. induction n as [|n IH]; intros k st Hk; simpl; [lia|].
  match goal with
  | |- context [rules_loop ?g ?m ?e ?i ?rs ?s0] =>
      pose proof (rules_loop_iterations g m e i rs s0) as Hit;
      destruct (rules_loop g m e i rs s0) as [st'|tag r st'] eqn:Hr
  end; simpl in Hit.
  - case_decide; simpl; [lia|]. specialize (IH (S k) st'). lia.
  - simpl. apply rules_loop_return_iterations in Hr. lia.
Qed.

Lemma iterations_loop_at_least_one rules n k st :
  k + 1 ≤ iterations_used
            (iterations_loop goal self_max_facts elapsed rules
               (seq k (S n)) st).1.2.
Proof.
  simpl.
  match goal with
  | |- context [rules_loop ?g ?m ?e ?i ?rs ?s0] =>
      pose proof (rules_loop_iterations g m e i rs s0) as Hit;
      destruct (rules_loop g m e i rs s0) as [st'|tag r st'] eqn:Hr
  end; simpl in Hit.
  - case_decide; simpl; [lia|].
    pose proof (iterations_loop_at_least rules n (S k) st'). lia.
  - simpl. apply rules_loop_return_iterations in Hr. lia.
Qed.

End GoalFlag.

Section Progress.

Context (goal : Fact) (self_max_facts : Z) (elapsed : Qc).
Context (initial_facts : list Fact).

Lemma iterations_loop_progress rules n k st :
  trace_inv initial_facts st → within_limit self_max_facts st →
  iterations (local_stats st) = k → k ≤ length (proof_steps st) →
  let r := (iterations_loop goal self_max_facts elapsed rules (seq k n) st).1.2
  in iterations_used r ≤ length (steps r) + 1.
Proof.
  revert k st. induction n as [|n IH]; intros k st Htr Hlim Hit Hk; simpl.
  - lia.
  - set (st1 := MkLocals (current_facts st) (proof_steps st)
                  (MkStats (k + 1) (rules_applied (local_stats st))
                     (facts_derived (local_stats st))
                     (rule_applications (local_stats st)))).
    assert (Htr1 : trace_inv initial_facts st1) by done.
    assert (Hlim1 : within_limit self_max_facts st1) by done.
    pose proof (rules_loop_ok goal self_max_facts elapsed initial_facts k
                  rules st1 Htr1 Hlim1) as Hok.
    pose proof (rules_loop_iterations goal self_max_facts elapsed k rules st1)
      as Hiter.
    pose proof (rules_loop_prefix goal self_max_facts elapsed k rules st1)
      as Hpre.
    destruct (rules_loop _ _ _ _ _ _) as [st'|tag r st']; simpl in *.
    + destruct Hok as [Htr' Hlim']. apply prefix_length in Hpre.
      unfold trace_inv in Htr, Htr'. rewrite Htr, Htr' in Hpre.
      rewrite !length_app, !length_fmap in Hpre.
      case_decide as Hsame; simpl.
      * rewrite Htr, Htr' in Hsame.
        rewrite !length_app, !length_fmap in Hsame. lia.
      * rewrite Htr, Htr' in Hsame.
        rewrite !length_app, !length_fmap in Hsame.
        apply (IH (S k) st'); [done|done|lia|lia].
    + destruct Hok as (Htr' & _ & Hs & _ & Hi & _). apply prefix_length in Hpre.
      unfold trace_inv in Htr, Htr'. rewrite Htr, Htr' in Hpre.
      rewrite !length_app, !length_fmap in Hpre. rewrite Hs, Hi. lia.
Qed.

End Progress.

Lemma steps_sound_snoc_inv rules initial_facts steps step :
  steps_sound rules initial_facts (steps ++ [step]) →
  steps_sound rules initial_facts steps
  ∧ step_sound rules (initial_facts ++ (derived_fact <$> steps))
      (length steps) step.
Proof.
  intros Hs. split.
  - intros k st Hk. pose proof (lookup_lt_Some _ _ _ Hk) as Hlt.
    specialize (Hs k st). rewrite lookup_app_l, take_app_le in Hs by lia.
    by apply Hs.
  - specialize (Hs (length steps) step).
    rewrite lookup_app_r, Nat.sub_diag, take_app_length in Hs by lia.
    by apply Hs.
Qed.

Lemma steps_sound_derivable rules initial_facts steps f :
  steps_sound rules initial_facts steps →
  f ∈ initial_facts ++ (derived_fact <$> steps) →
  derivable rules initial_facts f.
Proof.
  revert f. induction steps as [|step steps IH] using rev_ind; intros f Hs.
  - simpl. rewrite app_nil_r. apply derivable_initial.
  - apply steps_sound_snoc_inv in Hs as [Hs Hstep].
    rewrite fmap_app, (assoc_L (++)). simpl.
    intros [Hf|Hf]%elem_of_app; [by apply IH|].
    apply list_elem_of_singleton in Hf. subst f.
    destruct Hstep as (_ & Hrule & _ & _ & s & Hmatch & <-).
    apply derivable_rule; [done|]. intros p Hp. apply IH; [done|].
    apply find_rule_matches_premises in Hmatch.
    by apply (proj1 (Forall_forall _ _) Hmatch).
Qed.

(** X12. Every step of a proof is sound: its rule is one of the rules
    given, the premises it lists are facts of the working set at the moment
    of its creation, and the fact it derives is new and is the conclusion of
    its rule under some match of the rule's premises in that working set. *)
Theorem proof_steps_are_sound self clock goal initial_facts rules k step :
  let r := prove self clock goal initial_facts rules in
  steps r !! k = Some step →
  let working_set := initial_facts ++ (derived_fact <$> take k (steps r)) in
  rule_applied step ∈ rules
  ∧ Forall (λ f, f ∈ working_set) (premises_used step)
  ∧ (derived_fact step ∉ working_set)
  ∧ (∃ s, s ∈ find_rule_matches (premises (rule_applied step)) working_set
          ∧ apply_to_fact s (conclusion (rule_applied step))
            = derived_fact step).
Proof.
  intros r Hk.
  by destruct (prove_steps_sound self clock goal initial_facts rules k step Hk)
    as (_ & ? & ? & ? & ?).
Qed.

Lemma proof_steps_are_sound_witness :
  let initial_facts := [Examples.eq_ Examples.a Examples.b] in
  let step := MkProofStep Examples.rule2 [Examples.gt_ Examples.a (num 0)]
                (Examples.positive_ Examples.a) 2 in
  let working_set := initial_facts ++ [Examples.gt_ Examples.a (num 0)] in
  rule_applied step ∈ [Examples.rule1; Examples.rule2]
  ∧ Forall (λ f, f ∈ working_set) (premises_used step)
  ∧ (derived_fact step ∉ working_set)
  ∧ (∃ s, s ∈ find_rule_matches (premises (rule_applied step)) working_set
          ∧ apply_to_fact s (conclusion (rule_applied step))
            = derived_fact step).
Proof.
  apply (proof_steps_are_sound Examples.chainer Examples.clock
           (Examples.positive_ Examples.a)
           [Examples.eq_ Examples.a Examples.b]
           [Examples.rule1; Examples.rule2] 1).
  vm_compute. reflexivity.
Defined.

(** X13. The steps of a proof are numbered from one, in order. *)
Theorem proof_steps_are_numbered self clock goal initial_facts rules k step :
  steps (prove self clock goal initial_facts rules) !! k = Some step →
  step_number step = k + 1.
Proof.
  intros Hk.
  by destruct (prove_steps_sound self clock goal initial_facts rules k step Hk)
    as (? & _).
Qed.

Lemma proof_steps_are_numbered_witness :
  step_number (MkProofStep Examples.rule2 [Examples.gt_ Examples.a (num 0)]
                 (Examples.positive_ Examples.a) 2) = 1 + 1.
Proof.
  apply (proof_steps_are_numbered Examples.chainer Examples.clock
           (Examples.positive_ Examples.a)
           [Examples.eq_ Examples.a Examples.b]
           [Examples.rule1; Examples.rule2] 1).
  vm_compute. reflexivity.
Defined.

(** X14. The flag [goal_achieved] is set exactly when the goal is among the
    final facts. *)
Theorem goal_achieved_iff_goal_in_final_facts
    self clock goal initial_facts rules :
  let r := prove self clock goal initial_facts rules in
  goal_achieved r = true ↔ goal ∈ final_facts r.
Proof.
  simpl. unfold prove, run. simpl. case_decide as Hin; [done|].
  pose proof (iterations_loop_goal goal (max_facts self)
                (Qcminus (time_at_return clock) (time_at_start clock))
                rules (seq 0 (Z.to_nat (max_iterations self)))
                (MkLocals initial_facts [] reset_statistics) Hin) as Hg.
  destruct (iterations_loop _ _ _ _ _ _) as [[tag r] st]. simpl in *.
  rewrite Hg. apply bool_decide_eq_true.
Qed.

(** X15. No fact is derived twice: when the initial facts are distinct, so
    are the final facts, the initial facts followed by the derived facts of
    the steps. *)
Theorem derived_facts_are_new self clock goal initial_facts rules :
  NoDup initial_facts →
  let r := prove self clock goal initial_facts rules in
  final_facts r = initial_facts ++ (derived_fact <$> steps r)
  ∧ NoDup (final_facts r).
Proof.
  intros Hnd. split; [|by apply final_facts_NoDup].
  pose proof (run_ok self clock goal initial_facts rules) as Hok.
  unfold prove.
  destruct (run self clock goal initial_facts rules) as [[tag r] self'].
  by destruct Hok as (? & _).
Qed.

Lemma derived_facts_are_new_witness :
  let r := prove Examples.chainer Examples.clock
             (Examples.positive_ Examples.a)
             [Examples.eq_ Examples.a Examples.b]
             [Examples.rule1; Examples.rule2] in
  final_facts r
  = [Examples.eq_ Examples.a Examples.b] ++ (derived_fact <$> steps r)
  ∧ NoDup (final_facts r).
Proof.
  apply derived_facts_are_new. apply NoDup_singleton.
Defined.

(** X16. Every fact of the final facts follows from the initial facts by
    the rules given. *)
Theorem final_facts_are_derivable self clock goal initial_facts rules f :
  f ∈ final_facts (prove self clock goal initial_facts rules) →
  derivable rules initial_facts f.
Proof.
  pose proof (prove_steps_sound self clock goal initial_facts rules) as Hs.
  pose proof (run_ok self clock goal initial_facts rules) as Hok.
  unfold prove in *.
  destruct (run self clock goal initial_facts rules) as [[tag r] self'].
  destruct Hok as (Hf & _). simpl in *. rewrite Hf.
  by apply steps_sound_derivable.
Qed.

Lemma final_facts_are_derivable_witness :
  derivable [Examples.rule1; Examples.rule2]
    [Examples.eq_ Examples.a Examples.b] (Examples.positive_ Examples.a).
Proof.
  apply (final_facts_are_derivable Examples.chainer Examples.clock
           (Examples.positive_ Examples.a)).
  apply (bool_decide_eq_true_1 (_ ∈ _)). vm_compute. reflexivity.
Defined.

Lemma applications_snoc rule_name steps step :
  applications rule_name (steps ++ [step])
  = applications rule_name steps
    + (if decide (name (rule_applied step) = rule_name) then 1 else 0).
Proof.
  unfold applications. rewrite filter_app, length_app. f_equal.
  rewrite filter_cons, filter_nil. by case_decide.
Qed.

Lemma count_application_match rule s steps step :
  rule_applied step = rule → stats_match s steps →
  stats_match (count_application (name rule) s) (steps ++ [step]).
Proof.
  intros Hrule (Hd & Ha & Hn). unfold stats_match, count_application. simpl.
  rewrite length_app. simpl. split_and!; [lia..|].
  intros n. rewrite applications_snoc, Hrule.
  destruct (decide (name rule = n)) as [<-|Hne].
  - rewrite lookup_insert_eq. simpl. by rewrite Hn.
  - rewrite lookup_insert_ne by done. rewrite Hn. lia.
Qed.

Section Statistics.

Context (goal : Fact) (self_max_facts : Z) (elapsed : Qc).

Local Abbreviation counted st :=
  (stats_match (local_stats st) (proof_steps st)).

Lemma new_facts_loop_stats rule iteration new_facts st :
  counted st →
  counted (flow_locals
    (new_facts_loop goal self_max_facts elapsed rule iteration new_facts st)).
Proof.
  revert st. induction new_facts as [|new_fact rest IH]; intros st Hst; simpl.
  - done.
  - destruct (decide (new_fact ∈ current_facts st)); [by apply IH|].
    assert (Hst' : stats_match (count_application (name rule) (local_stats st))
                     (proof_steps st
                        ++ [_create_proof_step rule (current_facts st) new_fact
                              (length (proof_steps st) + 1)]))
      by (by apply count_application_match).
    repeat case_decide; simpl; try done. by apply IH.
Qed.

Lemma rules_loop_stats iteration rules st :
  counted st →
  counted (flow_locals
    (rules_loop goal self_max_facts elapsed iteration rules st)).
Proof.
  revert st. induction rules as [|rule rest IH]; intros st Hst; simpl.
  - done.
  - destruct (can_apply_rule rule (current_facts st)); simpl; [|by apply IH].
    pose proof (new_facts_loop_stats rule iteration
                  (apply_rule rule (current_facts st)) st Hst) as Hnf.
    destruct (new_facts_loop _ _ _ _ _ _ _) as [st'|tag r st']; simpl in *;
      [by apply IH|done].
Qed.

Lemma iterations_loop_stats rules range st :
  counted st →
  let '(_, r, st') :=
    iterations_loop goal self_max_facts elapsed rules range st in
  stats_match (local_stats st') (steps r)
  ∧ iterations (local_stats st') = iterations_used r.
Proof.
  revert st. induction range as [|iteration range' IH]; intros st Hst; simpl.
  - done.
  - match goal with
    | |- context [rules_loop ?g ?m ?e ?i ?rs ?s0] =>
        pose proof (rules_loop_stats i rs s0 Hst) as Hc;
        pose proof (rules_loop_iterations g m e i rs s0) as Hit;
        destruct (rules_loop g m e i rs s0) as [st'|tag r st'] eqn:Hr
    end; simpl in Hc, Hit.
    + case_decide; [done|by apply IH].
    + pose proof (rules_loop_returns _ _ _ _ _ _ _ _ _ Hr) as [_ Hs].
      apply rules_loop_return_iterations in Hr. rewrite Hs, Hr, Hit. done.
Qed.

End Statistics.

(** X17. After a call the statistics of the chainer agree with the result:
    [facts_derived] and [rules_applied] are the number of steps,
    [iterations] is [iterations_used], and [rule_applications] counts, for
    each rule name, the steps that applied a rule of that name. *)
Theorem statistics_agree_with_result self clock goal initial_facts rules :
  let '(_, r, self') := run self clock goal initial_facts rules in
  facts_derived (stats self') = length (steps r)
  ∧ rules_applied (stats self') = length (steps r)
  ∧ iterations (stats self') = iterations_used r
  ∧ ∀ rule_name,
      default 0 (rule_applications (stats self') !! rule_name)
      = applications rule_name (steps r).
Proof.
  unfold run. simpl. case_decide.
  - simpl. split_and!; try done.
  - pose proof (iterations_loop_stats goal (max_facts self)
                  (Qcminus (time_at_return clock) (time_at_start clock))
                  rules (seq 0 (Z.to_nat (max_iterations self)))
                  (MkLocals initial_facts [] reset_statistics)) as Hloop.
    destruct (iterations_loop _ _ _ _ _ _) as [[tag r] st]. simpl.
    destruct Hloop as ((? & ? & ?) & ?); [|done].
    split_and!; try done.
Qed.

(** X18. Every iteration but the last derives at least one fact: the
    iterations used are at most one more than the steps; and a search that
    starts is charged at least one iteration. *)
Theorem iterations_bounded_by_steps self clock goal initial_facts rules :
  let r := prove self clock goal initial_facts rules in
  iterations_used r ≤ length (steps r) + 1
  ∧ (goal ∉ initial_facts → (0 < max_iterations self)%Z →
     1 ≤ iterations_used r).
Proof.
  simpl. unfold prove, run. simpl. case_decide as Hin.
  - simpl. split; [lia|done].
  - split.
    + pose proof (iterations_loop_progress goal (max_facts self)
                    (Qcminus (time_at_return clock) (time_at_start clock))
                    initial_facts rules (Z.to_nat (max_iterations self)) 0
                    (MkLocals initial_facts [] reset_statistics)) as Hp.
      destruct (iterations_loop _ _ _ _ _ _) as [[tag r] st]. simpl in *.
      apply Hp; try done.
      * unfold trace_inv. simpl. by rewrite app_nil_r.
      * by left.
    + intros _ Hpos.
      destruct (Z.to_nat (max_iterations self)) as [|n] eqn:Hn; [lia|].
      pose proof (iterations_loop_at_least_one goal (max_facts self)
                    (Qcminus (time_at_return clock) (time_at_start clock))
                    rules n 0 (MkLocals initial_facts [] reset_statistics))
        as Hone.
      destruct (iterations_loop _ _ _ _ _ _) as [[tag r] st]. simpl in *. lia.
Qed.

Lemma iterations_bounded_by_steps_witness :
  1 ≤ iterations_used
        (prove Examples.chainer Examples.clock
           (Examples.eq_ Examples.x (num 10))
           [Examples.eq_ Examples.y (num 5)] []).
Proof.
  refine (proj2 (iterations_bounded_by_steps Examples.chainer Examples.clock
                   (Examples.eq_ Examples.x (num 10))
                   [Examples.eq_ Examples.y (num 5)] []) _ _).
  - apply (bool_decide_eq_false_1 (_ ∈ _)). vm_compute. reflexivity.
  - reflexivity.
Defined.

(** X19. With [max_iterations] zero or negative the search does not start:
    unless the goal is an initial fact, the result has no steps, the initial
    facts as final facts, no iteration, and reports no proof. *)
Theorem no_iterations_no_search self clock goal initial_facts rules :
  (max_iterations self ≤ 0)%Z → goal ∉ initial_facts →
  let r := prove self clock goal initial_facts rules in
  steps r = [] ∧ final_facts r = initial_facts ∧ iterations_used r = 0
  ∧ success r = true ∧ goal_achieved r = false ∧ error_message r = None
  ∧ prove_outcome self clock goal initial_facts rules = IterationLimit.
Proof.
  intros Hmax Hgoal. simpl. unfold prove, prove_outcome, run. simpl.
  rewrite decide_False by done.
  replace (Z.to_nat (max_iterations self)) with 0 by lia. done.
Qed.

Lemma no_iterations_no_search_witness :
  let r := prove (new_ForwardChainer 0 1000) Examples.clock
             (Examples.gt_ Examples.a (num 0))
             [Examples.eq_ Examples.a Examples.b] [Examples.rule1] in
  steps r = [] ∧ final_facts r = [Examples.eq_ Examples.a Examples.b]
  ∧ iterations_used r = 0
  ∧ success r = true ∧ goal_achieved r = false ∧ error_message r = None
  ∧ prove_outcome (new_ForwardChainer 0 1000) Examples.clock
      (Examples.gt_ Examples.a (num 0))
      [Examples.eq_ Examples.a Examples.b] [Examples.rule1] = IterationLimit.
Proof.
  apply no_iterations_no_search.
  - reflexivity.
  - apply (bool_decide_eq_false_1 (_ ∈ _)). vm_compute. reflexivity.
Defined.

(** X20. When no rule gives a new fact from the initial facts (in
    particular when there are no rules) and the goal is not an initial fact,
    a search that may start stops after one iteration, stuck, with no steps
    and the initial facts unchanged. *)
Theorem saturated_input_is_stuck self clock goal initial_facts rules :
  (0 < max_iterations self)%Z → goal ∉ initial_facts →
  Forall (λ rule, apply_rule rule initial_facts = []) rules →
  let r := prove self clock goal initial_facts rules in
  steps r = [] ∧ final_facts r = initial_facts ∧ iterations_used r = 1
  ∧ success r = true ∧ goal_achieved r = false ∧ error_message r = None
  ∧ prove_outcome self clock goal initial_facts rules = Stuck.
Proof.
  intros Hmax Hgoal Hsat. simpl. unfold prove, prove_outcome, run. simpl.
  rewrite decide_False by done.
  destruct (Z.to_nat (max_iterations self)) as [|n] eqn:Hn; [lia|].
  simpl. rewrite rules_loop_saturated by done.
  by rewrite decide_True.
Qed.

Lemma saturated_input_is_stuck_witness :
  let r := prove Examples.chainer Examples.clock
             (Examples.eq_ Examples.x (num 10))
             [Examples.eq_ Examples.y (num 5)] [Examples.rule2] in
  steps r = [] ∧ final_facts r = [Examples.eq_ Examples.y (num 5)]
  ∧ iterations_used r = 1
  ∧ success r = true ∧ goal_achieved r = false ∧ error_message r = None
  ∧ prove_outcome Examples.chainer Examples.clock
      (Examples.eq_ Examples.x (num 10))
      [Examples.eq_ Examples.y (num 5)] [Examples.rule2] = Stuck.
Proof.
  apply saturated_input_is_stuck.
  - reflexivity.
  - apply (bool_decide_eq_false_1 (_ ∈ _)). vm_compute. reflexivity.
  - apply (bool_decide_eq_true_1 (Forall _ _)). vm_compute. reflexivity.
Defined.

Section LastStep.

Context (goal : Fact) (self_max_facts : Z) (elapsed : Qc).

Lemma new_facts_loop_last rule iteration new_facts st :
  goal ∉ current_facts st →
  match new_facts_loop goal self_max_facts elapsed rule iteration new_facts st
  with
  | Next st' => goal ∉ current_facts st'
  | Return _ r _ => ends_with_goal goal r
  end.
Proof.
  revert st. induction new_facts as [|new_fact rest IH]; intros st Hg; simpl.
  - done.
  - destruct (decide (new_fact ∈ current_facts st)); [by apply IH|].
    destruct (decide (new_fact = goal)) as [->|Hne].
    + intros _. simpl. by eexists _, _, _.
    + assert (Hg' : goal ∉ current_facts st ++ [new_fact]).
      { rewrite elem_of_app, list_elem_of_singleton. intros [?|?]; auto. }
      case_decide; [|by apply IH]. by intros ?.
Qed.

Lemma rules_loop_last iteration rules st :
  goal ∉ current_facts st →
  match rules_loop goal self_max_facts elapsed iteration rules st with
  | Next st' => goal ∉ current_facts st'
  | Return _ r _ => ends_with_goal goal r
  end.
Proof.
  revert st. induction rules as [|rule rest IH]; intros st Hg; simpl.
  - done.
  - destruct (can_apply_rule rule (current_facts st)); simpl; [|by apply IH].
    pose proof (new_facts_loop_last rule iteration
                  (apply_rule rule (current_facts st)) st Hg) as Hnf.
    destruct (new_facts_loop _ _ _ _ _ _ _) as [st'|tag r st']; [|done].
    by apply IH.
Qed.

Lemma iterations_loop_last rules range st :
  goal ∉ current_facts st →
  ends_with_goal goal
    (iterations_loop goal self_max_facts elapsed rules range st).1.2.
Proof.
  revert st. induction range as [|iteration range' IH]; intros st Hg; simpl.
  - by intros ?.
  - match goal with
    | |- context [rules_loop ?g ?m ?e ?i ?rs ?s0] =>
        pose proof (rules_loop_last i rs s0 Hg) as Hr;
        destruct (rules_loop g m e i rs s0) as [st'|tag r st']
    end; [|done].
    case_decide; [|by apply IH]. by intros ?.
Qed.

End LastStep.

(** X21. A search stops at the first derivation of the goal: when the
    result reports the goal, either the goal was an initial fact and there
    are no steps, or the last step derives the goal and the goal was not in
    the working set before that step. *)
Theorem proof_ends_with_goal self clock goal initial_facts rules :
  let r := prove self clock goal initial_facts rules in
  goal_achieved r = true →
  (goal ∈ initial_facts ∧ steps r = [])
  ∨ (∃ before step,
       steps r = before ++ [step] ∧ derived_fact step = goal
       ∧ goal ∉ initial_facts ++ (derived_fact <$> before)).
Proof.
  simpl. unfold prove.
  pose proof (run_ok self clock goal initial_facts rules) as Hok.
  unfold run in *. simpl in *.
  destruct (decide (goal ∈ initial_facts)) as [Hin|Hnin]; [by left|].
  pose proof (iterations_loop_last goal (max_facts self)
                (Qcminus (time_at_return clock) (time_at_start clock))
                rules (seq 0 (Z.to_nat (max_iterations self)))
                (MkLocals initial_facts [] reset_statistics) Hnin) as Hlast.
  destruct (iterations_loop _ _ _ _ _ _) as [[tag r] st]. simpl in *.
  destruct Hok as (Hf & _). intros Hg. right.
  destruct (Hlast Hg) as (before & step & facts_before & Hs & Hd & Hff & Hb).
  exists before, step. split_and!; try done.
  rewrite Hs, fmap_app, app_assoc in Hf. simpl in Hf. rewrite Hd, Hff in Hf.
  apply app_inj_tail in Hf as [<- _]. done.
Qed.

Lemma proof_ends_with_goal_witness :
  let r := prove Examples.chainer Examples.clock
             (Examples.positive_ Examples.a)
             [Examples.eq_ Examples.a Examples.b]
             [Examples.rule1; Examples.rule2] in
  (Examples.positive_ Examples.a ∈ [Examples.eq_ Examples.a Examples.b]
   ∧ steps r = [])
  ∨ (∃ before step,
       steps r = before ++ [step]
       ∧ derived_fact step = Examples.positive_ Examples.a
       ∧ Examples.positive_ Examples.a
         ∉ [Examples.eq_ Examples.a Examples.b] ++ (derived_fact <$> before)).
Proof.
  apply (proof_ends_with_goal Examples.chainer Examples.clock
           (Examples.positive_ Examples.a)
           [Examples.eq_ Examples.a Examples.b]
           [Examples.rule1; Examples.rule2]).
  vm_compute. reflexivity.
Defined.

Lemma prove_saturated self clock goal facts rules :
  (0 < max_iterations self)%Z → goal ∉ facts →
  Forall (λ rule, apply_rule rule facts = []) rules →
  steps (prove self clock goal facts rules) = []
  ∧ final_facts (prove self clock goal facts rules) = facts
  ∧ iterations_used (prove self clock goal facts rules) = 1
  ∧ prove_outcome self clock goal facts rules = Stuck.
Proof.
  intros Hmax Hgoal Hsat. unfold prove, prove_outcome, run. simpl.
  rewrite decide_False by done.
  destruct (Z.to_nat (max_iterations self)) as [|n] eqn:Hn; [lia|].
  simpl. rewrite rules_loop_saturated by done.
  by rewrite decide_True.
Qed.

(** X22. A stuck search has reached a fixed point of the rules: a second
    search from its final facts, with the same rules and for any goal that
    is not among them, by any chainer that may start, derives nothing and
    is stuck after one iteration. *)
Theorem stuck_search_is_fixed_point
    self clock goal initial_facts rules self2 clock2 goal2 :
  let r := prove self clock goal initial_facts rules in
  prove_outcome self clock goal initial_facts rules = Stuck →
  (0 < max_iterations self2)%Z → goal2 ∉ final_facts r →
  let r2 := prove self2 clock2 goal2 (final_facts r) rules in
  steps r2 = [] ∧ final_facts r2 = final_facts r ∧ iterations_used r2 = 1
  ∧ prove_outcome self2 clock2 goal2 (final_facts r) rules = Stuck.
Proof.
  intros r Hstuck Hmax Hgoal. apply prove_saturated; try done.
  subst r. unfold prove, prove_outcome in *.
  destruct (run self clock goal initial_facts rules) as [[tag r] self']
    eqn:Hrun.
  simpl in *. subst tag. by eapply run_stuck.
Qed.

Lemma stuck_search_is_fixed_point_witness :
  let r := prove Examples.chainer Examples.clock
             (Examples.positive_ Examples.b)
             [Examples.eq_ Examples.a Examples.b] [Examples.rule1] in
  let r2 := prove Examples.chainer Examples.clock
              (Examples.positive_ Examples.a) (final_facts r)
              [Examples.rule1] in
  steps r2 = [] ∧ final_facts r2 = final_facts r ∧ iterations_used r2 = 1
  ∧ prove_outcome Examples.chainer Examples.clock
      (Examples.positive_ Examples.a) (final_facts r) [Examples.rule1]
    = Stuck.
Proof.
  apply (stuck_search_is_fixed_point Examples.chainer Examples.clock
           (Examples.positive_ Examples.b)
           [Examples.eq_ Examples.a Examples.b] [Examples.rule1]
           Examples.chainer Examples.clock (Examples.positive_ Examples.a)).
  - vm_compute. reflexivity.
  - reflexivity.
  - apply (bool_decide_eq_false_1 (_ ∈ _)). vm_compute. reflexivity.
Defined.

(** * Further properties of the rule system *)

Lemma elem_of_foldl_union (names : list string) (active : gset string) n :
  n ∈ foldl (λ a rule_name, a ∪ {[rule_name]}) active names
  ↔ n ∈ active ∨ n ∈ names.
Proof.
  revert active. induction names as [|m names IH]; intros active; simpl.
  - rewrite elem_of_nil. tauto.
  - rewrite IH, elem_of_union, elem_of_singleton, elem_of_cons. tauto.
Qed.

Lemma elem_of_foldl_difference (names : list string) (active : gset string) n :
  n ∈ foldl (λ a rule_name, a ∖ {[rule_name]}) active names
  ↔ n ∈ active ∧ n ∉ names.
Proof.
  revert active. induction names as [|m names IH]; intros active; simpl.
  - rewrite elem_of_nil. tauto.
  - rewrite IH, elem_of_difference, elem_of_singleton, not_elem_of_cons. tauto.
Qed.

Lemma lookup_all_present keys names :
  Forall (λ n, n ∈ keys) names → lookup_all keys names = inr names.
Proof.
  induction 1 as [|n names Hn _ IH]; simpl; [done|].
  by rewrite decide_True, IH.
Qed.

Lemma category_names_in_elem mapping category names :
  category_names_in mapping category = Some names →
  (category, names) ∈ mapping.
Proof.
  induction mapping as [|[c ns] mapping IH]; simpl; [done|].
  case_decide as Hc.
  - intros [= ->]. subst c. apply list_elem_of_here.
  - intros H. apply list_elem_of_further. auto.
Qed.

Lemma category_names_in_catalog category names :
  category_names category = Some names →
  Forall (λ n, n ∈ catalog_rule_names) names.
Proof.
  intros H%category_names_in_elem.
  assert (Hall : Forall (λ cn, Forall (λ n, n ∈ catalog_rule_names) cn.2)
                   category_mapping).
  { apply (bool_decide_eq_true_1 (Forall _ _)). vm_compute. reflexivity. }
  by apply (proj1 (Forall_forall _ _) Hall (category, names)).
Qed.

Lemma catalog_name_has_category n :
  n ∈ catalog_rule_names →
  ∃ category names, category_names category = Some names ∧ n ∈ names.
Proof.
  assert (Hall : Forall (λ n, Exists (λ cn, category_names cn.1 = Some cn.2
                                            ∧ n ∈ cn.2) category_mapping)
                   catalog_rule_names).
  { apply (bool_decide_eq_true_1 (Forall _ _)). vm_compute. reflexivity. }
  intros Hn. apply (proj1 (Forall_forall _ _) Hall) in Hn.
  apply Exists_exists in Hn as ([c ns] & _ & ? & ?). by exists c, ns.
Qed.

Lemma reachable_catalog self :
  reachable self →
  list_rule_names self = catalog_rule_names ∧ active_in_catalog self.
Proof.
  induction 1 as [|n self _ [IHn IHa]|n self _ [IHn IHa]
                  |c self _ [IHn IHa]|c self _ [IHn IHa]].
  - split; [done|apply new_RuleSystem_active_in_catalog].
  - split; [|by apply enable_rule_active_in_catalog].
    unfold enable_rule. by case_decide.
  - split; [done|by apply disable_rule_active_in_catalog].
  - unfold enable_category, get_rules_by_category.
    destruct (category_names c) as [names|] eqn:Hc; [|done].
    pose proof (category_names_in_catalog c names Hc) as Hin.
    rewrite lookup_all_present by (by rewrite IHn). simpl. split; [done|].
    intros m. simpl. rewrite elem_of_foldl_union. intros [?|Hm]; [auto|].
    rewrite IHn. by apply (proj1 (Forall_forall _ _) Hin).
  - unfold disable_category, get_rules_by_category.
    destruct (category_names c) as [names|] eqn:Hc; [|done].
    pose proof (category_names_in_catalog c names Hc) as Hin.
    rewrite lookup_all_present by (by rewrite IHn). simpl. split; [done|].
    intros m. simpl. rewrite elem_of_foldl_difference. intros [? _]. auto.
Qed.

Lemma reachable_category self category names :
  reachable self → category_names category = Some names →
  get_rules_by_category self category = inr names.
Proof.
  intros [Hn _]%reachable_catalog Hc. unfold get_rules_by_category.
  rewrite Hc, Hn. apply lookup_all_present.
  by apply (category_names_in_catalog category).
Qed.

(** X23. On a rule system built by [RuleSystem()] and the toggling methods,
    [enable_category] and [disable_category] raise for an unknown category
    and leave the system as it was; for one of the four categories they
    return normally, the rules of the category all become active, or all
    inactive, and the status of every other rule is as before. *)
Theorem category_toggling self category :
  reachable self →
  (category_names category = None →
     enable_category category self = (inl (UnknownCategory category), self)
     ∧ disable_category category self
       = (inl (UnknownCategory category), self))
  ∧ (∀ names, category_names category = Some names →
       (enable_category category self).1 = inr ()
       ∧ (disable_category category self).1 = inr ()
       ∧ ∀ n,
           is_rule_active n (enable_category category self).2
           = bool_decide (n ∈ names) || is_rule_active n self
           ∧ is_rule_active n (disable_category category self).2
             = negb (bool_decide (n ∈ names)) && is_rule_active n self).
Proof.
  intros Hreach. split.
  - intros Hc. unfold enable_category, disable_category, get_rules_by_category.
    by rewrite Hc.
  - intros names Hc. unfold enable_category, disable_category.
    rewrite (reachable_category self category names) by done. simpl.
    split_and!; try done. intros n. unfold is_rule_active. simpl. split.
    + apply eq_true_iff_eq. rewrite orb_true_iff, !bool_decide_eq_true.
      rewrite elem_of_foldl_union. tauto.
    + apply eq_true_iff_eq.
      rewrite andb_true_iff, negb_true_iff, bool_decide_eq_false,
        !bool_decide_eq_true.
      rewrite elem_of_foldl_difference. tauto.
Qed.

Lemma category_toggling_witness :
  enable_category "invalid_category" new_RuleSystem
  = (inl (UnknownCategory "invalid_category"), new_RuleSystem)
  ∧ disable_category "invalid_category" new_RuleSystem
    = (inl (UnknownCategory "invalid_category"), new_RuleSystem).
Proof.
  refine (proj1 (category_toggling new_RuleSystem "invalid_category"
                   reachable_new) _).
  reflexivity.
Defined.

(** X24. Every rule system built by [RuleSystem()] and the toggling methods
    holds the catalog's names, its active rules are rules of the catalog,
    and [get_rules_by_category] never meets a missing key on it. *)
Theorem reachable_rule_systems_are_consistent self :
  reachable self →
  list_rule_names self = catalog_rule_names
  ∧ (∀ n, is_rule_active n self = true → n ∈ catalog_rule_names)
  ∧ ∀ category n, get_rules_by_category self category ≠ inl (KeyError n).
Proof.
  intros Hreach. pose proof (reachable_catalog self Hreach) as [Hn Ha].
  split_and!; [done| |].
  - intros n Hact%bool_decide_eq_true. rewrite <- Hn. by apply Ha.
  - intros category n.
    destruct (category_names category) as [names|] eqn:Hc.
    + by rewrite (reachable_category self category names).
    + unfold get_rules_by_category. by rewrite Hc.
Qed.

Lemma reachable_rule_systems_are_consistent_witness :
  list_rule_names (disable_rule "prime_not_even" new_RuleSystem).2
  = catalog_rule_names.
Proof.
  refine (proj1 (reachable_rule_systems_are_consistent _ _)).
  apply reachable_disable_rule, reachable_new.
Defined.

(** X25. Disabling a category whose rules are all active and enabling it
    again gives back the rule system. *)
Theorem disable_then_enable_category self category names :
  reachable self → category_names category = Some names →
  Forall (λ n, is_rule_active n self = true) names →
  (enable_category category (disable_category category self).2).2 = self.
Proof.
  intros Hreach Hc Hact.
  assert (Hreach' : reachable (disable_category category self).2)
    by (by apply reachable_disable_category).
  unfold enable_category at 1.
  rewrite (reachable_category _ category names) by done.
  unfold disable_category.
  rewrite (reachable_category self category names) by done. simpl.
  destruct self as [ns active]. simpl in *. f_equal.
  apply set_eq. intros n.
  rewrite elem_of_foldl_union, elem_of_foldl_difference.
  split; [|destruct (decide (n ∈ names)); tauto].
  intros [[? _]|Hn]; [done|].
  apply (proj1 (Forall_forall _ _) Hact) in Hn.
  by apply bool_decide_eq_true in Hn.
Qed.

Lemma disable_then_enable_category_witness :
  (enable_category "algebraic"
     (disable_category "algebraic" new_RuleSystem).2).2 = new_RuleSystem.
Proof.
  apply (disable_then_enable_category new_RuleSystem "algebraic"
           ["subtraction_property"; "division_property";
            "equality_transitivity"; "addition_property";
            "multiplication_property"; "equality_symmetry"]).
  - apply reachable_new.
  - reflexivity.
  - apply (bool_decide_eq_true_1 (Forall _ _)). vm_compute. reflexivity.
Defined.

Lemma disable_category_active self category n :
  reachable self →
  n ∈ active_rules (disable_category category self).2 →
  n ∈ active_rules self
  ∧ ∀ names, category_names category = Some names → n ∉ names.
Proof.
  intros Hreach. unfold disable_category.
  destruct (category_names category) as [names|] eqn:Hc.
  - rewrite (reachable_category self category names) by done. simpl.
    rewrite elem_of_foldl_difference. intros [? ?]. split; [done|].
    by intros ? [= <-].
  - unfold get_rules_by_category. rewrite Hc. simpl. done.
Qed.

(** X26. Every rule of the catalog is in one of the four categories: once
    the four categories have been disabled one after the other, no rule is
    active, whatever was enabled before. *)
Theorem disabling_all_categories self :
  reachable self →
  let s1 := (disable_category "algebraic" self).2 in
  let s2 := (disable_category "arithmetic" s1).2 in
  let s3 := (disable_category "comparison" s2).2 in
  let s4 := (disable_category "number_theory" s3).2 in
  ∀ n, is_rule_active n s4 = false.
Proof.
  intros Hreach s1 s2 s3 s4 n.
  assert (H1 : reachable s1) by (by apply reachable_disable_category).
  assert (H2 : reachable s2) by (by apply reachable_disable_category).
  assert (H3 : reachable s3) by (by apply reachable_disable_category).
  apply bool_decide_eq_false. intros Hact.
  apply disable_category_active in Hact as [Hact N4]; [|done].
  apply disable_category_active in Hact as [Hact N3]; [|done].
  apply disable_category_active in Hact as [Hact N2]; [|done].
  apply disable_category_active in Hact as [Hact N1]; [|done].
  pose proof (reachable_catalog self Hreach) as [Hn Ha].
  apply Ha in Hact. rewrite Hn in Hact.
  apply catalog_name_has_category in Hact as (c & names & Hc & Hin).
  pose proof (category_names_in_elem _ _ _ Hc) as Hmap.
  unfold category_mapping in Hmap.
  repeat (apply elem_of_cons in Hmap as [[= -> ->]|Hmap]);
    [by eapply N1|by eapply N2|by eapply N3|by eapply N4|].
  by apply elem_of_nil in Hmap.
Qed.

Lemma disabling_all_categories_witness :
  is_rule_active "prime_not_even"
    (disable_category "number_theory"
       (disable_category "comparison"
          (disable_category "arithmetic"
             (disable_category "algebraic" new_RuleSystem).2).2).2).2
  = false.
Proof.
  apply (disabling_all_categories new_RuleSystem reachable_new).
Defined.

(** * Further properties of problems and of printing *)

Lemma constructed_fact_not_hollow f :
  new_Fact (predicate f) (arguments f) = Ok f →
  Problem.fact_is_hollow f = false.
Proof.
  unfold new_Fact. case_bool_decide as Hp; [|done].
  destruct (_get_expected_arg_count (predicate f)) as [k|] eqn:He; [|done].
  case_bool_decide as Hlen; [done|]. intros _.
  unfold Problem.fact_is_hollow. apply orb_false_iff.
  split; apply bool_decide_eq_false; intros E.
  - revert Hp. rewrite E.
    apply (bool_decide_eq_false_1 ("" ∈ VALID_PREDICATES)). reflexivity.
  - rewrite E in Hlen. simpl in Hlen. subst k.
    unfold _get_expected_arg_count in He. by repeat case_bool_decide.
Qed.

Lemma any_hollow_fact_constructed fs :
  Forall (λ f, new_Fact (predicate f) (arguments f) = Ok f) fs →
  Problem.any_hollow_fact fs = false.
Proof.
  induction 1 as [|f fs Hf _ IH]; simpl; [done|].
  by rewrite constructed_fact_not_hollow.
Qed.

Lemma any_hollow_rule_false rs :
  Problem.any_hollow_rule rs = false ↔ Forall (λ rule, premises rule ≠ []) rs.
Proof.
  induction rs as [|r rs IH]; simpl.
  - split; [constructor|done].
  - rewrite Forall_cons, <- IH. unfold Problem.rule_is_hollow.
    rewrite orb_false_r. case_bool_decide; [|tauto].
    split; [done|]. by intros [? _].
Qed.

(** X27. [validate] of a problem whose facts and goal the [Fact]
    constructor accepts is true exactly when every rule has a premise: the
    tests of the facts and of the goal never fail on constructed facts, and
    the test of a rule depends on its list of premises alone. *)
Theorem validate_checks_premises (p : Problem.MathProblem) :
  Forall (λ f, new_Fact (predicate f) (arguments f) = Ok f)
    (Problem.facts p) →
  new_Fact (predicate (Problem.goal p)) (arguments (Problem.goal p))
  = Ok (Problem.goal p) →
  Problem.validate p = true
  ↔ Forall (λ rule, premises rule ≠ []) (Problem.rules p).
Proof.
  intros Hfacts Hgoal. unfold Problem.validate.
  rewrite any_hollow_fact_constructed, constructed_fact_not_hollow by done.
  rewrite <- any_hollow_rule_false.
  by destruct (Problem.any_hollow_rule (Problem.rules p)).
Qed.

Lemma validate_checks_premises_witness :
  Problem.validate
    (Problem.MkMathProblem
       [MkFact "eq" [Variable_ "a"; Variable_ "b"]]
       [MkRule [] (MkFact "positive" [Variable_ "X"]) "axiom"]
       (MkFact "positive" [Variable_ "a"]) "") = true
  ↔ Forall (λ rule, premises rule ≠ [])
      [MkRule [] (MkFact "positive" [Variable_ "X"]) "axiom"].
Proof.
  apply (validate_checks_premises
           (Problem.MkMathProblem
              [MkFact "eq" [Variable_ "a"; Variable_ "b"]]
              [MkRule [] (MkFact "positive" [Variable_ "X"]) "axiom"]
              (MkFact "positive" [Variable_ "a"]) "")).
  - repeat constructor.
  - reflexivity.
Defined.

(** X28. The two spellings of the power operator print alike, but the
    operations are different expressions and neither matches the other: an
    expression is not determined by what it prints. *)
Theorem power_spellings_print_alike (l r : Expression) :
  str_expression (Operation l "**" r) = str_expression (Operation l "^" r)
  ∧ Operation l "**" r ≠ Operation l "^" r
  ∧ match_expression (Operation l "**" r) (Operation l "^" r) = None
  ∧ match_expression (Operation l "^" r) (Operation l "**" r) = None.
Proof.
  split_and!; try done.
Qed.

(** * The iteration order of the sets *)

Lemma ordered_apply_rule_Permutation order rule available_facts :
  Ordered.iteration_order order →
  Ordered.find_rule_matches order (premises rule) available_facts
  ≡ₚ find_rule_matches (premises rule) available_facts
  ∧ Ordered.apply_rule order rule available_facts
    ≡ₚ apply_rule rule available_facts
  ∧ Ordered.can_apply_rule order rule available_facts
    = can_apply_rule rule available_facts.
Proof.
  intros Horder.
  assert (H : Ordered.find_rule_matches order (premises rule) available_facts
              ≡ₚ find_rule_matches (premises rule) available_facts)
    by (by apply ordered_match_facts_list_Permutation).
  split_and!; [done| |].
  - unfold Ordered.apply_rule, apply_rule. cbv zeta.
    apply filter_Permutation, fmap_Permutation, H.
  - unfold Ordered.can_apply_rule, can_apply_rule.
    by rewrite (Permutation_length H).
Qed.

(** X29. The order in which the sets are iterated changes the order of the
    matches and nothing else: whatever the order, [find_rule_matches]
    returns the matches it returns under the order of insertion, each as
    often, [apply_rule] the same new facts, and [can_apply_rule] the same
    answer. *)
Theorem iteration_order_permutes_matches order rule available_facts :
  Ordered.iteration_order order →
  Ordered.find_rule_matches order (premises rule) available_facts
  ≡ₚ find_rule_matches (premises rule) available_facts
  ∧ Ordered.apply_rule order rule available_facts
    ≡ₚ apply_rule rule available_facts
  ∧ Ordered.can_apply_rule order rule available_facts
    = can_apply_rule rule available_facts.
Proof. apply ordered_apply_rule_Permutation. Qed.

Lemma iteration_order_permutes_matches_witness :
  Ordered.apply_rule Ordered.newest_first Examples.rule1
    [Examples.eq_ Examples.a Examples.b; Examples.eq_ Examples.c Examples.d]
  ≡ₚ apply_rule Examples.rule1
       [Examples.eq_ Examples.a Examples.b; Examples.eq_ Examples.c Examples.d].
Proof.
  refine (proj1 (proj2 (iteration_order_permutes_matches
                          Ordered.newest_first Examples.rule1 _ _))).
  intros facts. apply reverse_Permutation.
Defined.

Section OrderedSoundness.

Context (order : list Fact → list Fact).
Context (Horder : Ordered.iteration_order order).
Context (rules : list Rule) (initial_facts : list Fact).
Context (goal : Fact) (self_max_facts : Z) (elapsed : Qc).

Local Abbreviation follow facts :=
  (∀ f, f ∈ facts → derivable rules initial_facts f).

Lemma ordered_apply_rule_derivable rule facts :
  rule ∈ rules → follow facts →
  follow (Ordered.apply_rule order rule facts).
Proof.
  intros Hrule Hfacts f Hf.
  rewrite (proj1 (proj2 (ordered_apply_rule_Permutation order rule facts
                           Horder))) in Hf.
  apply elem_of_apply_rule in Hf as (_ & s & Hs & <-).
  apply derivable_rule; [done|]. intros p Hp. apply Hfacts.
  apply find_rule_matches_premises in Hs.
  by apply (proj1 (Forall_forall _ _) Hs).
Qed.

Lemma ordered_new_facts_loop_derivable rule iteration new_facts st :
  follow (current_facts st) → follow new_facts →
  follow (current_facts (flow_locals
    (Ordered.new_facts_loop order goal self_max_facts elapsed rule iteration
       new_facts st))).
Proof.
  revert st. induction new_facts as [|new_fact rest IH]; intros st Hst Hnew;
    [done|].
  assert (Hrest : follow rest).
  { intros f Hf. apply Hnew. by apply list_elem_of_further. }
  assert (Hst' : follow (current_facts st ++ [new_fact])).
  { intros f [Hf|Hf]%elem_of_app; [by apply Hst|].
    apply list_elem_of_singleton in Hf. subst f.
    apply Hnew, list_elem_of_here. }
  simpl. repeat case_decide; simpl; try done; by apply IH.
Qed.

Lemma ordered_rules_loop_derivable iteration rs st :
  (∀ rule, rule ∈ rs → rule ∈ rules) → follow (current_facts st) →
  follow (current_facts (flow_locals
    (Ordered.rules_loop order goal self_max_facts elapsed iteration rs st))).
Proof.
  revert st. induction rs as [|rule rest IH]; intros st Hrs Hst; [done|].
  assert (Hrest : ∀ r, r ∈ rest → r ∈ rules).
  { intros r Hr. by apply Hrs, list_elem_of_further. }
  simpl.
  destruct (Ordered.can_apply_rule order rule (current_facts st)); simpl;
    [|by apply IH].
  pose proof (ordered_new_facts_loop_derivable rule iteration
                (Ordered.apply_rule order rule (current_facts st)) st Hst)
    as Hnf.
  destruct (Ordered.new_facts_loop _ _ _ _ _ _ _ _) as [st'|tag r st'];
    simpl in *.
  - apply IH; [done|]. apply Hnf, ordered_apply_rule_derivable; [|done].
    apply Hrs, list_elem_of_here.
  - apply Hnf, ordered_apply_rule_derivable; [|done].
    apply Hrs, list_elem_of_here.
Qed.

Lemma ordered_iterations_loop_derivable range st :
  follow (current_facts st) →
  follow (current_facts
    (Ordered.iterations_loop order goal self_max_facts elapsed rules range
       st).2).
Proof.
  revert st. induction range as [|iteration range' IH]; intros st Hst;
    [done|].
  simpl.
  match goal with
  | |- context [Ordered.rules_loop ?o ?g ?m ?e ?i ?rs ?s0] =>
      pose proof (ordered_rules_loop_derivable i rs s0 (λ _ H, H) Hst) as Hr;
      destruct (Ordered.rules_loop o g m e i rs s0) as [st'|tag r st']
  end; simpl in *; [|done].
  case_decide; [done|]. by apply IH.
Qed.

End OrderedSoundness.

(** X30. Whatever the order in which the sets are iterated, every fact of
    the final facts follows from the initial facts by the rules given. *)
Theorem final_facts_follow_under_any_order
    order self clock goal initial_facts rules f :
  Ordered.iteration_order order →
  f ∈ final_facts (Ordered.prove order self clock goal initial_facts rules) →
  derivable rules initial_facts f.
Proof.
  intros Horder. unfold Ordered.prove, Ordered.run. simpl.
  destruct (decide (goal ∈ initial_facts)); simpl;
    [by apply derivable_initial|].
  pose proof (ordered_iterations_loop_returns order goal (max_facts self)
                (Qcminus (time_at_return clock) (time_at_start clock))
                rules (seq 0 (Z.to_nat (max_iterations self)))
                (MkLocals initial_facts [] reset_statistics)) as Hfinal.
  pose proof (ordered_iterations_loop_derivable order Horder rules
                initial_facts goal (max_facts self)
                (Qcminus (time_at_return clock) (time_at_start clock))
                (seq 0 (Z.to_nat (max_iterations self)))
                (MkLocals initial_facts [] reset_statistics)) as Hloop.
  destruct (Ordered.iterations_loop order _ _ _ _ _ _) as [[tag r] st].
  simpl in *. rewrite Hfinal. apply Hloop. intros g Hg.
  by apply derivable_initial.
Qed.

Lemma final_facts_follow_under_any_order_witness :
  derivable [Examples.equality_symmetry; Examples.rule1]
    [Examples.eq_ Examples.a Examples.b] (Examples.gt_ Examples.b (num 0)).
Proof.
  apply (final_facts_follow_under_any_order Ordered.newest_first
           (new_ForwardChainer 100 2) Examples.clock
           (Examples.gt_ Examples.b (num 0))).
  - intros facts. apply reverse_Permutation.
  - apply (bool_decide_eq_true_1 (_ ∈ _)). vm_compute. reflexivity.
Defined.
